(** * Reactive components: the effect registry, the state store, the
      reconciler and the component life cycle of [src/reactive.js]

    The development embeds the JavaScript of [src/reactive.js] in Rocq.

    - JavaScript values are an inductive type with truthiness, [!],
      [instanceof Function] and [===] written out.
    - Plain objects used as dictionaries ([al] of the effect handler, the
      private object [s] of [_state]) are [gmap string _]; keys are taken not
      to collide with the names inherited from [Object.prototype].
    - The object literal given to [setState] is an association list in the
      order [Object.keys] enumerates it.
    - Arrays and objects that are shared between instances (the [events] list
      of a component kind and its entries) live in a store of cells addressed
      by locations, and so do the component instances themselves.
    - DOM nodes are trees carrying the identity of the node object; the DOM
      primitives the library calls are recorded in a log, in call order.
    - User functions (effects, event listeners) are opaque: calling one is
      recorded in the log, and the function does not call back into the
      library.  A template is a function of the state, the props and the
      number of template calls made so far, which leaves the live tree
      alone; what is stated of [render] comparing the two trees is stated
      for a template that builds its tree from new nodes. *)

From stdpp Require Import gmap strings list fin_maps.


Set Warnings "-register-all".


(** Locations of heap cells and of component instances. *)
Abbreviation loc := positive (only parsing).

(* ===================================================================== *)
(** ** JavaScript values *)
(* ===================================================================== *)

Module JS.

(** The fragment of the doubles the development distinguishes: [NaN], the
    negative zero, and the integers ([Int 0] is the positive zero).  The
    two infinities and the fractions have no counterpart here. *)
Inductive number :=
| NaN
| NegZero
| Int (z : Z).

(** Function objects.  [User] functions come from the caller; the two other
    kinds are the wrappers [putEvents] builds and caches on an entry of
    [this.events]: one wrapper at most is built per entry object, so the
    entry names the wrapper. *)
Inductive fn :=
| User (id : positive)
| Delegated (this entry : loc)
| Bound (this entry : loc) (target : fn).

(** The values: [undefined], [null], booleans, numbers, strings, references
    to heap cells and functions.  [BigInt] and [Symbol] values have no
    counterpart here; what is proved of a value is proved of these kinds. *)
Inductive value :=
| VUndefined
| VNull
| VBool (b : bool)
| VNumber (n : number)
| VString (s : string)
| VObject (l : loc)
| VFunction (f : fn).

Inductive exn :=
| TypeError (msg : string)
| Error (msg : string).

Inductive result (A : Type) :=
| Ok (a : A)
| Throw (e : exn).
Arguments Ok {A} a.
Arguments Throw {A} e.

#[global] Instance number_eq_dec : EqDecision number.
Proof. solve_decision. Defined.
#[global] Instance fn_eq_dec : EqDecision fn.
Proof. solve_decision. Defined.
#[global] Instance value_eq_dec : EqDecision value.
Proof. solve_decision. Defined.
#[global] Instance exn_eq_dec : EqDecision exn.
Proof. solve_decision. Defined.

(** [ToBoolean]. *)
Definition truthy (v : value) : bool :=
  match v with
  | VUndefined | VNull => false
  | VBool b => b
  | VNumber NaN | VNumber NegZero => false
  | VNumber (Int z) => negb (z =? 0)%Z
  | VString s => negb (String.eqb s "")
  | VObject _ | VFunction _ => true
  end.

(** The unary [!]: always a boolean primitive. *)
Definition not (v : value) : value := VBool (negb (truthy v)).

(** [v instanceof Function]: primitives are instances of nothing. *)
Definition instanceof_Function (v : value) : bool :=
  match v with
  | VFunction _ => true
  | _ => false
  end.

Definition callable (v : value) : bool := instanceof_Function v.

(** [a === b]. *)
Definition strict_eq (a b : value) : bool :=
  match a, b with
  | VNumber NaN, _ | _, VNumber NaN => false
  | VNumber NegZero, VNumber (Int 0) | VNumber (Int 0), VNumber NegZero => true
  | _, _ => bool_decide (a = b)
  end.

(** [a !== b]. *)
Definition strict_neq (a b : value) : bool := negb (strict_eq a b).

(** [Array.prototype.indexOf], which compares with [===]. *)
Fixpoint indexOf (l : list value) (x : value) : option nat :=
  match l with
  | [] => None
  | y :: l' => if strict_eq y x then Some 0 else S <$> indexOf l' x
  end.

(** [l.splice(i, 1)]. *)
Definition splice1 {A} (i : nat) (l : list A) : list A := take i l ++ drop (S i) l.

(** A property read [o[k]] on a dictionary: [undefined] when absent. *)
Definition get (o : gmap string value) (k : string) : value :=
  default VUndefined (o !! k).

(** A heap cell, what a [VObject] refers to: an array or a plain object. *)
Inductive cell :=
| Arr (items : list value)
| Obj (props : gmap string value).

End JS.
Import JS.

(* ===================================================================== *)
(** ** [JSON.parse(JSON.stringify(_))] *)
(* ===================================================================== *)

Module Json.

(** The data a JSON text denotes. *)
Inductive json :=
| JNull
| JBool (b : bool)
| JNumber (z : Z)
| JString (s : string)
| JArray (items : list json)
| JObject (props : gmap string json).

(** What becomes of a value: left out of the enclosing object, refused
    because the structure is circular, or serialised. *)
Inductive outcome :=
| Omitted
| Circular
| Data (j : json).

#[global] Instance outcome_is_circular_dec (r : outcome) : Decision (r = Circular).
Proof. destruct r; (by left) || (by right). Defined.

Definition data_of (r : outcome) : option json :=
  match r with Data j => Some j | _ => None end.

(** The round trip of one value.  [undefined] and functions are left out,
    [NaN] becomes [null], the negative zero becomes [0]; arrays and objects
    are copied in depth.  A location with no cell is an object of which
    nothing is known: it is read as an empty object.  [fuel] bounds the
    nesting.

    The function covers the values of [JS.value] only.  In JavaScript an
    infinity is read back as [null], a [Symbol] is left out like
    [undefined], a [BigInt] makes [JSON.stringify] throw, and an object
    with a [toJSON] method is serialised as that method says: none of the
    four is a value of [JS.value], and nothing is proved about them. *)
Fixpoint roundtrip (fuel : nat) (cells : gmap loc cell) (v : value) : outcome :=
  match v with
  | VUndefined | VFunction _ => Omitted
  | VNull | VNumber NaN => Data JNull
  | VBool b => Data (JBool b)
  | VNumber NegZero => Data (JNumber 0)
  | VNumber (Int z) => Data (JNumber z)
  | VString s => Data (JString s)
  | VObject l =>
      match cells !! l, fuel with
      | None, _ => Data (JObject ∅)
      | Some _, 0 => Circular
      | Some (Arr items), S fuel' =>
          let rs := roundtrip fuel' cells <$> items in
          if decide (Forall (λ r, r ≠ Circular) rs)
          then Data (JArray ((λ r, default JNull (data_of r)) <$> rs))
          else Circular
      | Some (Obj props), S fuel' =>
          let rs := roundtrip fuel' cells <$> props in
          if decide (map_Forall (λ _ r, r ≠ Circular) rs)
          then Data (JObject (omap data_of rs))
          else Circular
      end
  end.

End Json.

(** What is recorded of a run, in call order. *)

(** The argument [dispatchGlobals] hands to the global effects. *)
Inductive keyarg :=
| OneKey (key : string)
| ChangedKeys (changed : list string)
| NullKey.

(** Identity of a DOM node object: made by user code (a template,
    [createElement], [fromHTML]) or by [cloneNode] inside the reconciler. *)
Inductive ident :=
| Made (n : positive)
| Cloned (n : positive).

Inductive event :=
| CallEffect (f : fn)
| CallGlobal (f : fn) (key : keyarg)
| ReplaceWith (old new : ident)
| RemoveChild (parent child : ident)
| RemoveAttribute (el : ident) (name : string)
| AppendChild (parent child : ident)
| SetAttribute (el : ident) (name val : string)
| SetValue (el : ident) (val : string)
| AddEventListener (el : ident) (type listener : value)
| RemoveEventListener (el : ident) (type listener : value).

#[global] Instance keyarg_eq_dec : EqDecision keyarg.
Proof. solve_decision. Defined.
#[global] Instance ident_eq_dec : EqDecision ident.
Proof. solve_decision. Defined.
#[global] Instance event_eq_dec : EqDecision event.
Proof. solve_decision. Defined.

(* ===================================================================== *)
(** ** [Reactive.EffectHandler] *)
(* ===================================================================== *)

Module EffectHandler.

(** The two closure variables [al] and [globals]. *)
Record t := mk {
  al : gmap string (list value);
  globals : list value;
}.

(** [Reactive.EffectHandler()]. *)
Definition create : t := {| al := ∅; globals := [] |}.

(** [add(key, action)].  The guard is [!action instanceof Function], which
    JavaScript reads as [(!action) instanceof Function]. *)
Definition add (key : string) (action : value) (h : t) : result t :=
  if instanceof_Function (JS.not action)
  then Throw (TypeError "action is not a function")
  else
    let al1 := match al h !! key with
               | None => <[key := []]> (al h)
               | Some _ => al h
               end in
    Ok {| al := <[key := default [] (al1 !! key) ++ [action]]> al1;
          globals := globals h |}.

(** [addGlobal(action)]. *)
Definition addGlobal (action : value) (h : t) : result t :=
  if instanceof_Function (JS.not action)
  then Throw (TypeError "action is not a function")
  else Ok {| al := al h; globals := globals h ++ [action] |}.

(** [remove(key, action = false)]; [None] is the omitted argument. *)
Definition remove (key : string) (action : option value) (h : t) : bool * t :=
  let action := default (VBool false) action in
  match al h !! key with
  | None => (false, h)
  | Some l =>
      if negb (truthy action)
      then (true, {| al := <[key := []]> (al h); globals := globals h |})
      else
        match indexOf l action with
        | Some i => (true, {| al := <[key := splice1 i l]> (al h);
                              globals := globals h |})
        | None => (false, h)
        end
  end.

(** [removeGlobal(action = false)]. *)
Definition removeGlobal (action : option value) (h : t) : bool * t :=
  let action := default (VBool false) action in
  if negb (truthy action)
  then (bool_decide (0 < length (globals h)), {| al := al h; globals := [] |})
  else
    match indexOf (globals h) action with
    | Some i => (true, {| al := al h; globals := splice1 i (globals h) |})
    | None => (false, h)
    end.

(** A run of calls: the calls made, and the exception that cut the run
    short, if any. *)
Definition run : Type := list event * option exn.

(** [fs.forEach((funct) => funct(...))]: calling what is not a function
    throws a [TypeError] and ends the loop.  The call of a function is
    recorded and does nothing else: an effect that calls a method of a
    component, of its own or of another one, is outside what is modelled,
    and so is an effect that throws. *)
Fixpoint forEach_call (mkcall : fn → event) (fs : list value) : run :=
  match fs with
  | [] => ([], None)
  | VFunction f :: fs' =>
      let '(calls, e) := forEach_call mkcall fs' in (mkcall f :: calls, e)
  | _ :: _ => ([], Some (TypeError "funct is not a function"))
  end.

(** [dispatchGlobals(key = "")]; [None] is the omitted argument. *)
Definition dispatchGlobals (key : option keyarg) (h : t) : run :=
  let key := default (OneKey "") key in
  forEach_call (λ f, CallGlobal f key) (globals h).

(** [dispatchIgnoreGlobals(key)]. *)
Definition dispatchIgnoreGlobals (key : string) (h : t) : run :=
  match al h !! key with
  | Some l => forEach_call CallEffect l
  | None => ([], None)
  end.

(** Sequencing of two runs. *)
Definition seq_run (r1 : run) (r2 : run) : run :=
  match r1 with
  | (calls, Some e) => (calls, Some e)
  | (calls, None) => (calls ++ r2.1, r2.2)
  end.

(** [dispatch(key = null)]; with [null] for a key, [al[key]] reads the
    property ["null"]. *)
Definition dispatch (key : option string) (h : t) : run :=
  seq_run (dispatchIgnoreGlobals (default "null" key) h)
          (dispatchGlobals
             (Some match key with Some k => OneKey k | None => NullKey end) h).

End EffectHandler.

(* ===================================================================== *)
(** ** [_state] *)
(* ===================================================================== *)

Module State.

(** [_state(state)]: the private copy [s = { ...state }]. *)
Definition _state (state : gmap string value) : gmap string value := state.

(** [value()], that is [JSON.parse(JSON.stringify(s))]: a deep copy, as
    data.  A path through nested objects that visits more cells than the
    heap has visits one twice, so the fuel below runs out only on a
    circular structure, which [JSON.stringify] refuses with a
    [TypeError]. *)
Definition value (cells : gmap loc cell) (s : gmap string value)
  : result (gmap string Json.json) :=
  let rs := Json.roundtrip (size cells) cells <$> s in
  if decide (map_Forall (λ _ r, r ≠ Json.Circular) rs)
  then Ok (omap Json.data_of rs)
  else Throw (TypeError "Converting circular structure to JSON").

(** [change(key, value)]. *)
Definition change (key : string) (val : JS.value) (s : gmap string JS.value)
  : bool * gmap string JS.value :=
  match s !! key with
  | Some prev => (strict_neq prev val, <[key := val]> s)
  | None => (false, s)
  end.

End State.

(* ===================================================================== *)
(** ** DOM nodes *)
(* ===================================================================== *)

Module Dom.

(** A text node or an element.  [uid] is the identity of the node object,
    [component] the expando property the library sets on the root of a
    component's tree, [value] the live property of a form control (absent
    until it is assigned). *)
Inductive Node :=
| Text (uid : ident) (component : option loc) (data : string)
| Element (uid : ident) (component : option loc) (tagName : string)
    (attributes : list (string * string)) (value : option string)
    (childNodes : list Node).

Inductive NodeType := ELEMENT_NODE | TEXT_NODE.

#[global] Instance NodeType_eq_dec : EqDecision NodeType.
Proof. solve_decision. Defined.

Definition uid (n : Node) : ident :=
  match n with Text u _ _ | Element u _ _ _ _ _ => u end.

Definition component (n : Node) : option loc :=
  match n with Text _ c _ | Element _ c _ _ _ _ => c end.

Definition nodeType (n : Node) : NodeType :=
  match n with Text _ _ _ => TEXT_NODE | Element _ _ _ _ _ _ => ELEMENT_NODE end.

(** [n.tagName]: [undefined] ([None]) on a text node. *)
Definition tagName (n : Node) : option string :=
  match n with Text _ _ _ => None | Element _ _ t _ _ _ => Some t end.

Definition attributes (n : Node) : list (string * string) :=
  match n with Text _ _ _ => [] | Element _ _ _ a _ _ => a end.

Definition childNodes (n : Node) : list Node :=
  match n with Text _ _ _ => [] | Element _ _ _ _ _ c => c end.

Definition value (n : Node) : option string :=
  match n with Text _ _ _ => None | Element _ _ _ _ v _ => v end.

(** [n.component = c]. *)
Definition set_component (c : option loc) (n : Node) : Node :=
  match n with
  | Text u _ d => Text u c d
  | Element u _ t a v cs => Element u c t a v cs
  end.

Definition set_childNodes (cs : list Node) (n : Node) : Node :=
  match n with
  | Text u c d => Text u c d
  | Element u c t a v _ => Element u c t a v cs
  end.

Definition set_attributes (a : list (string * string)) (n : Node) : Node :=
  match n with
  | Text u c d => Text u c d
  | Element u c t _ v cs => Element u c t a v cs
  end.

Definition set_value (v : string) (n : Node) : Node :=
  match n with
  | Text u c d => Text u c d
  | Element u c t a _ cs => Element u c t a (Some v) cs
  end.

(** [n.getAttributeNames()]. *)
Definition getAttributeNames (n : Node) : list string := (attributes n).*1.

(** [n.getAttribute(name)]. *)
Fixpoint getAttribute (a : list (string * string)) (name : string) : option string :=
  match a with
  | [] => None
  | (k, v) :: a' => if String.eqb k name then Some v else getAttribute a' name
  end.

(** The attribute list after [removeAttribute(name)]. *)
Definition removeAttribute (name : string) (a : list (string * string))
  : list (string * string) :=
  filter (λ kv, kv.1 ≠ name) a.

(** The attribute list after [setAttribute(name, val)]: overwritten in
    place when present, appended otherwise. *)
Fixpoint setAttribute (name val : string) (a : list (string * string))
  : list (string * string) :=
  match a with
  | [] => [(name, val)]
  | (k, v) :: a' =>
      if String.eqb k name then (k, val) :: a' else (k, v) :: setAttribute name val a'
  end.

(** Equality of two attribute lists as [isEqualNode] has it: as many
    attributes, and each attribute of the first has its equal in the
    second. *)
Definition attributes_equal (a b : list (string * string)) : bool :=
  (length a =? length b)
  && forallb (λ kv, bool_decide (getAttribute b kv.1 = Some kv.2)) a.

(** [a.isEqualNode(b)]: same node type, same data, tag and attributes, and
    children equal one by one.  Neither the identity, nor [component], nor
    the [value] property take part. *)
Fixpoint isEqualNode (a b : Node) {struct a} : bool :=
  match a, b with
  | Text _ _ d1, Text _ _ d2 => String.eqb d1 d2
  | Element _ _ t1 a1 _ cs1, Element _ _ t2 a2 _ cs2 =>
      String.eqb t1 t2 && attributes_equal a1 a2
      && (fix all_equal (l1 l2 : list Node) {struct l1} : bool :=
            match l1, l2 with
            | [], [] => true
            | x :: l1', y :: l2' => isEqualNode x y && all_equal l1' l2'
            | _, _ => false
            end) cs1 cs2
  | _, _ => false
  end.

(** [n.cloneNode(true)]: new node objects for [n] and all its descendants,
    named from the counter [next]; attributes, data and form-control value
    are copied, expando properties such as [component] are not. *)
Fixpoint cloneNode (n : Node) (next : positive) {struct n} : Node * positive :=
  match n with
  | Text _ _ d => (Text (Cloned next) None d, Pos.succ next)
  | Element _ _ t a v cs =>
      let '(cs', next') :=
        (fix clone_all (l : list Node) (k : positive) {struct l}
           : list Node * positive :=
           match l with
           | [] => ([], k)
           | x :: l' =>
               let '(x', k1) := cloneNode x k in
               let '(l'', k2) := clone_all l' k1 in
               (x' :: l'', k2)
           end) cs (Pos.succ next) in
      (Element (Cloned next) None t a v cs', next')
  end.

End Dom.

(* ===================================================================== *)
(** ** The store, and the monad of the component methods *)
(* ===================================================================== *)

Module Store.
Import Dom.

(** A template: the tree it returns depends on the state, the props and
    the number of template calls made before this one.  A call of the
    template reads and writes nothing else: in particular it leaves the
    tree of the instance as it is.  A JavaScript template that puts nodes
    of the live tree into the tree it builds (the elements of child
    components that [comp.get()] returns again, say) takes them out of the
    live tree before [render] compares the two; such a template is not a
    [template_fn], and the statements about [render] that compare the two
    trees ask for trees that share no node object ([Shape.apart]). *)
Definition template_fn : Type :=
  gmap string JS.value → gmap string JS.value → nat → Node.

(** The fields of a component instance. *)
Record Component := mkComponent {
  _state : gmap string JS.value;
  _props : gmap string JS.value;
  template : option template_fn;
  sideEffects : EffectHandler.t;
  element : option Node;
  events : option loc;
  fields : gmap string JS.value;
}.

Record world := mkWorld {
  cells : gmap loc cell;
  comps : gmap loc Component;
  clones : positive;
  renders : nat;
  log : list event;
}.

(** State and exceptions: what was written before a [throw] stays
    written. *)
Definition M (A : Type) : Type := world → result A * world.

Definition ret {A} (a : A) : M A := λ w, (Ok a, w).

Definition bind {A B} (m : M A) (k : A → M B) : M B :=
  λ w, match m w with
       | (Ok a, w') => k a w'
       | (Throw e, w') => (Throw e, w')
       end.

Definition throw {A} (e : exn) : M A := λ w, (Throw e, w).

Definition gets {A} (f : world → A) : M A := λ w, (Ok (f w), w).

Definition modify (f : world → world) : M unit := λ w, (Ok tt, f w).

Definition set_cells (f : gmap loc cell → gmap loc cell) (w : world) : world :=
  {| cells := f (cells w); comps := comps w; clones := clones w;
     renders := renders w; log := log w |}.

Definition set_comps (f : gmap loc Component → gmap loc Component) (w : world)
  : world :=
  {| cells := cells w; comps := f (comps w); clones := clones w;
     renders := renders w; log := log w |}.

Definition set_clones (k : positive) (w : world) : world :=
  {| cells := cells w; comps := comps w; clones := k;
     renders := renders w; log := log w |}.

Definition set_renders (n : nat) (w : world) : world :=
  {| cells := cells w; comps := comps w; clones := clones w;
     renders := n; log := log w |}.

Definition set_log (f : list event → list event) (w : world) : world :=
  {| cells := cells w; comps := comps w; clones := clones w;
     renders := renders w; log := f (log w) |}.

End Store.

Import Store.

#[global] Instance M_ret : MRet M := @Store.ret.
#[global] Instance M_bind : MBind M := λ A B k m, Store.bind m k.

Module Heap.

(** Record a call of a DOM primitive or of a user function. *)
Definition emit (e : event) : M unit := modify (set_log (λ l, l ++ [e])).

(** Run the calls of an effect dispatch, then rethrow what cut it short. *)
Definition lift_run (r : EffectHandler.run) : M unit :=
  modify (set_log (λ l, l ++ r.1));;
  match r.2 with
  | Some e => throw e
  | None => ret tt
  end.

(** A new cell at a location that is not in use. *)
Definition alloc (c : cell) : M loc :=
  λ w, let l := fresh (dom (cells w)) in (Ok l, set_cells (insert l c) w).

(** The fields of the instance [this]. *)
Definition getComp (this : loc) : M Component :=
  λ w, match comps w !! this with
       | Some c => (Ok c, w)
       | None => (Throw (TypeError "not a component"), w)
       end.

Definition setComp (this : loc) (c : Component) : M unit :=
  modify (set_comps (insert this c)).

(** [a] where [a] is an array: its items. *)
Definition items_of (a : loc) : M (list JS.value) :=
  λ w, match cells w !! a with
       | Some (Arr items) => (Ok items, w)
       | _ => (Throw (TypeError "not an array"), w)
       end.

(** [o[name]]: reading a property of [undefined] or [null] throws; a
    primitive, an array or a function has none of the properties read
    here. *)
Definition get_prop (o : JS.value) (name : string) : M JS.value :=
  λ w, match o with
       | VUndefined | VNull =>
           (Throw (TypeError "Cannot read properties of undefined"), w)
       | VObject l =>
           match cells w !! l with
           | Some (Obj props) => (Ok (JS.get props name), w)
           | _ => (Ok VUndefined, w)
           end
       | _ => (Ok VUndefined, w)
       end.

(** [o[name] = v]: ignored on a primitive. *)
Definition set_prop (o : JS.value) (name : string) (v : JS.value) : M unit :=
  λ w, match o with
       | VUndefined | VNull =>
           (Throw (TypeError "Cannot set properties of undefined"), w)
       | VObject l =>
           match cells w !! l with
           | Some (Obj props) =>
               (Ok tt, set_cells (insert l (Obj (<[name := v]> props))) w)
           | _ => (Ok tt, w)
           end
       | _ => (Ok tt, w)
       end.

(** [items.filter(p)] and [items.map(f)] for effectful [p] and [f]. *)
Fixpoint filterM {A} (p : A → M bool) (items : list A) : M (list A) :=
  match items with
  | [] => mret []
  | x :: items' =>
      b ← p x;
      kept ← filterM p items';
      mret (if b : bool then x :: kept else kept)
  end.

Fixpoint mapM {A B} (f : A → M B) (items : list A) : M (list B) :=
  match items with
  | [] => mret []
  | x :: items' => y ← f x; ys ← mapM f items'; mret (y :: ys)
  end.

(** [items.forEach(f)] for an effectful [f]. *)
Fixpoint forEach {A} (f : A → M unit) (items : list A) : M unit :=
  match items with
  | [] => ret tt
  | x :: items' => f x;; forEach f items'
  end.

End Heap.

(* ===================================================================== *)
(** ** [Reactive.Component] *)
(* ===================================================================== *)

Module Component.
Import Dom Heap.

(** The methods that only forward to the effect handler. *)
Definition with_sideEffects (h : EffectHandler.t) (c : Component) : Component :=
  {| _state := _state c; _props := _props c; template := template c;
     sideEffects := h; element := element c; events := events c;
     fields := fields c |}.

Definition with_state (s : gmap string JS.value) (c : Component) : Component :=
  {| _state := s; _props := _props c; template := template c;
     sideEffects := sideEffects c; element := element c; events := events c;
     fields := fields c |}.

Definition with_props (p : gmap string JS.value) (c : Component) : Component :=
  {| _state := _state c; _props := p; template := template c;
     sideEffects := sideEffects c; element := element c; events := events c;
     fields := fields c |}.

Definition with_element (el : option Node) (c : Component) : Component :=
  {| _state := _state c; _props := _props c; template := template c;
     sideEffects := sideEffects c; element := el; events := events c;
     fields := fields c |}.

Definition with_events (a : option loc) (c : Component) : Component :=
  {| _state := _state c; _props := _props c; template := template c;
     sideEffects := sideEffects c; element := element c; events := a;
     fields := fields c |}.

Definition with_template (t : option template_fn) (c : Component) : Component :=
  {| _state := _state c; _props := _props c; template := t;
     sideEffects := sideEffects c; element := element c; events := events c;
     fields := fields c |}.

Definition with_fields (f : gmap string JS.value) (c : Component) : Component :=
  {| _state := _state c; _props := _props c; template := template c;
     sideEffects := sideEffects c; element := element c; events := events c;
     fields := f |}.

(** [new Reactive.Component(template, initialState)]. *)
Definition new (template : option template_fn) (initialState : gmap string JS.value)
  : M loc :=
  λ w, let this := fresh (dom (comps w)) in
       (Ok this,
        set_comps (insert this
          {| _state := State._state initialState;
             _props := ∅;
             template := template;
             sideEffects := EffectHandler.create;
             element := None;
             events := None;
             fields := ∅ |}) w).

(** The location of an entry of [this.events]. *)
Definition ref_of (current : JS.value) : loc :=
  match current with VObject l => l | _ => 1%positive end.

(** [current.listener.bind(this)], cached on the entry [current]. *)
Definition bind_this (this : loc) (current listener : JS.value) : M JS.value :=
  match listener with
  | VFunction f => mret (VFunction (Bound this (ref_of current) f))
  | _ => throw (TypeError "current.listener.bind is not a function")
  end.

(** The function [putEvents] calls on each entry [current] of
    [this.events]. *)
Definition putEvents_each (this : loc) (el : option Node) (current : JS.value)
  : M unit :=
  cached ← get_prop current "_listener";
  (if negb (truthy cached)
   then
     selector ← get_prop current "selector";
     wrapper ← (if truthy selector
                then mret (VFunction (Delegated this (ref_of current)))
                else listener ← get_prop current "listener";
                     bind_this this current listener);
     set_prop current "_listener" wrapper
   else mret tt);;
  type ← get_prop current "type";
  cached ← get_prop current "_listener";
  match el with
  | Some n => emit (AddEventListener (uid n) type cached)
  | None => throw (TypeError "Cannot read properties of undefined")
  end.

(** [putEvents(el = this.element)]. *)
Definition putEvents (this : loc) (el : option Node) : M unit :=
  c ← getComp this;
  let el := match el with Some n => Some n | None => element c end in
  match events c with
  | None => mret tt
  | Some a =>
      items ← items_of a;
      forEach (putEvents_each this el) items
  end.

(** [node.component.putEvents(node)]. *)
Definition putEvents_of (node : Node) : M unit :=
  match component node with
  | Some owner => putEvents owner (Some node)
  | None => throw (TypeError "Cannot read properties of undefined")
  end.

(** The DOM primitives the reconciler calls on [into]: each is recorded,
    and [into] after the call is returned. *)
Definition replaceWith (into node : Node) : M unit :=
  emit (ReplaceWith (uid into) (uid node)).

Definition removeChildAt (l : nat) (into child : Node) : M Node :=
  emit (RemoveChild (uid into) (uid child));;
  mret (set_childNodes (delete l (childNodes into)) into).

Definition removeAttribute (into : Node) (name : string) : M Node :=
  emit (RemoveAttribute (uid into) name);;
  mret (set_attributes (Dom.removeAttribute name (attributes into)) into).

Definition appendChild (into child : Node) : M Node :=
  emit (AppendChild (uid into) (uid child));;
  mret (set_childNodes (childNodes into ++ [child]) into).

Definition setAttribute (into : Node) (name val : string) : M Node :=
  emit (SetAttribute (uid into) name val);;
  mret (set_attributes (Dom.setAttribute name val (attributes into)) into).

Definition setValue (into : Node) (val : string) : M Node :=
  emit (SetValue (uid into) val);;
  mret (set_value val into).

Definition cloneNode (val : Node) : M Node :=
  λ w, let '(n, k) := Dom.cloneNode val (clones w) in (Ok n, set_clones k w).

(** A loop that threads the node being patched. *)
Fixpoint foldM {A} (f : Node → A → M Node) (into : Node) (items : list A) : M Node :=
  match items with
  | [] => mret into
  | x :: items' => into' ← f into x; foldM f into' items'
  end.

(** The loop [Array.from(node.childNodes).forEach((val, index) => ...)] of
    [copyNode], which is handed the function to call on a pair of
    children.  The result of that call is left at [index] in
    [into.childNodes]: this is what [replaceWith], or the patch in place,
    does in the DOM. *)
Fixpoint forEachChild (copyNode : Node → Node → M Node)
    (vals : list Node) (index : nat) (into : Node) {struct vals} : M Node :=
  match vals with
  | [] => mret into
  | val :: vals' =>
      into' ←
        match childNodes into !! index with
        | None =>
            child ← (if bool_decide (is_Some (component val))
                     then mret val
                     else cloneNode val);
            appendChild into child
        | Some childInto =>
            r ← copyNode childInto val;
            mret (set_childNodes (<[index := r]> (childNodes into)) into)
        end;
      forEachChild copyNode vals' (S index) into'
  end.

(** [copyNode(into, node)].  The result is the node that stands where
    [into] stood: [into] itself, patched, or [node]. *)
Fixpoint copyNode (into node : Node) {struct node} : M Node :=
  if bool_decide (uid into = uid node) then mret into
  else if bool_decide (tagName into ≠ tagName node)
          || bool_decide (nodeType into = TEXT_NODE)
          || bool_decide (nodeType node = TEXT_NODE)
          || (bool_decide (is_Some (component into))
              && negb (bool_decide (is_Some (component node))))
  then replaceWith into node;; mret node
  else if bool_decide (is_Some (component node))
          && bool_decide (component into ≠ component node)
  then
    replaceWith into node;;
    putEvents_of node;;
    mret node
  else if isEqualNode into node then mret into
  else
    into ← (if bool_decide (length (childNodes node) < length (childNodes into))
            then
              let l := length (childNodes node) in
              foldM (removeChildAt l) into (drop l (childNodes into))
            else mret into);
    into ← foldM removeAttribute into
             (filter (λ name, name ∉ getAttributeNames node)
                     (getAttributeNames into));
    into ← match node with
            | Text _ _ _ => mret into
            | Element _ _ _ _ _ vals => forEachChild copyNode vals 0 into
            end;
    into ← foldM (λ into val,
              into ← setAttribute into val.1 val.2;
              if String.eqb val.1 "value" then setValue into val.2 else mret into)
             into (attributes node);
    mret into.

(** [render()]. *)
Definition render (this : loc) : M unit :=
  c ← getComp this;
  template ← match template c with
             | Some t => mret t
             | None => throw (TypeError "this.template is not a function")
             end;
  n ← gets renders;
  modify (set_renders (S n));;
  let newTemp := set_component (Some this) (template (_state c) (_props c) n) in
  match element c with
  | None =>
      setComp this (with_element (Some (set_component (Some this) newTemp)) c);;
      putEvents this None
  | Some element =>
      if negb (isEqualNode element newTemp)
      then
        node ← copyNode element newTemp;
        setComp this (with_element (Some (set_component (Some this) node)) c);;
        putEvents this None
      else mret tt
  end.

(** [keys.filter((key) => this._state.change(key, newState[key]))]: the
    keys whose [change] answered [true], and the store after all the
    calls. *)
Fixpoint filter_change (keys : list string) (newState : gmap string JS.value)
    (s : gmap string JS.value) : list string * gmap string JS.value :=
  match keys with
  | [] => ([], s)
  | key :: keys' =>
      let '(b, s1) := State.change key (JS.get newState key) s in
      let '(changed, s2) := filter_change keys' newState s1 in
      (if b then key :: changed else changed, s2)
  end.

(** [setState(newState)]; [newState] lists the own properties of the
    argument in the order of [Object.keys]. *)
Definition setState (this : loc) (newState : list (string * JS.value)) : M unit :=
  c ← getComp this;
  let keys := newState.*1 in
  let '(changed, s) := filter_change keys (list_to_map newState) (_state c) in
  setComp this (with_state s c);;
  forEach (λ key, lift_run (EffectHandler.dispatchIgnoreGlobals key (sideEffects c)))
          changed;;
  if bool_decide (0 < length changed)
  then
    lift_run (EffectHandler.dispatchGlobals (Some (ChangedKeys changed))
                (sideEffects c));;
    render this
  else mret tt.

(** [onChangeState(key, action)]. *)
Definition onChangeState (this : loc) (key : string) (action : JS.value) : M unit :=
  c ← getComp this;
  match EffectHandler.add key action (sideEffects c) with
  | Ok h => setComp this (with_sideEffects h c)
  | Throw e => throw e
  end.

(** [onChangeAny(action)]. *)
Definition onChangeAny (this : loc) (action : JS.value) : M unit :=
  c ← getComp this;
  match EffectHandler.addGlobal action (sideEffects c) with
  | Ok h => setComp this (with_sideEffects h c)
  | Throw e => throw e
  end.

(** [offChangeState(key, action = false)]. *)
Definition offChangeState (this : loc) (key : string) (action : option JS.value)
  : M bool :=
  c ← getComp this;
  let '(b, h) := EffectHandler.remove key (Some (default (VBool false) action))
                   (sideEffects c) in
  setComp this (with_sideEffects h c);;
  mret b.

(** [offChangeAny(action = false)]. *)
Definition offChangeAny (this : loc) (action : option JS.value) : M bool :=
  c ← getComp this;
  let '(b, h) := EffectHandler.removeGlobal (Some (default (VBool false) action))
                   (sideEffects c) in
  setComp this (with_sideEffects h c);;
  mret b.

(** [this.events.push(entry)]. *)
Definition push (a : loc) (entry : JS.value) : M unit :=
  items ← items_of a;
  modify (set_cells (insert a (Arr (items ++ [entry])))).

(** [addEventListener(type, listener, selector = null)]. *)
Definition addEventListener (this : loc) (type listener : JS.value)
    (selector : option JS.value) : M unit :=
  let selector := default VNull selector in
  c ← getComp this;
  a ← match events c with
      | Some a => mret a
      | None => a ← alloc (Arr []); setComp this (with_events (Some a) c);; mret a
      end;
  entry ← alloc (Obj (<["type" := type]>
                      (<["listener" := listener]>
                       (<["selector" := selector]> ∅))));
  push a (VObject entry);;
  match element c with
  | Some _ => putEvents this None
  | None => mret tt
  end.

(** [items.findIndex(p)]. *)
Fixpoint findIndex (p : JS.value → M bool) (items : list JS.value)
  : M (option nat) :=
  match items with
  | [] => mret None
  | x :: items' =>
      b ← p x;
      if b : bool then mret (Some 0) else i ← findIndex p items'; mret (S <$> i)
  end.

(** [removeEventListener(type, listener, selector = null)]. *)
Definition removeEventListener (this : loc) (type listener : JS.value)
    (selector : option JS.value) : M unit :=
  let selector := default VNull selector in
  c ← getComp this;
  match events c with
  | None => mret tt
  | Some a =>
      items ← items_of a;
      remove ← findIndex (λ event,
                  t ← get_prop event "type";
                  l ← get_prop event "listener";
                  s ← get_prop event "selector";
                  mret (strict_eq t type && strict_eq l listener
                        && ((negb (truthy s) && negb (truthy selector))
                            || strict_eq s selector))) items;
      match remove with
      | Some i =>
          let event := default VUndefined (items !! i) in
          match element c with
          | Some el =>
              cached ← get_prop event "_listener";
              if truthy cached
              then t ← get_prop event "type";
                   emit (RemoveEventListener (uid el) t cached)
              else mret tt
          | None => mret tt
          end;;
          modify (set_cells (insert a (Arr (splice1 i items))))
      | None => mret tt
      end
  end.

(** [get(props = {})]. *)
Definition get (this : loc) (props : option (gmap string JS.value))
  : M (option Node) :=
  let props := default ∅ props in
  c ← getComp this;
  setComp this (with_props props c);;
  render this;;
  c ← getComp this;
  mret (element c).

(** The getter [props]. *)
Definition props (this : loc) : M (gmap string JS.value) :=
  c ← getComp this;
  mret (_props c).

(** The getter [state]. *)
Definition state (this : loc) : M (gmap string Json.json) :=
  c ← getComp this;
  cells ← gets cells;
  match State.value cells (_state c) with
  | Ok snapshot => mret snapshot
  | Throw e => throw e
  end.

(** The setter [state]. *)
Definition set_state (this : loc) (state : JS.value) : M unit :=
  throw (Error "The state is inmutable").

End Component.

(* ===================================================================== *)
(** ** [Reactive.createComponent] *)
(* ===================================================================== *)

Module CreateComponent.
Import Dom Heap Component.

(** [componentConfig.definitions]: a function, run in the context of the
    new instance, or a mapping of extra fields. *)
Inductive definitions_t :=
| DefFunction (body : loc → M unit)
| DefFields (ex : gmap string JS.value).

(** [componentConfig]; [None] is a missing (or falsy) property. *)
Record ComponentConfig := mkConfig {
  cfg_template : option template_fn;
  cfg_initialState : option (gmap string JS.value);
  cfg_definitions : option definitions_t;
  cfg_events : option loc;
}.

(** The constructor [_Comp] that [createComponent] returns: the four
    constants it closes over. *)
Record _Comp := mkComp {
  template : option template_fn;
  initialState : gmap string JS.value;
  definitions : definitions_t;
  events : loc;
}.

(** [Reactive.createComponent(componentConfig)]. *)
Definition createComponent (componentConfig : ComponentConfig) : M _Comp :=
  events ← match cfg_events componentConfig with
           | Some a => mret a
           | None => alloc (Arr [])
           end;
  mret {| template := cfg_template componentConfig;
          initialState := default ∅ (cfg_initialState componentConfig);
          definitions := default (DefFields ∅) (cfg_definitions componentConfig);
          events := events |}.

(** [e.type && e.listener], as the filter reads it. *)
Definition well_formed (e : JS.value) : M bool :=
  type ← get_prop e "type";
  if truthy type
  then listener ← get_prop e "listener"; mret (truthy listener)
  else mret false.

(** [{ ...e }]: a new object with the own properties of [e]. *)
Definition spread (e : JS.value) : M JS.value :=
  props ← gets (λ w, match e with
                     | VObject l =>
                         match cells w !! l with
                         | Some (Obj props) => props
                         | _ => ∅
                         end
                     | _ => ∅
                     end);
  l ← alloc (Obj props);
  mret (VObject l).

(** [new _Comp()]. *)
Definition construct (k : _Comp) : M loc :=
  this ← Component.new None (initialState k);
  c ← getComp this;
  setComp this (with_template (template k) c);;
  match definitions k with
  | DefFunction body => body this
  | DefFields ex =>
      c ← getComp this;
      setComp this (with_fields (ex ∪ fields c) c)
  end;;
  items ← items_of (events k);
  kept ← filterM well_formed items;
  copies ← mapM spread kept;
  a ← alloc (Arr copies);
  c ← getComp this;
  setComp this (with_events (Some a) c);;
  mret this.

End CreateComponent.

(* ===================================================================== *)
(** ** Vocabulary of the statements *)
(* ===================================================================== *)

Module Spec.
Import Dom Heap Component.

(** [R] relates the world before a run of [m] to the world after it,
    whatever the outcome. *)
Definition respects {A} (R : relation world) (m : M A) : Prop :=
  ∀ w, R w (m w).2.

(** The instances are the same, with the same fields. *)
Definition same_comps : relation world := λ w w', comps w' = comps w.

(** Nothing but the log differs. *)
Definition same_but_log : relation world := λ w w',
  cells w' = cells w ∧ comps w' = comps w ∧ clones w' = clones w
  ∧ renders w' = renders w.

(** The world after the calls [es] have been recorded. *)
Definition logged (es : list event) (w : world) : world :=
  set_log (λ l, l ++ es) w.

(** The functions among the entries of a list of effects. *)
Definition fns_of (l : list JS.value) : list fn :=
  omap (λ v, match v with VFunction f => Some f | _ => None end) l.

(** Every registered effect is a function. *)
Definition all_callable (h : EffectHandler.t) : Prop :=
  map_Forall (λ _ l, Forall (λ v, callable v = true) l) (EffectHandler.al h)
  ∧ Forall (λ v, callable v = true) (EffectHandler.globals h).

(** [key] is a key of the store [s] and [newState[key]] is not [===] to the
    value stored. *)
Definition differs (s newState : gmap string JS.value) (key : string) : bool :=
  match s !! key with
  | Some prev => strict_neq prev (JS.get newState key)
  | None => false
  end.

(** The store after [change(key, newState[key])] for each of [keys]. *)
Definition merged (newState : gmap string JS.value) (keys : list string)
    (s : gmap string JS.value) : gmap string JS.value :=
  foldl (λ s key, (State.change key (JS.get newState key) s).2) s keys.

(** The calls of the per-key effects of [keys], key after key. *)
Definition key_calls (h : EffectHandler.t) (keys : list string) : list event :=
  keys ≫= λ key, CallEffect <$> fns_of (default [] (EffectHandler.al h !! key)).

(** The calls of the global effects, each handed [changed]. *)
Definition global_calls (h : EffectHandler.t) (changed : list string) : list event :=
  (λ f, CallGlobal f (ChangedKeys changed)) <$> fns_of (EffectHandler.globals h).

(** Two stores no [===] tells apart: the same keys, and under each key the
    same value or two values that are [===]. *)
Definition indistinguishable (s s' : gmap string JS.value) : Prop :=
  ∀ key, s !! key = s' !! key
         ∨ ∃ a b, s !! key = Some a ∧ s' !! key = Some b ∧ strict_eq a b = true.

(** The calls of user functions in a log. *)
Definition is_effect_call (e : event) : bool :=
  match e with CallEffect _ | CallGlobal _ _ => true | _ => false end.

Definition effect_calls (l : list event) : list event :=
  filter (λ e, is_effect_call e = true) l.

(** Whenever [m] returns, what it returns satisfies [Q]. *)
Definition returns {A} (m : M A) (Q : A → Prop) : Prop :=
  ∀ w a w', m w = (Ok a, w') → Q a.

(** The first test of [copyNode] that ends in [into.replaceWith(node)]: the
    tags differ, or one of the two is a text node, or [into] has an owner
    and [node] has none. *)
Definition replaced_at_once (into node : Node) : bool :=
  bool_decide (tagName into ≠ tagName node)
  || bool_decide (nodeType into = TEXT_NODE)
  || bool_decide (nodeType node = TEXT_NODE)
  || (bool_decide (is_Some (component into))
      && negb (bool_decide (is_Some (component node)))).

(** The second one: [node] has an owner, which is not the owner of
    [into]. *)
Definition replaced_for_owner (into node : Node) : bool :=
  bool_decide (is_Some (component node))
  && bool_decide (component into ≠ component node).

(** The triggers as the specification lists them: the tags differ, or
    exactly one of the two is a text node, or exactly one of the two has an
    owner. *)
Definition listed_triggers (into node : Node) : bool :=
  bool_decide (tagName into ≠ tagName node)
  || xorb (bool_decide (nodeType into = TEXT_NODE))
          (bool_decide (nodeType node = TEXT_NODE))
  || xorb (bool_decide (is_Some (component into)))
          (bool_decide (is_Some (component node))).

(** [o[name]] as the heap [cells] has it: [undefined] unless [o] is a plain
    object with that property. *)
Definition prop (cells : gmap loc cell) (o : JS.value) (name : string) : JS.value :=
  match o with
  | VObject l =>
      match cells !! l with
      | Some (Obj props) => JS.get props name
      | _ => VUndefined
      end
  | _ => VUndefined
  end.

(** The own properties of [e] that [{ ...e }] copies. *)
Definition props_of (cells : gmap loc cell) (e : JS.value) : gmap string JS.value :=
  match e with
  | VObject l =>
      match cells !! l with
      | Some (Obj props) => props
      | _ => ∅
      end
  | _ => ∅
  end.

(** An entry with a truthy [type] and a truthy [listener]. *)
Definition kept (cells : gmap loc cell) (e : JS.value) : bool :=
  truthy (prop cells e "type") && truthy (prop cells e "listener").

(** The locations of the objects among the items of a list. *)
Definition refs (items : list JS.value) : list loc :=
  omap (λ v, match v with VObject l => Some l | _ => None end) items.

(** The cells behind the list at [a]: the list itself and its entries. *)
Definition footprint (cells : gmap loc cell) (a : loc) : gset loc :=
  {[a]} ∪ match cells !! a with
          | Some (Arr items) => list_to_set (refs items)
          | _ => ∅
          end.

(** The list at [a] read in depth: its items, and the cell of each entry. *)
Definition listing (cells : gmap loc cell) (a : loc)
  : option (list JS.value * list (option cell)) :=
  match cells !! a with
  | Some (Arr items) =>
      Some (items, (λ v, match v with VObject l => cells !! l | _ => None end) <$> items)
  | _ => None
  end.

(** The instance [x] has the array at [ex] for its [events], and the
    entries of the array that are objects are in the heap. *)
Definition has_events (w : world) (x ex : loc) : Prop :=
  ∃ c items,
    comps w !! x = Some c ∧ events c = Some ex
    ∧ cells w !! ex = Some (Arr items)
    ∧ ∀ l, l ∈ refs items → is_Some (cells w !! l).

(** The lists of the instances [a] and [b], at [ea] and [eb], share no cell
    with each other nor with the cells [G], which are in the heap. *)
Definition separate (w : world) (a b ea eb : loc) (G : gset loc) : Prop :=
  has_events w a ea ∧ has_events w b eb
  ∧ footprint (cells w) ea ## footprint (cells w) eb
  ∧ footprint (cells w) ea ## G
  ∧ footprint (cells w) eb ## G
  ∧ ∀ l, l ∈ G → is_Some (cells w !! l).

(** The list of a component kind is an array, and its entries that are
    objects are in the heap. *)
Definition closed_list (cells : gmap loc cell) (a : loc) : Prop :=
  ∃ items, cells !! a = Some (Arr items)
           ∧ Forall (λ v, match v with
                          | VObject l => is_Some (cells !! l)
                          | _ => True
                          end) items.

(** The list of events of the instance [x], at [ex] in [w], is a copy of
    the array that the heap [cells0] has at [config]: a new array of new
    objects, one for each entry of the array at [config] whose [type] and
    [listener] are truthy, in the order of that array and with the
    properties of the entry. *)
Definition copied (cells0 : gmap loc cell) (w : world) (config x ex : loc) : Prop :=
  ∃ c items ls,
    comps w !! x = Some c ∧ events c = Some ex
    ∧ cells0 !! config = Some (Arr items)
    ∧ cells w !! ex = Some (Arr (VObject <$> ls))
    ∧ NoDup (ex :: ls)
    ∧ (∀ l, l ∈ ex :: ls → cells0 !! l = None)
    ∧ Forall2 (λ l e, cells w !! l = Some (Obj (props_of cells0 e)))
        ls (filter (λ e, kept cells0 e = true) items).

(** [l] is an entry of the list of events of some instance. *)
Definition entry_of (w : world) (l : loc) : Prop :=
  ∃ y c ay items,
    comps w !! y = Some c ∧ events c = Some ay
    ∧ cells w !! ay = Some (Arr items) ∧ l ∈ refs items.

(** No cell of [G] is an entry of the list of events of an instance. *)
Definition unlisted (G : gset loc) (w : world) : Prop :=
  ∀ l, entry_of w l → l ∉ G.

(** From [w] to [w']: every instance keeps its list of events; the heap
    has the same cells, with the same arrays; and a cell that is no entry
    of a list of events is as it was.  This is what a run that writes the
    heap through [putEvents] only does. *)
Definition caches_only : relation world := λ w w',
  (∀ y, events <$> (comps w' !! y) = events <$> (comps w !! y))
  ∧ (∀ l, is_Some (cells w' !! l) ↔ is_Some (cells w !! l))
  ∧ (∀ l items, cells w' !! l = Some (Arr items) ↔ cells w !! l = Some (Arr items))
  ∧ (∀ l, ¬ entry_of w l → cells w' !! l = cells w !! l).

(** The same with the cells [L] for the only ones that may be written, and
    the instances as they were. *)
Definition writes_in (L : list loc) : relation world := λ w w',
  comps w' = comps w
  ∧ (∀ l, is_Some (cells w' !! l) ↔ is_Some (cells w !! l))
  ∧ (∀ l items, cells w' !! l = Some (Arr items) ↔ cells w !! l = Some (Arr items))
  ∧ (∀ l, l ∉ L → cells w' !! l = cells w !! l).

(** From [w] to [w'] no array is made, and none but the one at [ex] is
    written. *)
Definition no_new_array (ex : loc) : relation world := λ w w',
  ∀ l items, l ≠ ex → cells w' !! l = Some (Arr items) → cells w !! l = Some (Arr items).

(** The function [putEvents] hands to [el.addEventListener] for the entry
    [current]: the one cached on the entry, or the wrapper it builds. *)
Definition wrapper (cells : gmap loc cell) (this : loc) (current : JS.value) : JS.value :=
  if truthy (prop cells current "_listener") then prop cells current "_listener"
  else if truthy (prop cells current "selector")
  then VFunction (Delegated this (ref_of current))
  else match prop cells current "listener" with
       | VFunction f => VFunction (Bound this (ref_of current) f)
       | _ => VUndefined
       end.

(** The heap after [putEvents] has dealt with the entry [current]: the
    wrapper is cached on the entry when none was. *)
Definition cached_on (this : loc) (cells : gmap loc cell) (current : JS.value)
  : gmap loc cell :=
  if truthy (prop cells current "_listener") then cells
  else match current with
       | VObject l =>
           match cells !! l with
           | Some (Obj props) =>
               <[l := Obj (<["_listener" := wrapper cells this current]> props)]> cells
           | _ => cells
           end
       | _ => cells
       end.

(** The call of [el.addEventListener] that [putEvents] makes for the entry
    [current]. *)
Definition attach (cells : gmap loc cell) (this : loc) (el : Node)
    (current : JS.value) : event :=
  AddEventListener (uid el) (prop cells current "type") (wrapper cells this current).

(** What is asked of a [definitions] function, which is code of the
    caller: it leaves alone the cells and the instances that were there
    before the instance it runs for. *)
Definition definitions_frame (d : CreateComponent.definitions_t) : Prop :=
  match d with
  | CreateComponent.DefFields _ => True
  | CreateComponent.DefFunction body =>
      ∀ this w,
        (∀ l c, cells w !! l = Some c → cells (body this w).2 !! l = Some c)
        ∧ (∀ y c, y ≠ this → comps w !! y = Some c → comps (body this w).2 !! y = Some c)
  end.

(** A [definitions] function that returns, and leaves the instance it
    runs for in place. *)
Definition definitions_return (d : CreateComponent.definitions_t) : Prop :=
  match d with
  | CreateComponent.DefFields _ => True
  | CreateComponent.DefFunction body =>
      ∀ this w, is_Some (comps w !! this) →
                (body this w).1 = Ok tt ∧ is_Some (comps (body this w).2 !! this)
  end.

(** No item of the list is [null] or [undefined], and those that are
    objects are in the heap. *)
Definition entries_ok (cells : gmap loc cell) (items : list JS.value) : Prop :=
  Forall (λ e, match e with
               | VObject l => is_Some (cells !! l)
               | VUndefined | VNull => False
               | _ => True
               end) items.

(** Every instance is still there, with the same keys in its state. *)
Definition state_keys_kept : relation world := λ w w',
  ∀ x c, comps w !! x = Some c →
         ∃ c', comps w' !! x = Some c' ∧ dom (_state c') = dom (_state c).

(** A call of a method of an instance, and a sequence of calls on any
    instances: each runs in the world the one before left, whether it
    returned or threw. *)
Inductive call :=
| SetState (newState : list (string * JS.value))
| Render
| Get (props : option (gmap string JS.value))
| ReadState
| OnChangeState (key : string) (action : JS.value)
| OnChangeAny (action : JS.value)
| OffChangeState (key : string) (action : option JS.value)
| OffChangeAny (action : option JS.value)
| AddListener (type listener : JS.value) (selector : option JS.value)
| RemoveListener (type listener : JS.value) (selector : option JS.value).

Definition perform (target : loc) (c : call) (w : world) : world :=
  match c with
  | SetState newState => (setState target newState w).2
  | Render => (render target w).2
  | Get props => (get target props w).2
  | ReadState => (state target w).2
  | OnChangeState key action => (onChangeState target key action w).2
  | OnChangeAny action => (onChangeAny target action w).2
  | OffChangeState key action => (offChangeState target key action w).2
  | OffChangeAny action => (offChangeAny target action w).2
  | AddListener type listener selector =>
      (addEventListener target type listener selector w).2
  | RemoveListener type listener selector =>
      (removeEventListener target type listener selector w).2
  end.

Definition perform_all (calls : list (loc * call)) (w : world) : world :=
  foldl (λ w tc, perform tc.1 tc.2 w) w calls.

(** The calls of [addEventListener] and [removeEventListener]. *)
Definition is_listener_call (c : call) : Prop :=
  match c with
  | AddListener _ _ _ | RemoveListener _ _ _ => True
  | _ => False
  end.

End Spec.

(* ===================================================================== *)
(** ** Worlds to run the library in *)
(* ===================================================================== *)

Module Scenario.
Import Dom Heap Component.

(** Nothing allocated, nothing logged. *)
Definition empty : world :=
  {| cells := ∅; comps := ∅; clones := 1; renders := 0; log := [] |}.

Definition show (v : JS.value) : string :=
  match v with
  | VNumber (Int 0) => "0"
  | VNumber (Int 1) => "1"
  | VNumber (Int 2) => "2"
  | VString s => s
  | _ => "?"
  end.

(** [<span>{a}</span>], built anew at each call. *)
Definition span : template_fn := λ state props n,
  Element (Made (Pos.of_nat (2 * n + 1))) None "SPAN" [] None
    [Text (Made (Pos.of_nat (2 * n + 2))) None (show (JS.get state "a"))].

(** Two text nodes with the same text, and two more. *)
Definition hi1 : Node := Text (Made 1) None "hi".
Definition hi2 : Node := Text (Made 2) None "hi".
Definition zero1 : Node := Text (Made 3) None "0".
Definition zero2 : Node := Text (Made 4) None "0".

(** Two elements [<p class="x">0</p>], the first one the root of the tree
    of the instance [1]. *)
Definition p1 : Node :=
  Element (Made 5) (Some 1%positive) "P" [("class", "x")] None [zero1].
Definition p2 : Node :=
  Element (Made 6) None "P" [("class", "x")] None [zero2].

(** [<div class="a" id="i"><span>x</span>one<em></em></div>] and
    [<div class="b"><span>x</span>two</div>]. *)
Definition div1 : Node :=
  Element (Made 10) None "DIV" [("class", "a"); ("id", "i")] None
    [Element (Made 11) None "SPAN" [] None [Text (Made 12) None "x"];
     Text (Made 13) None "one";
     Element (Made 14) None "EM" [] None []].
Definition div2 : Node :=
  Element (Made 20) None "DIV" [("class", "b")] None
    [Element (Made 21) None "SPAN" [] None [Text (Made 22) None "x"];
     Text (Made 23) None "two"].

(** The first instance made in [empty]. *)
Definition this : loc := 1%positive.

(** A mounted component with the state [{ a: 0, b: 0 }], the effect
    [User 1] on [a], then the effect [User 2] on [b], and the global effect
    [User 3]. *)
Definition ab : world :=
  ((_ ← Component.new (Some span)
          (<["a" := VNumber (Int 0)]> (<["b" := VNumber (Int 0)]> ∅));
    onChangeState this "a" (VFunction (User 1));;
    onChangeState this "b" (VFunction (User 2));;
    onChangeAny this (VFunction (User 3));;
    get this None) empty).2.

(** A heap with the list of events of a component kind: a handler for
    [click], an entry with an empty [type], an entry without a [type], an
    entry without a [listener], and a delegated handler for [change]. *)
Definition listed : world :=
  {| cells :=
       <[1%positive := Arr [VObject 2; VObject 3; VObject 4; VObject 5; VObject 6]]>
       (<[2%positive := Obj (<["type" := VString "click"]>
                             (<["listener" := VFunction (User 7)]> ∅))]>
       (<[3%positive := Obj (<["type" := VString ""]>
                             (<["listener" := VFunction (User 8)]> ∅))]>
       (<[4%positive := Obj (<["listener" := VFunction (User 9)]> ∅)]>
       (<[5%positive := Obj (<["type" := VString "keyup"]> ∅)]>
       (<[6%positive := Obj (<["type" := VString "change"]>
                             (<["listener" := VFunction (User 10)]>
                              (<["selector" := VString ".x"]> ∅)))]> ∅)))));
     comps := ∅; clones := 1; renders := 0; log := [] |}.

(** The kind made from [{ template: span, events: <the list at 1> }]. *)
Definition kind : CreateComponent._Comp :=
  {| CreateComponent.template := Some span;
     CreateComponent.initialState := ∅;
     CreateComponent.definitions := CreateComponent.DefFields ∅;
     CreateComponent.events := 1%positive |}.

(** Two instances of the kind, made one after the other. *)
Definition one : world := (CreateComponent.construct kind listed).2.
Definition two : world := (CreateComponent.construct kind one).2.

(** The fields of that instance in [ab]. *)
Definition ab_this : Component :=
  {| _state := <["a" := VNumber (Int 0)]> (<["b" := VNumber (Int 0)]> ∅);
     _props := ∅;
     template := Some span;
     sideEffects :=
       {| EffectHandler.al := <["a" := [VFunction (User 1)]]>
                                (<["b" := [VFunction (User 2)]]> ∅);
          EffectHandler.globals := [VFunction (User 3)] |};
     element := Some (Element (Made 1) (Some this) "SPAN" [] None
                        [Text (Made 2) None "0"]);
     events := None;
     fields := ∅ |}.

End Scenario.

(* ===================================================================== *)
(** ** Shapes of DOM trees *)
(* ===================================================================== *)

Module Shape.
Import Dom Heap Component.

(** No element of the tree has two attributes of the same name, as in
    every DOM tree. *)
Fixpoint distinct_attributes (n : Node) : bool :=
  match n with
  | Text _ _ _ => true
  | Element _ _ _ a _ cs => bool_decide (NoDup a.*1) && forallb distinct_attributes cs
  end.

(** The identities of the node objects of a tree. *)
Fixpoint uids (n : Node) : list ident :=
  match n with
  | Text u _ _ => [u]
  | Element u _ _ _ _ cs => u :: flat_map uids cs
  end.

(** Two trees that share no node object. *)
Definition apart (a b : Node) : Prop := ∀ u, u ∈ uids a → u ∉ uids b.

(** The children of two elements are equal one by one. *)
Definition all_equal : list Node → list Node → bool :=
  fix all_equal (l1 l2 : list Node) {struct l1} : bool :=
    match l1, l2 with
    | [], [] => true
    | x :: l1', y :: l2' => isEqualNode x y && all_equal l1' l2'
    | _, _ => false
    end.

(** The clones of a list of children, as [cloneNode] makes them. *)
Definition clone_all : list Node → positive → list Node * positive :=
  fix clone_all (l : list Node) (k : positive) {struct l} : list Node * positive :=
    match l with
    | [] => ([], k)
    | x :: l' =>
        let '(x', k1) := Dom.cloneNode x k in
        let '(l'', k2) := clone_all l' k1 in
        (x' :: l'', k2)
    end.

(** [r] is equal to [val] for [isEqualNode], and well formed. *)
Definition stands_for (r val : Node) : Prop :=
  isEqualNode r val = true ∧ distinct_attributes r = true.

(** No node of the tree is the root of a component. *)
Fixpoint unowned (n : Node) : bool :=
  match n with
  | Text _ c _ => bool_decide (c = None)
  | Element _ c _ _ _ cs => bool_decide (c = None) && forallb unowned cs
  end.

(** [node] brings no component of its own: below its root no node has an
    owner, and the root has none or the one of [into]. *)
Definition brings_no_owner (into node : Node) : Prop :=
  (component node = None ∨ component node = component into)
  ∧ Forall (λ val, unowned val = true) (childNodes node).

(** [m] returns, in every world. *)
Definition never_throws {A} (m : M A) : Prop := ∀ w, ∃ a w', m w = (Ok a, w').

End Shape.

(* ===================================================================== *)
(** ** Vocabulary of the further properties *)
(* ===================================================================== *)

Module Inv.
Import Dom Heap Component Spec.

(** Every effect registered on an instance is a function. *)
Definition effects_callable (w : world) : Prop :=
  ∀ x c, comps w !! x = Some c → all_callable (sideEffects c).

(** A call that registers an effect registers a function. *)
Definition registers_function (c : call) : Prop :=
  match c with
  | OnChangeState _ action | OnChangeAny action => callable action = true
  | _ => True
  end.

(** The effects registered on [t] after a call on [t], read off the call. *)
Definition effects_after (call : call) (h : EffectHandler.t) : EffectHandler.t :=
  match call with
  | OnChangeState key action =>
      match EffectHandler.add key action h with Ok h' => h' | Throw _ => h end
  | OnChangeAny action =>
      match EffectHandler.addGlobal action h with Ok h' => h' | Throw _ => h end
  | OffChangeState key action =>
      (EffectHandler.remove key (Some (default (VBool false) action)) h).2
  | OffChangeAny action =>
      (EffectHandler.removeGlobal (Some (default (VBool false) action)) h).2
  | _ => h
  end.

(** What [JSON.parse(JSON.stringify(_))] makes of a value that is no
    object: nothing of [undefined] and of a function, [null] of [NaN], [0]
    of the negative zero. *)
Definition plain (v : JS.value) : option Json.json :=
  match v with
  | VUndefined | VFunction _ | VObject _ => None
  | VNull | VNumber NaN => Some Json.JNull
  | VBool b => Some (Json.JBool b)
  | VNumber NegZero => Some (Json.JNumber 0)
  | VNumber (Int z) => Some (Json.JNumber z)
  | VString s => Some (Json.JString s)
  end.

(** The call [el.addEventListener(current.type, current._listener)] as the
    heap [cells] has the entry [current]. *)
Definition reattach (cells : gmap loc cell) (el : Node) (current : JS.value) : event :=
  AddEventListener (uid el) (prop cells current "type") (prop cells current "_listener").

(** The test of [removeEventListener] on the entry [event]. *)
Definition matches (cells : gmap loc cell) (type listener selector event : JS.value)
  : bool :=
  strict_eq (prop cells event "type") type
  && strict_eq (prop cells event "listener") listener
  && ((negb (truthy (prop cells event "selector")) && negb (truthy selector))
      || strict_eq (prop cells event "selector") selector).

(** The index of the first item that passes a test. *)
Fixpoint first_index {A} (p : A → bool) (items : list A) : option nat :=
  match items with
  | [] => None
  | x :: items' => if p x then Some 0 else S <$> first_index p items'
  end.

End Inv.

(* ===================================================================== *)
(** ** More worlds to run the library in *)
(* ===================================================================== *)

Module Cases.
Import Dom Heap Component.

(** [ab] after [onChangeState("a", 42)]: the number is registered after the
    effect [User 1]. *)
Definition poisoned : world :=
  (onChangeState Scenario.this "a" (VNumber (Int 42)) Scenario.ab).2.

(** A mounted component whose state holds [NaN] under [n]. *)
Definition nan : world :=
  ((_ ← Component.new (Some Scenario.span) (<["n" := VNumber NaN]> ∅);
    onChangeState Scenario.this "n" (VFunction (User 1));;
    get Scenario.this None) Scenario.empty).2.

(** The fields of that instance in [nan]. *)
Definition nan_this : Component :=
  {| _state := <["n" := VNumber NaN]> ∅;
     _props := ∅;
     template := Some Scenario.span;
     sideEffects :=
       {| EffectHandler.al := <["n" := [VFunction (User 1)]]> ∅;
          EffectHandler.globals := [] |};
     element := Some (Element (Made 1) (Some Scenario.this) "SPAN" [] None
                        [Text (Made 2) None "?"]);
     events := None;
     fields := ∅ |}.

(** [ab] once the state has changed under [a] and before the view has
    followed: the tree still shows [0]. *)
Definition stale_this : Component :=
  with_state (<["a" := VNumber (Int 1)]> (_state Scenario.ab_this)) Scenario.ab_this.
Definition stale : world :=
  set_comps (insert Scenario.this stale_this) Scenario.ab.

(** The first instance of [Scenario.kind], mounted by [get()]. *)
Definition mounted : world := (get 1%positive None Scenario.one).2.

(** The configuration [{}]. *)
Definition bare : CreateComponent.ComponentConfig :=
  {| CreateComponent.cfg_template := None;
     CreateComponent.cfg_initialState := None;
     CreateComponent.cfg_definitions := None;
     CreateComponent.cfg_events := None |}.

End Cases.


(* ===================================================================== *)
(** * Properties *)
(* ===================================================================== *)

Import Dom Heap Component Spec.

(** ** JavaScript values *)

Section js_facts.
Implicit Types (a b x : JS.value) (l : list JS.value).

Lemma strict_eq_refl_or_zero a b :
  strict_eq a b = true →
  a = b
  ∨ (a = VNumber NegZero ∧ b = VNumber (Int 0))
  ∨ (a = VNumber (Int 0) ∧ b = VNumber NegZero).
Proof.
  destruct a as [| |?|[| |[]]|?|?|?], b as [| |?|[| |[]]|?|?|?]; cbn;
    intros H; try discriminate; try (apply bool_decide_eq_true in H); auto.
Qed.

Lemma strict_eq_object (p q : loc) :
  strict_eq (VObject p) (VObject q) = bool_decide (p = q).
Proof.
  cbn. apply bool_decide_ext. split; congruence.
Qed.

Lemma strict_eq_function f g :
  strict_eq (VFunction f) (VFunction g) = bool_decide (f = g).
Proof.
  cbn. apply bool_decide_ext. split; congruence.
Qed.

Lemma not_is_never_a_function a : instanceof_Function (JS.not a) = false.
Proof. reflexivity. Qed.

Lemma indexOf_None l x :
  indexOf l x = None ↔ Forall (λ y, strict_eq y x = false) l.
Proof.
  induction l as [|y l IH]; cbn.
  - split; auto.
  - destruct (strict_eq y x) eqn:E.
    + split; [discriminate|]. intros H. apply Forall_cons in H as [H _]. congruence.
    + rewrite fmap_None, IH. split; [by constructor|]. by intros [_ ?]%Forall_cons.
Qed.

Lemma indexOf_Some l x i :
  indexOf l x = Some i →
  ∃ l1 y l2, l = l1 ++ y :: l2 ∧ length l1 = i ∧ strict_eq y x = true
             ∧ Forall (λ z, strict_eq z x = false) l1.
Proof.
  revert i. induction l as [|y l IH]; cbn; intros i H; [discriminate|].
  destruct (strict_eq y x) eqn:E.
  - injection H as <-. exists [], y, l. auto.
  - apply fmap_Some in H as (j & Hj & ->).
    destruct (IH j Hj) as (l1 & z & l2 & -> & <- & Hz & Hl1).
    exists (y :: l1), z, l2. repeat split; auto.
Qed.

Lemma splice1_middle {A} (l1 l2 : list A) y :
  splice1 (length l1) (l1 ++ y :: l2) = l1 ++ l2.
Proof.
  unfold splice1. rewrite take_app_length.
  replace (S (length l1)) with (length (l1 ++ [y])) by (rewrite length_app; cbn; lia).
  by rewrite (cons_middle y l1 l2), (assoc_L (++)), drop_app_length.
Qed.

End js_facts.

(** ** The effect handler *)

Section effect_handler_facts.
Import EffectHandler.

(** Neither [add] nor [addGlobal] ever takes its [throw] branch. *)
Lemma add_appends key action h :
  add key action h
  = Ok {| al := <[key := default [] (al h !! key) ++ [action]]> (al h);
          globals := globals h |}.
Proof.
  unfold add. rewrite not_is_never_a_function.
  destruct (al h !! key) as [l|] eqn:E; cbn.
  - by rewrite E.
  - by rewrite lookup_insert_eq, insert_insert_eq.
Qed.

Lemma addGlobal_appends action h :
  addGlobal action h = Ok {| al := al h; globals := globals h ++ [action] |}.
Proof. reflexivity. Qed.

End effect_handler_facts.

(** C1 (as the code has it): a value that is not callable is not refused.
    [add("k", 42)] and [addGlobal(42)] on a new handler return normally and
    leave the number [42] in the list of the key and in the global list. *)
Theorem C1_add_keeps_non_callable :
  callable (VNumber (Int 42)) = false
  ∧ EffectHandler.add "k" (VNumber (Int 42)) EffectHandler.create
    = Ok {| EffectHandler.al := {["k" := [VNumber (Int 42)]]};
            EffectHandler.globals := [] |}
  ∧ EffectHandler.addGlobal (VNumber (Int 42)) EffectHandler.create
    = Ok {| EffectHandler.al := ∅;
            EffectHandler.globals := [VNumber (Int 42)] |}.
Proof.
  split; [reflexivity|]. split.
  - rewrite add_appends. reflexivity.
  - apply addGlobal_appends.
Qed.

(** C8: [remove(key)] without an action empties the list of a known key and
    answers [true], also when the list was empty already; on an unknown key
    [remove] answers [false] and changes nothing; with an action (any truthy
    value, so any function) it takes out the first entry that is [===] to the
    action and no other, and answers whether there was one. *)
Theorem C8_remove key h :
  (∀ l, EffectHandler.al h !! key = Some l →
        EffectHandler.remove key None h
        = (true, {| EffectHandler.al := <[key := []]> (EffectHandler.al h);
                    EffectHandler.globals := EffectHandler.globals h |}))
  ∧ (EffectHandler.al h !! key = None →
     ∀ action, EffectHandler.remove key action h = (false, h))
  ∧ (∀ l action,
       EffectHandler.al h !! key = Some l →
       truthy action = true →
       (Forall (λ y, strict_eq y action = false) l →
        EffectHandler.remove key (Some action) h = (false, h))
       ∧ (Exists (λ y, strict_eq y action = true) l →
          ∃ l1 y l2,
            l = l1 ++ y :: l2
            ∧ strict_eq y action = true
            ∧ Forall (λ z, strict_eq z action = false) l1
            ∧ EffectHandler.remove key (Some action) h
              = (true, {| EffectHandler.al := <[key := l1 ++ l2]> (EffectHandler.al h);
                          EffectHandler.globals := EffectHandler.globals h |}))).
Proof.
  unfold EffectHandler.remove. split; [|split].
  - intros l ->. reflexivity.
  - intros -> action. reflexivity.
  - intros l action Hl Htruthy. rewrite Hl. cbn. rewrite Htruthy. cbn. split.
    { intros Hnone. apply indexOf_None in Hnone. by rewrite Hnone. }
    intros Hex.
    destruct (indexOf l action) as [i|] eqn:E.
    + destruct (indexOf_Some _ _ _ E) as (l1 & y & l2 & -> & <- & Hy & Hl1).
      exists l1, y, l2. repeat split; auto. by rewrite splice1_middle.
    + apply indexOf_None in E. apply Exists_exists in Hex as (y & Hin & Hy).
      rewrite Forall_forall in E. specialize (E y Hin). congruence.
Qed.

(** ** The state store *)

Section state_facts.
Implicit Types (s : gmap string JS.value) (key : string) (val prev : JS.value).

Lemma roundtrip_strict_eq fuel cells a b :
  strict_eq a b = true → Json.roundtrip fuel cells a = Json.roundtrip fuel cells b.
Proof.
  intros [->|[[-> ->]|[-> ->]]]%strict_eq_refl_or_zero; [done| |]; by destruct fuel.
Qed.

Lemma value_insert_strict_eq cells s key prev val :
  s !! key = Some prev → strict_eq prev val = true →
  State.value cells (<[key := val]> s) = State.value cells s.
Proof.
  intros Hs Heq. unfold State.value.
  rewrite fmap_insert, <-(roundtrip_strict_eq _ _ _ _ Heq), insert_id; [done|].
  by rewrite lookup_fmap, Hs.
Qed.

Lemma change_absent key val s :
  s !! key = None → State.change key val s = (false, s).
Proof. unfold State.change. by intros ->. Qed.

Lemma change_present key val prev s :
  s !! key = Some prev →
  State.change key val s = (strict_neq prev val, <[key := val]> s).
Proof. unfold State.change. by intros ->. Qed.

Lemma change_dom key val s : dom (State.change key val s).2 = dom s.
Proof.
  unfold State.change. destruct (s !! key) as [prev|] eqn:E; cbn; [|done].
  apply dom_insert_lookup_L. by rewrite E.
Qed.

Lemma insert_indistinguishable key val prev s :
  s !! key = Some prev → strict_eq prev val = true →
  indistinguishable s (<[key := val]> s).
Proof.
  intros Hs Heq k. destruct (decide (k = key)) as [->|Hne].
  - right. exists prev, val. by rewrite lookup_insert_eq.
  - left. by rewrite lookup_insert_ne.
Qed.

End state_facts.

(** C5: [change(key, value)] on a key the store lacks answers [false] and
    leaves the store as it is.  On a key of the store it compares the stored
    value and the new one with [===], which on objects compares the
    references and never the contents; when they differ the new value is
    stored and the answer is [true]; when they are [===] the answer is
    [false] and the store is the same to every observer: the same keys, under
    each key a value [===] to the one before, and the same snapshot. *)
Theorem C5_change key val s :
  (s !! key = None → State.change key val s = (false, s))
  ∧ (∀ prev, s !! key = Some prev → strict_eq prev val = false →
       State.change key val s = (true, <[key := val]> s))
  ∧ (∀ prev, s !! key = Some prev → strict_eq prev val = true →
       (State.change key val s).1 = false
       ∧ dom (State.change key val s).2 = dom s
       ∧ indistinguishable s (State.change key val s).2
       ∧ ∀ cells, State.value cells (State.change key val s).2 = State.value cells s)
  ∧ (∀ p q : loc, strict_eq (VObject p) (VObject q) = bool_decide (p = q)).
Proof.
  split; [apply change_absent|]. split; [|split; [|apply strict_eq_object]].
  - intros prev Hs Hne. rewrite (change_present _ _ _ _ Hs).
    unfold strict_neq. by rewrite Hne.
  - intros prev Hs Heq. rewrite (change_present _ _ _ _ Hs). cbn.
    unfold strict_neq. rewrite Heq. split; [done|]. split; [|split].
    + apply dom_insert_lookup_L. by rewrite Hs.
    + by apply insert_indistinguishable with prev.
    + intros cells. by apply value_insert_strict_eq with prev.
Qed.

(** The store [{ n: 0, o: <object 7> }]: storing the negative zero under [n]
    is no change, storing another object under [o] is one. *)
Lemma C5_change_witness :
  (State.change "n" (VNumber NegZero)
     (<["n" := VNumber (Int 0)]> (<["o" := VObject 7]> ∅))).1 = false
  ∧ State.change "o" (VObject 8) (<["n" := VNumber (Int 0)]> (<["o" := VObject 7]> ∅))
    = (true, <["o" := VObject 8]> (<["n" := VNumber (Int 0)]> (<["o" := VObject 7]> ∅)))
  ∧ State.change "x" VNull (<["n" := VNumber (Int 0)]> (<["o" := VObject 7]> ∅))
    = (false, <["n" := VNumber (Int 0)]> (<["o" := VObject 7]> ∅)).
Proof.
  pose proof (C5_change "n" (VNumber NegZero)
                (<["n" := VNumber (Int 0)]> (<["o" := VObject 7]> ∅))) as Hn.
  pose proof (C5_change "o" (VObject 8)
                (<["n" := VNumber (Int 0)]> (<["o" := VObject 7]> ∅))) as Ho.
  pose proof (C5_change "x" VNull
                (<["n" := VNumber (Int 0)]> (<["o" := VObject 7]> ∅))) as Hx.
  split; [|split].
  - apply (proj1 (proj2 (proj2 Hn)) (VNumber (Int 0))); reflexivity.
  - apply (proj1 (proj2 Ho) (VObject 7)); reflexivity.
  - apply (proj1 Hx). reflexivity.
Defined.

(** ** Runs in the monad *)

Section monad_facts.
Context {A B : Type}.

Lemma bind_run (m : M A) (k : A → M B) w :
  (m ≫= k) w = match m w with
               | (Ok a, w') => k a w'
               | (Throw e, w') => (Throw e, w')
               end.
Proof. reflexivity. Qed.

Lemma bind_run_ok (m : M A) (k : A → M B) w a w' :
  m w = (Ok a, w') → (m ≫= k) w = k a w'.
Proof. intros H. by rewrite bind_run, H. Qed.

Lemma bind_run_throw (m : M A) (k : A → M B) w e w' :
  m w = (Throw e, w') → (m ≫= k) w = (Throw e, w').
Proof. intros H. by rewrite bind_run, H. Qed.

End monad_facts.

Lemma getComp_run this w c : comps w !! this = Some c → getComp this w = (Ok c, w).
Proof. unfold getComp. by intros ->. Qed.

Lemma logged_nil w : logged [] w = w.
Proof. destruct w. unfold logged, set_log; cbn. by rewrite app_nil_r. Qed.

Lemma logged_app es1 es2 w : logged es2 (logged es1 w) = logged (es1 ++ es2) w.
Proof. unfold logged, set_log; cbn. by rewrite (assoc_L (++)). Qed.

Lemma emit_run e w : emit e w = (Ok tt, logged [e] w).
Proof. reflexivity. Qed.

Lemma lift_run_ok calls w : lift_run (calls, None) w = (Ok tt, logged calls w).
Proof. reflexivity. Qed.

Lemma lift_run_throw calls e w : lift_run (calls, Some e) w = (Throw e, logged calls w).
Proof. reflexivity. Qed.

(** ** Dispatch *)

Section dispatch_facts.
Import EffectHandler.

Lemma forEach_call_callable mkcall fs :
  Forall (λ v, callable v = true) fs →
  forEach_call mkcall fs = (mkcall <$> fns_of fs, None).
Proof.
  induction 1 as [|v fs Hv _ IH]; [done|].
  destruct v; try discriminate. cbn. by rewrite IH.
Qed.

Lemma dispatchIgnoreGlobals_callable key h :
  all_callable h →
  dispatchIgnoreGlobals key h = (CallEffect <$> fns_of (default [] (al h !! key)), None).
Proof.
  intros [Hal _]. unfold dispatchIgnoreGlobals.
  destruct (al h !! key) as [l|] eqn:E; [|done].
  apply forEach_call_callable. by apply (Hal key).
Qed.

Lemma dispatchGlobals_callable changed h :
  all_callable h →
  dispatchGlobals (Some (ChangedKeys changed)) h = (global_calls h changed, None).
Proof. intros [_ Hg]. by apply forEach_call_callable. Qed.

Lemma forEach_dispatch_callable h keys w :
  all_callable h →
  forEach (λ key, lift_run (dispatchIgnoreGlobals key h)) keys w
  = (Ok tt, logged (key_calls h keys) w).
Proof.
  intros Hh. revert w. induction keys as [|key keys IH]; intros w.
  - cbn. by rewrite logged_nil.
  - cbn [forEach]. rewrite bind_run, (dispatchIgnoreGlobals_callable _ _ Hh), lift_run_ok.
    by rewrite IH, logged_app.
Qed.

End dispatch_facts.

(** ** [setState] *)

Section setState_facts.
Implicit Types (s ns : gmap string JS.value) (keys changed : list string).

Lemma change_lookup_ne key k val s :
  k ≠ key → (State.change key val s).2 !! k = s !! k.
Proof.
  intros Hne. unfold State.change. destruct (s !! key); cbn; [|done].
  by rewrite lookup_insert_ne.
Qed.

Lemma filter_differs_ext s s' ns keys :
  (∀ k, k ∈ keys → s' !! k = s !! k) →
  filter (λ k, differs s' ns k = true) keys = filter (λ k, differs s ns k = true) keys.
Proof.
  induction keys as [|k keys IH]; intros H; [done|].
  assert (Hk : differs s' ns k = differs s ns k).
  { unfold differs. rewrite (H k); [done|]. by left. }
  rewrite !filter_cons, Hk, IH; [done|]. intros k' Hk'. apply H. by right.
Qed.

Lemma filter_change_spec keys ns s :
  NoDup keys →
  filter_change keys ns s
  = (filter (λ key, differs s ns key = true) keys, merged ns keys s).
Proof.
  intros Hnd. revert s. induction Hnd as [|key keys Hnotin _ IH]; intros s; [done|].
  cbn [filter_change merged foldl].
  destruct (State.change key (JS.get ns key) s) as [b s1] eqn:E.
  rewrite IH. f_equal.
  rewrite filter_cons.
  assert (Hs1 : s1 = (State.change key (JS.get ns key) s).2) by by rewrite E.
  rewrite (filter_differs_ext s s1).
  - assert (Hb : b = differs s ns key); [|rewrite Hb; by destruct (differs s ns key)].
    unfold differs. unfold State.change in E. destruct (s !! key); by inversion E.
  - intros k Hk. rewrite Hs1. apply change_lookup_ne. intros ->. done.
Qed.

Lemma merged_dom ns keys s : dom (merged ns keys s) = dom s.
Proof.
  revert s. induction keys as [|key keys IH]; intros s; [done|].
  cbn. unfold merged in IH. by rewrite IH, change_dom.
Qed.

Lemma filter_change_dom keys ns s : dom (filter_change keys ns s).2 = dom s.
Proof.
  revert s. induction keys as [|key keys IH]; intros s; [done|].
  cbn [filter_change].
  destruct (State.change key (JS.get ns key) s) as [b s1] eqn:E.
  specialize (IH s1). destruct (filter_change keys ns s1) as [changed s2]. cbn in *.
  rewrite IH. replace s1 with (State.change key (JS.get ns key) s).2 by by rewrite E.
  apply change_dom.
Qed.

(** What [setState] does when every registered effect is a function. *)
Lemma setState_run this newState w c :
  comps w !! this = Some c →
  NoDup newState.*1 →
  all_callable (sideEffects c) →
  let ns : gmap string JS.value := list_to_map newState in
  let changed := filter (λ key, differs (_state c) ns key = true) newState.*1 in
  let w1 := logged (key_calls (sideEffects c) changed)
              (set_comps (insert this (with_state (merged ns newState.*1 (_state c)) c)) w) in
  setState this newState w
  = if decide (changed = [])
    then (Ok tt, w1)
    else render this (logged (global_calls (sideEffects c) changed) w1).
Proof.
  intros Hc Hnd Hh ns changed w1. unfold setState.
  rewrite (bind_run_ok _ _ _ _ _ (getComp_run _ _ _ Hc)).
  rewrite (filter_change_spec _ _ _ Hnd). fold ns changed.
  rewrite bind_run. unfold setComp at 1, modify at 1.
  rewrite bind_run, (forEach_dispatch_callable _ _ _ Hh). fold w1.
  destruct changed as [|key changed'] eqn:Echanged.
  - rewrite decide_True by done. done.
  - rewrite decide_False by done. rewrite bool_decide_true by (cbn; lia).
    by rewrite bind_run, (dispatchGlobals_callable _ _ Hh), lift_run_ok.
Qed.

End setState_facts.

(** ** Relations every step of a run respects *)

Create HintDb respects discriminated.

Section respects_facts.
Context (R : relation world) `{!PreOrder R}.

Lemma respects_ret {A} (a : A) : respects R (mret a).
Proof. intros w. reflexivity. Qed.

Lemma respects_throw {A} e : respects R (@throw A e).
Proof. intros w. reflexivity. Qed.

Lemma respects_gets {A} (f : world → A) : respects R (gets f).
Proof. intros w. reflexivity. Qed.

Lemma respects_getComp this : respects R (getComp this).
Proof. intros w. unfold getComp. destruct (comps w !! this); reflexivity. Qed.

Lemma respects_items_of a : respects R (items_of a).
Proof. intros w. unfold items_of. by repeat case_match. Qed.

Lemma respects_get_prop o name : respects R (get_prop o name).
Proof. intros w. unfold get_prop. by repeat case_match. Qed.

Lemma respects_bind {A B} (m : M A) (k : A → M B) :
  respects R m → (∀ a, respects R (k a)) → respects R (m ≫= k).
Proof.
  intros Hm Hk w. rewrite bind_run. specialize (Hm w).
  destruct (m w) as [[a|e] w']; cbn in *; [|done].
  etrans; [exact Hm|apply Hk].
Qed.

Lemma respects_forEach {A} (f : A → M unit) items :
  (∀ x, respects R (f x)) → respects R (forEach f items).
Proof.
  intros Hf. induction items as [|x items IH]; cbn [forEach].
  - apply respects_ret.
  - apply respects_bind; auto.
Qed.

Lemma respects_foldM {A} (f : Node → A → M Node) into items :
  (∀ n x, respects R (f n x)) → respects R (foldM f into items).
Proof.
  intros Hf. revert into. induction items as [|x items IH]; intros into; cbn [foldM].
  - apply respects_ret.
  - apply respects_bind; auto.
Qed.

Lemma respects_filterM {A} (p : A → M bool) items :
  (∀ x, respects R (p x)) → respects R (filterM p items).
Proof.
  intros Hp. induction items as [|x items IH]; cbn [filterM].
  - apply respects_ret.
  - apply respects_bind; [auto|intros b]. apply respects_bind; [auto|intros kept].
    apply respects_ret.
Qed.

Lemma respects_mapM {A B} (f : A → M B) items :
  (∀ x, respects R (f x)) → respects R (mapM f items).
Proof.
  intros Hf. induction items as [|x items IH]; cbn [mapM].
  - apply respects_ret.
  - apply respects_bind; [auto|intros y]. apply respects_bind; [auto|intros ys].
    apply respects_ret.
Qed.

Lemma respects_findIndex (p : JS.value → M bool) items :
  (∀ x, respects R (p x)) → respects R (findIndex p items).
Proof.
  intros Hp. induction items as [|x items IH]; cbn [findIndex].
  - apply respects_ret.
  - apply respects_bind; [auto|intros [|]]; [apply respects_ret|].
    apply respects_bind; [auto|intros i]. apply respects_ret.
Qed.

End respects_facts.

#[global] Hint Resolve respects_ret respects_throw respects_gets respects_getComp
  respects_items_of respects_get_prop : respects.
#[global] Hint Extern 0 (PreOrder _) => typeclasses eauto : respects.

(** Walk down a definition written in the monad. *)
Ltac respects_step :=
  lazymatch goal with
  | |- respects _ (_ ≫= _) => apply respects_bind; [try typeclasses eauto| |intros ?]
  | |- respects _ (forEach _ _) => apply respects_forEach; [try typeclasses eauto|intros ?]
  | |- respects _ (foldM _ _ _) => apply respects_foldM; [try typeclasses eauto|intros ? ?]
  | |- respects _ (filterM _ _) => apply respects_filterM; [try typeclasses eauto|intros ?]
  | |- respects _ (mapM _ _) => apply respects_mapM; [try typeclasses eauto|intros ?]
  | |- respects _ (findIndex _ _) => apply respects_findIndex; [try typeclasses eauto|intros ?]
  | |- respects _ (match ?x with _ => _ end) => destruct x
  | |- respects _ (let _ := _ in _) => cbv zeta
  end.
Ltac respects_tac := repeat first [solve [auto with respects] | respects_step].

(** An induction principle that reaches the children of an element. *)
Lemma Node_ind' (P : Node → Prop) :
  (∀ u c d, P (Text u c d)) →
  (∀ u c t a v cs, Forall P cs → P (Element u c t a v cs)) →
  ∀ n, P n.
Proof.
  intros HT HE. fix IH 1. intros [u c d|u c t a v cs]; [apply HT|].
  apply HE. induction cs as [|n cs IHcs]; constructor; [apply IH|apply IHcs].
Qed.

(** ** The reconciler and [putEvents] leave the instances alone *)

Section same_comps_facts.

#[local] Instance same_comps_preorder : PreOrder same_comps.
Proof. unfold same_comps. split; [done|]. intros x y z Hxy Hyz. congruence. Qed.

Lemma same_comps_emit e : respects same_comps (emit e).
Proof. done. Qed.

Lemma same_comps_alloc c : respects same_comps (alloc c).
Proof. done. Qed.

Lemma same_comps_set_prop o name v : respects same_comps (set_prop o name v).
Proof. intros w. unfold set_prop. by repeat case_match. Qed.

Lemma same_comps_cloneNode n : respects same_comps (cloneNode n).
Proof. intros w. unfold cloneNode. by destruct (Dom.cloneNode n (clones w)). Qed.

Lemma same_comps_bind_this this current listener :
  respects same_comps (bind_this this current listener).
Proof. unfold bind_this. respects_tac. Qed.

Hint Resolve same_comps_emit same_comps_alloc same_comps_set_prop same_comps_cloneNode
  same_comps_bind_this : respects.

Lemma same_comps_putEvents this el : respects same_comps (putEvents this el).
Proof. unfold putEvents, putEvents_each. respects_tac. Qed.

End same_comps_facts.

Section copyNode_respects.
Context (R : relation world) `{!PreOrder R}.
Context (R_emit : ∀ e, respects R (emit e)).
Context (R_cloneNode : ∀ n, respects R (cloneNode n)).
Context (R_putEvents_of : ∀ n, respects R (putEvents_of n)).

Lemma respects_forEachChild rec vals index into :
  Forall (λ val, ∀ into, respects R (rec into val)) vals →
  respects R (forEachChild rec vals index into).
Proof using R_emit R_cloneNode PreOrder0.
  intros Hrec. revert index into.
  induction Hrec as [|val vals Hval _ IH]; intros index into; cbn [forEachChild].
  - apply respects_ret; apply _.
  - unfold appendChild. respects_tac.
Qed.

Lemma respects_copyNode node : ∀ into, respects R (copyNode into node).
Proof using R_emit R_cloneNode R_putEvents_of PreOrder0.
  induction node as [u c d|u c t a v cs IH] using Node_ind'; intros into;
    cbn [copyNode];
    unfold replaceWith, removeChildAt, removeAttribute, setAttribute, setValue.
  - respects_tac.
  - respects_tac. by apply respects_forEachChild.
Qed.

End copyNode_respects.

(** Run the first steps of a definition written in the monad. *)
Ltac mrun_in E :=
  repeat first
    [ rewrite bind_run in E
    | progress cbn [mret M_ret Store.ret gets modify throw setComp] in E ].
Ltac mrun :=
  repeat first
    [ rewrite bind_run
    | progress cbn [mret M_ret Store.ret gets modify throw setComp] ].

Section same_comps_methods.

#[local] Existing Instance same_comps_preorder.

Lemma same_comps_putEvents_of n : respects same_comps (putEvents_of n).
Proof. unfold putEvents_of. destruct (component n); [apply same_comps_putEvents|done]. Qed.

Lemma same_comps_copyNode into node : respects same_comps (copyNode into node).
Proof.
  apply respects_copyNode; [apply _|apply same_comps_emit|apply same_comps_cloneNode
                           |apply same_comps_putEvents_of].
Qed.

(** [render] writes no field of an instance but [this.element]. *)
Lemma render_comps this w :
  comps (render this w).2 = comps w
  ∨ ∃ c el, comps w !! this = Some c
            ∧ comps (render this w).2 = <[this := with_element el c]> (comps w).
Proof.
  destruct (render this w) as [r w'] eqn:E. cbn [snd].
  unfold render in E. rewrite bind_run in E. unfold getComp at 1 in E.
  destruct (comps w !! this) as [c|] eqn:Hc; [|left; by inversion E].
  destruct (template c) as [t|]; [|left; by inversion E].
  mrun_in E.
  set (w1 := set_renders _ w) in E.
  set (newTemp := set_component _ _) in E.
  destruct (element c) as [el|].
  - destruct (isEqualNode el newTemp); cbn [negb] in E; [left; by inversion E|].
    rewrite bind_run in E.
    pose proof (same_comps_copyNode el newTemp w1) as Hcopy.
    destruct (copyNode el newTemp w1) as [[node|e] w2]; cbn in Hcopy;
      [|left; injection E as _ <-; exact Hcopy].
    mrun_in E.
    pose proof (same_comps_putEvents this None
                  (set_comps (insert this
                     (with_element (Some (set_component (Some this) node)) c)) w2)) as Hput.
    rewrite E in Hput. unfold same_comps in Hput, Hcopy. cbn in Hput, Hcopy.
    right. exists c, (Some (set_component (Some this) node)). split; [done|].
    by rewrite Hput, Hcopy.
  - mrun_in E.
    pose proof (same_comps_putEvents this None
                  (set_comps (insert this
                     (with_element (Some (set_component (Some this) newTemp)) c)) w1)) as Hput.
    rewrite E in Hput. unfold same_comps in Hput. cbn in Hput.
    right. exists c, (Some (set_component (Some this) newTemp)). by split.
Qed.

End same_comps_methods.

Section setState_comps.

#[local] Existing Instance same_comps_preorder.

Lemma same_comps_lift_run r : respects same_comps (lift_run r).
Proof. intros w. unfold lift_run. destruct r as [calls [e|]]; done. Qed.

(** The fields of [this] after [setState]: the state is the one [change]
    leaves, whatever the effects and the render do. *)
Lemma setState_comps this newState w c :
  comps w !! this = Some c →
  ∃ el, comps (setState this newState w).2
        = <[this := with_element el
                      (with_state (filter_change newState.*1 (list_to_map newState)
                                     (_state c)).2 c)]> (comps w).
Proof.
  intros Hc. destruct (setState this newState w) as [r w'] eqn:E. cbn [snd].
  unfold setState in E.
  rewrite (bind_run_ok _ _ _ _ _ (getComp_run _ _ _ Hc)) in E.
  destruct (filter_change _ _ _) as [changed s] eqn:Efc. cbn [snd].
  mrun_in E.
  set (w1 := set_comps _ w) in E.
  assert (Hw1 : comps w1 = <[this := with_element (element c) (with_state s c)]> (comps w)).
  { by destruct c. }
  pose proof (respects_forEach same_comps
    (λ key, lift_run (EffectHandler.dispatchIgnoreGlobals key (sideEffects c))) changed
    (λ key, same_comps_lift_run _) w1) as Hloop.
  unfold same_comps in Hloop.
  destruct (forEach _ changed w1) as [[[]|e] w2]; cbn [snd] in Hloop;
    [|injection E as _ <-; exists (element c); congruence].
  case_bool_decide; [|injection E as _ <-; exists (element c); congruence].
  mrun_in E.
  pose proof (same_comps_lift_run
    (EffectHandler.dispatchGlobals (Some (ChangedKeys changed)) (sideEffects c)) w2)
    as Hg.
  unfold same_comps in Hg.
  destruct (lift_run _ w2) as [[[]|e] w3]; cbn [snd] in Hg;
    [|injection E as _ <-; exists (element c); congruence].
  pose proof (render_comps this w3) as Hr. rewrite E in Hr. cbn [snd] in Hr.
  destruct Hr as [Hr|(c' & el & Hc' & Hr)].
  - exists (element c). congruence.
  - rewrite Hg, Hloop, Hw1, lookup_insert_eq in Hc'. injection Hc' as <-.
    exists el. rewrite Hr, Hg, Hloop, Hw1, insert_insert_eq. by destruct c.
Qed.

End setState_comps.

Section merged_facts.
Implicit Types (s ns : gmap string JS.value) (keys : list string).

Lemma change_lookup key val s k :
  (State.change key val s).2 !! k
  = if decide (k = key) then (λ _, val) <$> s !! k else s !! k.
Proof.
  unfold State.change. case_decide as Hk.
  - subst k. destruct (s !! key) as [prev|] eqn:E; cbn; [|by rewrite E].
    by rewrite lookup_insert_eq.
  - destruct (s !! key); cbn; [|done]. by rewrite lookup_insert_ne.
Qed.

Lemma merged_lookup ns keys s k :
  merged ns keys s !! k
  = if decide (k ∈ keys) then (λ _, JS.get ns k) <$> s !! k else s !! k.
Proof.
  revert s. induction keys as [|key keys IH]; intros s.
  - cbn. rewrite decide_False; [done|apply not_elem_of_nil].
  - change (merged ns (key :: keys) s)
      with (merged ns keys (State.change key (JS.get ns key) s).2).
    rewrite IH, change_lookup.
    destruct (decide (k = key)) as [->|Hne].
    + rewrite (decide_True (P := key ∈ key :: keys)) by (apply elem_of_cons; by left).
      destruct (decide (key ∈ keys)); [|done]. by destruct (s !! key).
    + destruct (decide (k ∈ keys)) as [Hin|Hnotin].
      * by rewrite decide_True by (apply elem_of_cons; by right).
      * by rewrite decide_False by (by apply not_elem_of_cons).
Qed.

Lemma merged_indistinguishable ns keys s :
  filter (λ key, differs s ns key = true) keys = [] →
  indistinguishable s (merged ns keys s).
Proof.
  intros Hnil k. rewrite merged_lookup. case_decide as Hk; [|by left].
  destruct (s !! k) as [prev|] eqn:E; [|by left].
  right. exists prev, (JS.get ns k). split; [done|]. split; [done|].
  assert (Hd : differs s ns k ≠ true).
  { intros Hd. assert (Hin : k ∈ filter (λ key, differs s ns key = true) keys)
      by by apply list_elem_of_filter.
    rewrite Hnil in Hin. by apply not_elem_of_nil in Hin. }
  unfold differs, strict_neq in Hd. rewrite E in Hd.
  by destruct (strict_eq prev (JS.get ns k)).
Qed.

End merged_facts.

(** C2: [setState] collects the keys that changed, those of the store whose
    new value is not [===] to the stored one, in the order [Object.keys]
    gives them.  When none changed, nothing is called and the instance keeps
    its tree: the world differs by the stored values at most, which are
    [===] to the ones before.  Otherwise the per-key effects run, key after
    key in that order and each key's effects in registration order, then
    every global effect once with the list of the changed keys, then
    [render]. *)
Theorem C2_setState this newState w c :
  comps w !! this = Some c →
  NoDup newState.*1 →
  all_callable (sideEffects c) →
  let ns : gmap string JS.value := list_to_map newState in
  let changed := filter (λ key, differs (_state c) ns key = true) newState.*1 in
  let w1 := set_comps (insert this (with_state (merged ns newState.*1 (_state c)) c)) w in
  (filter_change newState.*1 ns (_state c)).1 = changed
  ∧ (changed = [] →
     setState this newState w = (Ok tt, w1)
     ∧ log w1 = log w ∧ renders w1 = renders w
     ∧ element <$> comps w1 !! this = Some (element c)
     ∧ indistinguishable (_state c) (merged ns newState.*1 (_state c)))
  ∧ (changed ≠ [] →
     setState this newState w
     = render this
         (logged (key_calls (sideEffects c) changed
                  ++ global_calls (sideEffects c) changed) w1)).
Proof.
  intros Hc Hnd Hh ns changed w1.
  pose proof (setState_run this newState w c Hc Hnd Hh) as Hrun.
  cbv zeta in Hrun. fold ns changed w1 in Hrun.
  split; [by rewrite (filter_change_spec _ _ _ Hnd)|]. split.
  - intros Hnil. rewrite Hnil in Hrun. rewrite decide_True in Hrun by done.
    cbn [key_calls mbind list_bind] in Hrun. rewrite logged_nil in Hrun.
    repeat split; [done| |by apply merged_indistinguishable].
    subst w1. cbn. by rewrite lookup_insert_eq.
  - intros Hne. rewrite decide_False in Hrun by done. by rewrite logged_app in Hrun.
Qed.

(** C6 (as the code has it): with the effects [la] on [a], [lb] on [b] and
    the one global effect [g], [setState({b: 2, a: 1})] where both values
    change calls the effects of [b], then those of [a], the order of the
    keys in the argument, then [g] once with [["b", "a"]], and then
    renders. *)
Theorem C6_effects_in_supplied_order this w c la lb g va vb :
  comps w !! this = Some c →
  EffectHandler.al (sideEffects c) !! "a" = Some la →
  EffectHandler.al (sideEffects c) !! "b" = Some lb →
  EffectHandler.globals (sideEffects c) = [VFunction g] →
  all_callable (sideEffects c) →
  _state c !! "a" = Some va →
  _state c !! "b" = Some vb →
  strict_eq va (VNumber (Int 1)) = false →
  strict_eq vb (VNumber (Int 2)) = false →
  setState this [("b", VNumber (Int 2)); ("a", VNumber (Int 1))] w
  = render this
      (logged ((CallEffect <$> fns_of lb) ++ (CallEffect <$> fns_of la)
               ++ [CallGlobal g (ChangedKeys ["b"; "a"])])
         (set_comps (insert this
            (with_state (<["a" := VNumber (Int 1)]>
                           (<["b" := VNumber (Int 2)]> (_state c))) c)) w)).
Proof.
  intros Hc Hla Hlb Hg Hh Ha Hb Hva Hvb.
  assert (Hnd : NoDup [("b", VNumber (Int 2)); ("a", VNumber (Int 1))].*1).
  { cbn. apply NoDup_cons. split; [|apply NoDup_singleton].
    by intros ?%list_elem_of_singleton. }
  rewrite (setState_run _ _ _ _ Hc Hnd Hh). cbv zeta.
  assert (Hchanged :
    filter (λ key, differs (_state c)
              (list_to_map [("b", VNumber (Int 2)); ("a", VNumber (Int 1))]) key = true)
      [("b", VNumber (Int 2)); ("a", VNumber (Int 1))].*1 = ["b"; "a"]).
  { cbn [fmap list_fmap fst]. rewrite !filter_cons, filter_nil.
    unfold differs, strict_neq. rewrite Ha, Hb.
    change (JS.get _ "b") with (VNumber (Int 2)).
    change (JS.get _ "a") with (VNumber (Int 1)).
    by rewrite Hva, Hvb. }
  rewrite Hchanged. rewrite decide_False by done.
  rewrite logged_app. f_equal. f_equal.
  - unfold key_calls, global_calls. cbn [mbind list_bind]. rewrite Hla, Hlb, Hg. cbn.
    by rewrite app_nil_r, <-(assoc_L (++)).
  - f_equal. f_equal. f_equal. cbn [fmap list_fmap fst merged foldl].
    rewrite (change_present _ _ _ _ Hb). cbn [snd].
    change (JS.get _ "b") with (VNumber (Int 2)).
    change (JS.get _ "a") with (VNumber (Int 1)).
    rewrite (change_present "a" _ va); [done|]. by rewrite lookup_insert_ne.
Qed.

Lemma ab_this_in_ab : comps Scenario.ab !! Scenario.this = Some Scenario.ab_this.
Proof. vm_compute. reflexivity. Qed.

Lemma ab_this_all_callable : all_callable (sideEffects Scenario.ab_this).
Proof.
  split.
  - apply map_Forall_insert_2; [by repeat constructor|].
    apply map_Forall_insert_2; [by repeat constructor|]. apply map_Forall_empty.
  - by repeat constructor.
Qed.

(** In [ab], [setState({a: 1, x: null, b: 0})] changes [a] alone: the effect
    of [a] runs, then the global effect with [["a"]], then [render]. *)
Lemma C2_setState_witness :
  setState Scenario.this
    [("a", VNumber (Int 1)); ("x", VNull); ("b", VNumber (Int 0))] Scenario.ab
  = render Scenario.this
      (logged [CallEffect (User 1); CallGlobal (User 3) (ChangedKeys ["a"])]
         (set_comps (insert Scenario.this
            (with_state (<["a" := VNumber (Int 1)]> (<["b" := VNumber (Int 0)]> ∅))
               Scenario.ab_this)) Scenario.ab)).
Proof.
  assert (Hnd : NoDup [("a", VNumber (Int 1)); ("x", VNull); ("b", VNumber (Int 0))].*1).
  { apply (bool_decide_unpack _). vm_compute. exact I. }
  destruct (C2_setState Scenario.this
              [("a", VNumber (Int 1)); ("x", VNull); ("b", VNumber (Int 0))]
              Scenario.ab Scenario.ab_this ab_this_in_ab Hnd ab_this_all_callable)
    as (_ & _ & H).
  rewrite H by (vm_compute; discriminate). reflexivity.
Defined.

(** C6 (as stated) fails: in [ab], where the effect [User 1] was registered
    on [a] before the effect [User 2] on [b], [setState({b: 2, a: 1})] calls
    the effect of [b] first. *)
Lemma C6_effect_of_b_runs_first :
  effect_calls
    (log (setState Scenario.this [("b", VNumber (Int 2)); ("a", VNumber (Int 1))]
            Scenario.ab).2)
  = [CallEffect (User 2); CallEffect (User 1);
     CallGlobal (User 3) (ChangedKeys ["b"; "a"])]
  ∧ effect_calls
      (log (setState Scenario.this [("b", VNumber (Int 2)); ("a", VNumber (Int 1))]
              Scenario.ab).2)
    ≠ [CallEffect (User 1); CallEffect (User 2);
       CallGlobal (User 3) (ChangedKeys ["b"; "a"])].
Proof. split; [vm_compute; reflexivity|vm_compute; discriminate]. Qed.

Lemma C6_effects_in_supplied_order_witness :
  setState Scenario.this [("b", VNumber (Int 2)); ("a", VNumber (Int 1))] Scenario.ab
  = render Scenario.this
      (logged [CallEffect (User 2); CallEffect (User 1);
               CallGlobal (User 3) (ChangedKeys ["b"; "a"])]
         (set_comps (insert Scenario.this
            (with_state (<["a" := VNumber (Int 1)]> (<["b" := VNumber (Int 2)]>
               (<["a" := VNumber (Int 0)]> (<["b" := VNumber (Int 0)]> ∅))))
               Scenario.ab_this)) Scenario.ab)).
Proof.
  apply (C6_effects_in_supplied_order Scenario.this Scenario.ab Scenario.ab_this
           [VFunction (User 1)] [VFunction (User 2)] (User 3)
           (VNumber (Int 0)) (VNumber (Int 0)));
    first [exact ab_this_in_ab | exact ab_this_all_callable | reflexivity].
Defined.

(** ** The keys of the state *)

Section state_keys.

#[local] Existing Instance same_comps_preorder.

#[local] Instance state_keys_kept_preorder : PreOrder state_keys_kept.
Proof.
  split.
  - intros w x c Hc. by exists c.
  - intros w1 w2 w3 H12 H23 x c Hc.
    destruct (H12 x c Hc) as (c2 & Hc2 & Hd2).
    destruct (H23 x c2 Hc2) as (c3 & Hc3 & Hd3).
    exists c3. split; [done|congruence].
Qed.

Lemma state_keys_kept_same_comps w w' : comps w' = comps w → state_keys_kept w w'.
Proof. intros H x c Hc. exists c. by rewrite H. Qed.

Lemma state_keys_kept_insert w w' t c c' :
  comps w !! t = Some c → comps w' = <[t := c']> (comps w) →
  dom (_state c') = dom (_state c) → state_keys_kept w w'.
Proof.
  intros Ht Hw' Hd x cx Hx. rewrite Hw'. destruct (decide (x = t)) as [->|Hne].
  - exists c'. rewrite lookup_insert_eq. split; [done|congruence].
  - exists cx. by rewrite lookup_insert_ne.
Qed.

Lemma state_keys_kept_setState t newState : respects state_keys_kept (setState t newState).
Proof.
  intros w. destruct (comps w !! t) as [c|] eqn:Hc.
  - destruct (setState_comps t newState w c Hc) as [el Hw'].
    eapply state_keys_kept_insert; [done..|]. apply filter_change_dom.
  - apply state_keys_kept_same_comps. unfold setState. rewrite bind_run.
    unfold getComp. by rewrite Hc.
Qed.

Lemma state_keys_kept_render t : respects state_keys_kept (render t).
Proof.
  intros w. destruct (render_comps t w) as [H|(c & el & Hc & H)].
  - by apply state_keys_kept_same_comps.
  - by eapply state_keys_kept_insert.
Qed.

Lemma state_keys_kept_setComp_with t c c' w :
  comps w !! t = Some c → dom (_state c') = dom (_state c) →
  state_keys_kept w (setComp t c' w).2.
Proof. intros Hc Hd. by eapply state_keys_kept_insert. Qed.

Lemma state_keys_kept_putEvents t el : respects state_keys_kept (putEvents t el).
Proof. intros w. apply state_keys_kept_same_comps, same_comps_putEvents. Qed.

Lemma same_comps_push a entry : respects same_comps (push a entry).
Proof. unfold push. respects_tac. done. Qed.

Lemma same_comps_removeEventListener t type listener selector :
  respects same_comps (removeEventListener t type listener selector).
Proof.
  unfold removeEventListener. respects_tac; try done; apply same_comps_emit.
Qed.

(** [addEventListener] writes no field of an instance but [this.events],
    and this one only to create the list. *)
Lemma addEventListener_comps t type listener selector w :
  comps (addEventListener t type listener selector w).2 = comps w
  ∨ ∃ c a, comps w !! t = Some c ∧ events c = None
           ∧ comps (addEventListener t type listener selector w).2
             = <[t := with_events (Some a) c]> (comps w).
Proof.
  destruct (addEventListener t type listener selector w) as [r w'] eqn:E. cbn [snd].
  unfold addEventListener in E. cbv zeta in E. rewrite bind_run in E.
  unfold getComp at 1 in E.
  destruct (comps w !! t) as [c|] eqn:Hc; [|left; by injection E as _ <-].
  set (tail := λ a : loc, (_ ≫= _) : M unit) in E.
  assert (Htail : ∀ a, respects same_comps (tail a)).
  { intros a. unfold tail. respects_tac; try done.
    - apply same_comps_push.
    - apply same_comps_putEvents. }
  destruct (events c) as [a|] eqn:Hev.
  - left. mrun_in E. pose proof (Htail a w) as H. rewrite E in H. exact H.
  - right. exists c, (fresh (dom (cells w))). split; [done|]. split; [done|].
    mrun_in E. unfold alloc at 1 in E. mrun_in E.
    pose proof (Htail (fresh (dom (cells w)))
                  (set_comps (insert t (with_events (Some (fresh (dom (cells w)))) c))
                     (set_cells (insert (fresh (dom (cells w))) (Arr [])) w))) as H.
    rewrite E in H. exact H.
Qed.

Lemma state_keys_kept_perform t call : ∀ w, state_keys_kept w (perform t call w).
Proof.
  intros w.
  destruct call as [ns| |p| |key action|action|key action|action|ty li sel|ty li sel];
    cbn [perform].
  - apply state_keys_kept_setState.
  - apply state_keys_kept_render.
  - unfold get. rewrite bind_run. unfold getComp at 1.
    destruct (comps w !! t) as [c|] eqn:Hc; [|reflexivity].
    rewrite bind_run. cbn [setComp modify].
    etrans; [by apply (state_keys_kept_setComp_with t c (with_props (default ∅ p) c))|].
    rewrite bind_run.
    pose proof (state_keys_kept_render t
                  (setComp t (with_props (default ∅ p) c) w).2) as Hr.
    cbn [setComp modify snd] in Hr.
    destruct (render t _) as [[[]|e] w2]; cbn [snd] in *; [|done].
    etrans; [exact Hr|]. apply state_keys_kept_same_comps.
    rewrite bind_run. unfold getComp. by destruct (comps w2 !! t).
  - apply state_keys_kept_same_comps. unfold state. rewrite bind_run. unfold getComp.
    destruct (comps w !! t); [|done]. rewrite bind_run. cbn [gets]. by case_match.
  - unfold onChangeState. rewrite bind_run. unfold getComp.
    destruct (comps w !! t) as [c|] eqn:Hc; [|reflexivity].
    destruct (EffectHandler.add key action (sideEffects c)); [|reflexivity].
    by apply (state_keys_kept_setComp_with t c).
  - unfold onChangeAny. rewrite bind_run. unfold getComp.
    destruct (comps w !! t) as [c|] eqn:Hc; [|reflexivity].
    destruct (EffectHandler.addGlobal action (sideEffects c)); [|reflexivity].
    by apply (state_keys_kept_setComp_with t c).
  - unfold offChangeState. rewrite bind_run. unfold getComp.
    destruct (comps w !! t) as [c|] eqn:Hc; [|reflexivity].
    destruct (EffectHandler.remove _ _ _) as [b h]. rewrite bind_run.
    by apply (state_keys_kept_setComp_with t c).
  - unfold offChangeAny. rewrite bind_run. unfold getComp.
    destruct (comps w !! t) as [c|] eqn:Hc; [|reflexivity].
    destruct (EffectHandler.removeGlobal _ _) as [b h]. rewrite bind_run.
    by apply (state_keys_kept_setComp_with t c).
  - destruct (addEventListener_comps t ty li sel w) as [H|(c & a & Hc & _ & H)].
    + by apply state_keys_kept_same_comps.
    + by eapply state_keys_kept_insert.
  - apply state_keys_kept_same_comps, same_comps_removeEventListener.
Qed.

Lemma state_keys_kept_perform_all calls : ∀ w, state_keys_kept w (perform_all calls w).
Proof.
  induction calls as [|[t call] calls IH]; intros w; [reflexivity|].
  cbn [perform_all foldl]. etrans; [apply (state_keys_kept_perform t call)|apply IH].
Qed.

Lemma setState_absent_key t key val w c :
  comps w !! t = Some c → _state c !! key = None →
  setState t [(key, val)] w = (Ok tt, w).
Proof.
  intros Hc Hkey. unfold setState.
  rewrite (bind_run_ok _ _ _ _ _ (getComp_run _ _ _ Hc)).
  cbn [fmap list_fmap fst filter_change]. rewrite (change_absent _ _ _ Hkey).
  mrun. cbn. f_equal. destruct w as [cl cm k n l]. unfold set_comps; cbn. f_equal.
  apply insert_id. cbn in Hc. rewrite Hc. by destruct c.
Qed.

Lemma value_lookup_None cells s key snapshot :
  s !! key = None → State.value cells s = Ok snapshot → snapshot !! key = None.
Proof.
  intros Hs. unfold State.value. case_decide; [|done]. intros [= <-].
  by rewrite lookup_omap, lookup_fmap, Hs.
Qed.

End state_keys.

(** C7: the keys of the state of an instance are those it was made with.
    Whatever methods are called afterwards, on this instance or on others,
    with whatever arguments and whether they return or throw, the instance
    is still there with the same set of keys.  [setState] with a key the
    state lacks returns normally and changes nothing, and neither the state
    nor its snapshot has the key afterwards. *)
Theorem C7_state_keys_fixed this w c :
  comps w !! this = Some c →
  (∀ calls, ∃ c', comps (perform_all calls w) !! this = Some c'
                  ∧ dom (_state c') = dom (_state c))
  ∧ (∀ key val, _state c !! key = None → setState this [(key, val)] w = (Ok tt, w))
  ∧ (∀ key newState, _state c !! key = None →
       ∃ c', comps (setState this newState w).2 !! this = Some c'
             ∧ _state c' !! key = None
             ∧ ∀ snapshot,
                 State.value (cells (setState this newState w).2) (_state c') = Ok snapshot →
                 snapshot !! key = None).
Proof.
  intros Hc. split; [|split].
  - intros calls. by apply (state_keys_kept_perform_all calls w).
  - intros key val Hkey. by apply setState_absent_key with c.
  - intros key newState Hkey.
    destruct (state_keys_kept_setState this newState w this c Hc) as (c' & Hc' & Hd).
    assert (Hkey' : _state c' !! key = None).
    { apply not_elem_of_dom. rewrite Hd. by apply not_elem_of_dom. }
    exists c'. split; [done|]. split; [done|].
    intros snapshot. by apply value_lookup_None.
Qed.

(** In [ab], whose state has the keys [a] and [b], [setState({x: "x"})]
    changes nothing. *)
Lemma C7_state_keys_fixed_witness :
  setState Scenario.this [("x", VString "x")] Scenario.ab = (Ok tt, Scenario.ab).
Proof.
  apply (proj1 (proj2 (C7_state_keys_fixed Scenario.this Scenario.ab Scenario.ab_this
                         ab_this_in_ab))).
  reflexivity.
Defined.

(** ** What a run returns *)

Section returns_facts.

Lemma returns_ret {A} (a : A) (Q : A → Prop) : Q a → returns (mret a) Q.
Proof. intros HQ w a' w' [= <- _]. exact HQ. Qed.

Lemma returns_bind {A B} (m : M A) (k : A → M B) (P : A → Prop) (Q : B → Prop) :
  returns m P → (∀ a, P a → returns (k a) Q) → returns (m ≫= k) Q.
Proof.
  intros Hm Hk w b w' E. rewrite bind_run in E.
  destruct (m w) as [[a|e] w1] eqn:Em; [|discriminate].
  exact (Hk a (Hm _ _ _ Em) _ _ _ E).
Qed.

Lemma returns_foldM {A} (f : Node → A → M Node) (P : Node → Prop) into items :
  (∀ n x, P n → returns (f n x) P) → P into → returns (foldM f into items) P.
Proof.
  intros Hf. revert into. induction items as [|x items IH]; intros into HP; cbn [foldM].
  - by apply returns_ret.
  - eapply returns_bind; [by apply Hf|]. intros n Hn. by apply IH.
Qed.

Lemma returns_emit_then {A} e (a : A) (Q : A → Prop) :
  Q a → returns (emit e;; mret a) Q.
Proof. intros HQ w a' w' [= <- _]. exact HQ. Qed.

End returns_facts.

(** ** The reconciler *)

Section copyNode_facts.
Implicit Types (into node : Node).

Lemma uid_set_childNodes cs n : uid (set_childNodes cs n) = uid n.
Proof. by destruct n. Qed.
Lemma uid_set_attributes a n : uid (set_attributes a n) = uid n.
Proof. by destruct n. Qed.
Lemma uid_set_value v n : uid (set_value v n) = uid n.
Proof. by destruct n. Qed.

(** The loop over the children returns the node it was given, patched. *)
Lemma forEachChild_uid rec vals index into :
  returns (forEachChild rec vals index into) (λ n, uid n = uid into).
Proof.
  revert index into. induction vals as [|val vals IH]; intros index into;
    cbn [forEachChild].
  - by apply returns_ret.
  - eapply (returns_bind _ _ (λ n, uid n = uid into)).
    + destruct (childNodes into !! index) as [childInto|].
      * eapply (returns_bind _ _ (λ _, True)); [done|]. intros r _.
        apply returns_ret, uid_set_childNodes.
      * eapply (returns_bind _ _ (λ _, True)); [done|]. intros child _.
        unfold appendChild. apply returns_emit_then, uid_set_childNodes.
    + intros n Hn. rewrite <-Hn. apply IH.
Qed.

(** What [copyNode] does once none of its first three tests has ended
    it. *)
Lemma copyNode_unfold into node :
  copyNode into node
  = if bool_decide (uid into = uid node) then mret into
    else if replaced_at_once into node then replaceWith into node;; mret node
    else if replaced_for_owner into node
    then replaceWith into node;; putEvents_of node;; mret node
    else if isEqualNode into node then mret into
    else
      into ← (if bool_decide (length (childNodes node) < length (childNodes into))
              then
                let l := length (childNodes node) in
                foldM (removeChildAt l) into (drop l (childNodes into))
              else mret into);
      into ← foldM removeAttribute into
               (filter (λ name, name ∉ getAttributeNames node)
                       (getAttributeNames into));
      into ← forEachChild copyNode (childNodes node) 0 into;
      into ← foldM (λ into val,
                into ← setAttribute into val.1 val.2;
                if String.eqb val.1 "value" then setValue into val.2 else mret into)
               into (attributes node);
      mret into.
Proof. destruct node; reflexivity. Qed.

Lemma copyNode_patch_uid into node :
  bool_decide (uid into = uid node) = false →
  replaced_at_once into node = false →
  replaced_for_owner into node = false →
  returns (copyNode into node) (λ n, uid n = uid into).
Proof.
  intros H1 H2 H3. rewrite copyNode_unfold, H1, H2, H3.
  destruct (isEqualNode into node); [by apply returns_ret|].
  eapply (returns_bind _ _ (λ n, uid n = uid into)).
  { destruct (bool_decide (length (childNodes node) < length (childNodes into)));
      [|by apply returns_ret].
    apply returns_foldM; [|done]. intros n x Hn. unfold removeChildAt.
    apply returns_emit_then. by rewrite uid_set_childNodes. }
  intros n1 Hn1. eapply (returns_bind _ _ (λ n, uid n = uid into)).
  { apply returns_foldM; [|done]. intros n x Hn. unfold removeAttribute.
    apply returns_emit_then. by rewrite uid_set_attributes. }
  intros n2 Hn2. eapply (returns_bind _ _ (λ n, uid n = uid into)).
  { rewrite <-Hn2. apply forEachChild_uid. }
  intros n3 Hn3. eapply (returns_bind _ _ (λ n, uid n = uid into)).
  { apply returns_foldM; [|done]. intros n x Hn.
    eapply (returns_bind _ _ (λ n, uid n = uid into)).
    - unfold setAttribute. apply returns_emit_then. by rewrite uid_set_attributes.
    - intros n' Hn'. destruct (String.eqb x.1 "value"); [|by apply returns_ret].
      unfold setValue. apply returns_emit_then. by rewrite uid_set_value. }
  intros n4 Hn4. by apply returns_ret.
Qed.

Lemma isEqualNode_nodeType into node :
  isEqualNode into node = true → nodeType into = nodeType node.
Proof. destruct into, node; cbn; done. Qed.

Lemma isEqualNode_tagName into node :
  isEqualNode into node = true → tagName into = tagName node.
Proof.
  destruct into as [|? ? t1 ? ? ?], node as [|? ? t2 ? ? ?]; cbn; try done.
  intros [[Ht%String.eqb_eq _]%andb_prop _]%andb_prop. by subst.
Qed.

End copyNode_facts.

(** C3 (as the code has it): when [into] and [node] are two objects,
    [copyNode] discards [into] for [node] exactly in these cases.  If the
    tags differ, or either of the two is a text node, or [into] has an owner
    and [node] has none, it calls [into.replaceWith(node)] and returns
    [node], and does nothing else.  Otherwise, if [node] has an owner that is
    not the owner of [into] (which may have none), it calls
    [into.replaceWith(node)], then the [putEvents(node)] of the new owner,
    and returns [node].  In every other case the node it returns is [into],
    patched in place. *)
Theorem C3_copyNode_replaces into node w :
  uid into ≠ uid node →
  (replaced_at_once into node = true →
   copyNode into node w = (Ok node, logged [ReplaceWith (uid into) (uid node)] w))
  ∧ (replaced_at_once into node = false → replaced_for_owner into node = true →
     copyNode into node w
     = match putEvents_of node (logged [ReplaceWith (uid into) (uid node)] w) with
       | (Ok _, w') => (Ok node, w')
       | (Throw e, w') => (Throw e, w')
       end)
  ∧ (replaced_at_once into node = false → replaced_for_owner into node = false →
     ∀ n w', copyNode into node w = (Ok n, w') → uid n = uid into).
Proof.
  intros Hne. assert (H1 : bool_decide (uid into = uid node) = false)
    by by apply bool_decide_eq_false.
  split; [|split].
  - intros H2. by rewrite copyNode_unfold, H1, H2.
  - intros H2 H3. rewrite copyNode_unfold, H1, H2, H3. unfold replaceWith.
    rewrite bind_run, emit_run, bind_run.
    by destruct (putEvents_of node _) as [[[]|e] w'].
  - intros H2 H3 n w' E. by apply (copyNode_patch_uid into node H1 H2 H3 w n w').
Qed.

(** The text node [zero2] in the place of the element [p1]. *)
Lemma C3_copyNode_replaces_witness :
  copyNode Scenario.p1 Scenario.zero2 Scenario.empty
  = (Ok Scenario.zero2, logged [ReplaceWith (Made 5) (Made 4)] Scenario.empty).
Proof.
  apply (proj1 (C3_copyNode_replaces Scenario.p1 Scenario.zero2 Scenario.empty
                  ltac:(discriminate))).
  reflexivity.
Defined.

(** C3 (as stated) fails: two text nodes with the same text are two objects
    for which none of the listed triggers holds, and [copyNode] replaces the
    first with the second. *)
Lemma C3_equal_texts_are_replaced :
  uid Scenario.hi1 ≠ uid Scenario.hi2
  ∧ listed_triggers Scenario.hi1 Scenario.hi2 = false
  ∧ copyNode Scenario.hi1 Scenario.hi2 Scenario.empty
    = (Ok Scenario.hi2, logged [ReplaceWith (Made 1) (Made 2)] Scenario.empty).
Proof. split; [discriminate|]. split; reflexivity. Qed.

(** The first test comes first: a [div] without owner against a [p] of the
    instance [1] is replaced for its tag, and [putEvents] is not called,
    though the owners differ.  (In [Scenario.empty] there is no instance
    [1]: a call of its [putEvents] would throw.) *)
Example copyNode_replaces_for_the_tag_first :
  let node := set_component (Some 1%positive) Scenario.p2 in
  replaced_at_once Scenario.div1 node = true
  ∧ replaced_for_owner Scenario.div1 node = true
  ∧ copyNode Scenario.div1 node Scenario.empty
    = (Ok node, logged [ReplaceWith (Made 10) (Made 6)] Scenario.empty).
Proof. repeat split; reflexivity. Qed.

(** A patch in place: the child in excess and the attribute in excess go,
    the equal [span] is left alone, the text is replaced, and the attribute
    that stays is set again. *)
Example copyNode_patches_div :
  let r := copyNode Scenario.div1 Scenario.div2 Scenario.empty in
  r.1 = Ok (Element (Made 10) None "DIV" [("class", "b")] None
              [Element (Made 11) None "SPAN" [] None [Text (Made 12) None "x"];
               Text (Made 23) None "two"])
  ∧ log r.2 = [RemoveChild (Made 10) (Made 14); RemoveAttribute (Made 10) "id";
               ReplaceWith (Made 13) (Made 23); SetAttribute (Made 10) "class" "b"].
Proof. split; reflexivity. Qed.

(** C4 (as the code has it): on two trees that are the same object, or that
    are deep-equal elements with the same owner or both without one,
    [copyNode] returns [into] as it is and calls no DOM primitive: the world
    is the one it started in.  [render] does not even call [copyNode] when
    the tree it gets from the template is made of new nodes (it shares no
    node object with the tree of the instance) and is deep-equal to the one
    the instance has: it counts the call of the template and leaves
    everything else.  A template that puts nodes of the live tree into the
    tree it returns is not covered: building that tree changes the live
    one. *)
Theorem C4_copyNode_deep_equal into node w :
  (uid into = uid node → copyNode into node w = (Ok into, w))
  ∧ (isEqualNode into node = true → nodeType into = ELEMENT_NODE →
     component into = component node →
     copyNode into node w = (Ok into, w))
  ∧ (∀ this c t,
       comps w !! this = Some c → template c = Some t → element c = Some into →
       Shape.apart into (t (_state c) (_props c) (renders w)) →
       isEqualNode into (set_component (Some this) (t (_state c) (_props c) (renders w)))
       = true →
       render this w = (Ok tt, set_renders (S (renders w)) w)).
Proof.
  split; [|split].
  - intros Hid. by rewrite copyNode_unfold, bool_decide_true.
  - intros Heq Hel Hown. rewrite copyNode_unfold.
    case_bool_decide; [done|].
    assert (H2 : replaced_at_once into node = false).
    { unfold replaced_at_once.
      rewrite (bool_decide_false (tagName into ≠ tagName node))
        by (intros Hne; apply Hne; by apply isEqualNode_tagName).
      rewrite (bool_decide_false (nodeType into = TEXT_NODE)) by by rewrite Hel.
      rewrite (bool_decide_false (nodeType node = TEXT_NODE))
        by by rewrite <-(isEqualNode_nodeType _ _ Heq), Hel.
      rewrite Hown. by destruct (bool_decide (is_Some (component node))). }
    assert (H3 : replaced_for_owner into node = false).
    { unfold replaced_for_owner.
      rewrite (bool_decide_false (component into ≠ component node)) by by intros Hne.
      apply andb_false_r. }
    by rewrite H2, H3, Heq.
  - intros this c t Hc Ht Hel _ Heq. unfold render.
    rewrite (bind_run_ok _ _ _ _ _ (getComp_run _ _ _ Hc)), Ht. mrun.
    by rewrite Hel, Heq.
Qed.

Lemma ab_tree_apart :
  Shape.apart (Element (Made 1) (Some Scenario.this) "SPAN" [] None [Text (Made 2) None "0"])
    (Scenario.span (_state Scenario.ab_this) (_props Scenario.ab_this)
       (renders Scenario.ab)).
Proof.
  assert (renders Scenario.ab = 1) as -> by (vm_compute; reflexivity).
  intros u Hu Hv. cbn in Hu, Hv.
  repeat (apply elem_of_cons in Hu as [->|Hu];
          [repeat (apply elem_of_cons in Hv as [Hv|Hv]; [discriminate|]);
           by apply elem_of_nil in Hv|]).
  by apply elem_of_nil in Hu.
Qed.

(** The element [p1] against an element like [p2] with the owner of
    [p1]; and [render] in [Scenario.ab], where the tree shows the state. *)
Lemma C4_copyNode_deep_equal_witness :
  copyNode Scenario.p1 (set_component (Some 1%positive) Scenario.p2) Scenario.empty
  = (Ok Scenario.p1, Scenario.empty)
  ∧ render Scenario.this Scenario.ab
    = (Ok tt, set_renders (S (renders Scenario.ab)) Scenario.ab).
Proof.
  split.
  - apply (proj1 (proj2 (C4_copyNode_deep_equal Scenario.p1
                           (set_component (Some 1%positive) Scenario.p2) Scenario.empty)));
      reflexivity.
  - apply (proj2 (proj2 (C4_copyNode_deep_equal
                           (Element (Made 1) (Some Scenario.this) "SPAN" [] None
                              [Text (Made 2) None "0"])
                           Scenario.p2 Scenario.ab))
             Scenario.this Scenario.ab_this Scenario.span).
    + vm_compute. reflexivity.
    + reflexivity.
    + reflexivity.
    + exact ab_tree_apart.
    + vm_compute. reflexivity.
Defined.

(** C4 (as stated) fails: two deep-equal text nodes, and two deep-equal
    elements of which only the first has an owner; [copyNode] returns the
    second node, not [into], after [into.replaceWith(node)]. *)
Lemma C4_deep_equal_yet_replaced :
  isEqualNode Scenario.zero1 Scenario.zero2 = true
  ∧ copyNode Scenario.zero1 Scenario.zero2 Scenario.empty
    = (Ok Scenario.zero2, logged [ReplaceWith (Made 3) (Made 4)] Scenario.empty)
  ∧ isEqualNode Scenario.p1 Scenario.p2 = true
  ∧ copyNode Scenario.p1 Scenario.p2 Scenario.empty
    = (Ok Scenario.p2, logged [ReplaceWith (Made 5) (Made 6)] Scenario.empty).
Proof. repeat split; reflexivity. Qed.

(** A handler that knows the key [k] with an empty list, and one with two
    effects of which the second and the third are the same function. *)
Lemma C8_remove_witness :
  EffectHandler.remove "k" None
    {| EffectHandler.al := {["k" := []]}; EffectHandler.globals := [] |}
  = (true, {| EffectHandler.al := <["k" := []]> {["k" := []]};
              EffectHandler.globals := [] |})
  ∧ EffectHandler.remove "j" None
      {| EffectHandler.al := {["k" := []]}; EffectHandler.globals := [] |}
    = (false, {| EffectHandler.al := {["k" := []]}; EffectHandler.globals := [] |}).
Proof.
  split.
  - exact (proj1 (C8_remove "k"
             {| EffectHandler.al := {["k" := []]}; EffectHandler.globals := [] |})
             [] eq_refl).
  - exact (proj1 (proj2 (C8_remove "j"
             {| EffectHandler.al := {["k" := []]}; EffectHandler.globals := [] |}))
             eq_refl None).
Defined.

(** ** Reading and writing the heap *)

Lemma Forall2_impl_r {A B} (P Q : A → B → Prop) (R : B → Prop) l k :
  Forall2 P l k → Forall R k → (∀ x y, R y → P x y → Q x y) → Forall2 Q l k.
Proof.
  intros HP HR H. induction HP as [|x y l k Hxy _ IH]; [constructor|].
  apply Forall_cons in HR as [Hy HR]. constructor; auto.
Qed.

Section heap_facts.
Implicit Types (w : world) (o e current : JS.value) (l a : loc).

Lemma get_prop_world o name w : (get_prop o name w).2 = w.
Proof. unfold get_prop. by repeat case_match. Qed.

Lemma get_prop_inv o name w v w' :
  get_prop o name w = (Ok v, w') → w' = w ∧ v = prop (cells w) o name.
Proof.
  unfold get_prop, prop. repeat case_match; intros [= <- <-]; done.
Qed.

Lemma get_prop_object l name w :
  get_prop (VObject l) name w = (Ok (prop (cells w) (VObject l) name), w).
Proof. unfold get_prop, prop. by repeat case_match. Qed.

Lemma get_prop_throw_world o name w err w' :
  get_prop o name w = (Throw err, w') → w' = w.
Proof. intros H. pose proof (get_prop_world o name w) as Hw. by rewrite H in Hw. Qed.

(** A truthy property makes its owner a plain object of the heap. *)
Lemma prop_truthy cells o name :
  truthy (prop cells o name) = true →
  ∃ l props, o = VObject l ∧ cells !! l = Some (Obj props).
Proof.
  unfold prop. destruct o as [| | | | |l|]; try done.
  destruct (cells !! l) as [[|props]|] eqn:E; try done. intros _. by exists l, props.
Qed.

Lemma kept_object cells e :
  kept cells e = true → ∃ l props, e = VObject l ∧ cells !! l = Some (Obj props).
Proof. unfold kept. intros [H _]%andb_prop. by eapply prop_truthy. Qed.

Lemma well_formed_inv e w b w' :
  CreateComponent.well_formed e w = (Ok b, w') → w' = w ∧ b = kept (cells w) e.
Proof.
  unfold CreateComponent.well_formed, kept. rewrite bind_run.
  destruct (get_prop e "type" w) as [[t|err] w1] eqn:Et; [|done].
  apply get_prop_inv in Et as [-> ->].
  destruct (truthy (prop (cells w) e "type")); cbn [andb].
  - rewrite bind_run. destruct (get_prop e "listener" w) as [[li|err] w1] eqn:El; [|done].
    apply get_prop_inv in El as [-> ->]. by intros [= <- <-].
  - by intros [= <- <-].
Qed.

Lemma filterM_well_formed items w ks w' :
  filterM CreateComponent.well_formed items w = (Ok ks, w') →
  w' = w ∧ ks = filter (λ e, kept (cells w) e = true) items.
Proof.
  revert ks w'. induction items as [|e items IH]; intros ks w'; cbn [filterM].
  - by intros [= <- <-].
  - rewrite bind_run.
    destruct (CreateComponent.well_formed e w) as [[b|err] w1] eqn:Ee; [|done].
    apply well_formed_inv in Ee as [-> ->]. rewrite bind_run.
    destruct (filterM _ items w) as [[ks'|err] w1] eqn:Ef; [|done].
    destruct (IH ks' w1 eq_refl) as [-> ->]. intros [= <- <-]. split; [done|].
    rewrite filter_cons. by destruct (kept (cells w) e).
Qed.

Lemma spread_run e w :
  CreateComponent.spread e w
  = (Ok (VObject (fresh (dom (cells w)))),
     set_cells (insert (fresh (dom (cells w))) (Obj (props_of (cells w) e))) w).
Proof. reflexivity. Qed.

Lemma props_of_insert_ne cells l c e :
  (∀ p, e = VObject p → p ≠ l) → props_of (<[l := c]> cells) e = props_of cells e.
Proof.
  intros H. unfold props_of. destruct e as [| | | | |p|]; try done.
  by rewrite lookup_insert_ne by (intros ->; by eapply H).
Qed.

(** [kept.map((e) => ({ ...e }))]: as many new objects, each with the
    properties of its original; nothing that was there is touched. *)
Lemma mapM_spread ks w :
  Forall (λ e, ∀ p, e = VObject p → is_Some (cells w !! p)) ks →
  ∃ ls w',
    mapM CreateComponent.spread ks w = (Ok (VObject <$> ls), w')
    ∧ comps w' = comps w
    ∧ NoDup ls
    ∧ (∀ l, l ∈ ls → cells w !! l = None)
    ∧ Forall2 (λ l e, cells w' !! l = Some (Obj (props_of (cells w) e))) ls ks
    ∧ (∀ l c, cells w !! l = Some c → cells w' !! l = Some c)
    ∧ (∀ l, is_Some (cells w' !! l) → is_Some (cells w !! l) ∨ l ∈ ls).
Proof.
  intros Hks. revert w Hks. induction ks as [|e ks IH]; intros w Hks.
  - exists [], w. cbn. repeat split; auto using NoDup_nil_2.
    intros l Hl. by apply elem_of_nil in Hl.
  - apply Forall_cons in Hks as [He Hks]. cbn [mapM].
    rewrite bind_run, spread_run.
    set (l := fresh (dom (cells w))).
    set (w1 := set_cells _ w).
    assert (Hl : cells w !! l = None).
    { apply not_elem_of_dom. apply is_fresh. }
    assert (Hks1 : Forall (λ e, ∀ p, e = VObject p → is_Some (cells w1 !! p)) ks).
    { eapply Forall_impl; [exact Hks|]. intros e' H p Hp. cbn.
      destruct (decide (p = l)) as [->|Hne]; [by rewrite lookup_insert_eq|].
      rewrite lookup_insert_ne by done. by apply H. }
    destruct (IH w1 Hks1) as (ls & w' & Hrun & Hcomps & Hnd & Hfresh & Hcopies & Hold & Hdom).
    exists (l :: ls), w'. rewrite bind_run, Hrun. cbn [fmap list_fmap].
    split; [done|]. split; [done|]. split; [|split; [|split; [|split]]].
    + apply NoDup_cons. split; [|done]. intros Hin. specialize (Hfresh l Hin).
      cbn in Hfresh. by rewrite lookup_insert_eq in Hfresh.
    + intros l' [->|Hin]%elem_of_cons; [done|]. specialize (Hfresh l' Hin).
      cbn in Hfresh. destruct (decide (l' = l)) as [->|Hne]; [done|].
      by rewrite lookup_insert_ne in Hfresh.
    + constructor.
      * apply Hold. cbn. by rewrite lookup_insert_eq.
      * eapply Forall2_impl_r; [exact Hcopies|exact Hks|].
        intros l' e' He' Hl'. cbn in Hl'. rewrite Hl'. do 2 f_equal.
        apply props_of_insert_ne. intros p -> ->.
        destruct (He' l eq_refl) as [c Hc]. congruence.
    + intros l' c Hc. apply Hold. cbn.
      rewrite lookup_insert_ne; [done|]. intros <-. congruence.
    + intros l' Hl'. destruct (Hdom l' Hl') as [H1|H1]; [|right; by apply elem_of_cons; right].
      cbn in H1. destruct (decide (l' = l)) as [->|Hne].
      * right. apply elem_of_cons. by left.
      * left. by rewrite lookup_insert_ne in H1.
Qed.

End heap_facts.

(** ** [new _Comp()] *)

Section construct_facts.
Import CreateComponent.

Lemma items_of_run a items w :
  cells w !! a = Some (Arr items) → items_of a w = (Ok items, w).
Proof. unfold items_of. by intros ->. Qed.

Lemma items_of_inv a items w w' :
  items_of a w = (Ok items, w') → w' = w ∧ cells w !! a = Some (Arr items).
Proof. unfold items_of. repeat case_match; intros [= <- <-]; done. Qed.

Lemma definitions_step d x w r w' :
  definitions_frame d →
  match d with
  | DefFunction body => body x
  | DefFields ex => c ← getComp x; setComp x (with_fields (ex ∪ fields c) c)
  end w = (r, w') →
  (∀ l c, cells w !! l = Some c → cells w' !! l = Some c)
  ∧ (∀ y c, y ≠ x → comps w !! y = Some c → comps w' !! y = Some c).
Proof.
  destruct d as [body|ex]; cbn [definitions_frame].
  - intros Hframe E. specialize (Hframe x w). by rewrite E in Hframe.
  - intros _. rewrite bind_run. unfold getComp.
    destruct (comps w !! x) as [c|]; [|by intros [= _ <-]].
    intros [= _ <-]. split; [done|]. intros y cy Hne Hy. cbn.
    by rewrite lookup_insert_ne.
Qed.

Lemma kept_ext cells cells' e :
  (∀ p, e = VObject p → cells' !! p = cells !! p) → kept cells' e = kept cells e.
Proof.
  intros H. unfold kept, prop. destruct e as [| | | | |p|]; try done.
  by rewrite (H p eq_refl).
Qed.

Lemma props_of_ext cells cells' e :
  (∀ p, e = VObject p → cells' !! p = cells !! p) → props_of cells' e = props_of cells e.
Proof.
  intros H. unfold props_of. destruct e as [| | | | |p|]; try done.
  by rewrite (H p eq_refl).
Qed.

Lemma filter_kept_ext cells cells' items :
  Forall (λ e, ∀ p, e = VObject p → cells' !! p = cells !! p) items →
  filter (λ e, kept cells' e = true) items = filter (λ e, kept cells e = true) items.
Proof.
  induction 1 as [|e items He _ IH]; [done|].
  by rewrite !filter_cons, IH, (kept_ext _ _ _ He).
Qed.

(** What [new _Comp()] leaves behind when it returns: a new instance whose
    [events] is a new array of new objects, one for each entry of the list
    of the kind that has a truthy [type] and a truthy [listener], in the
    order of that list and with the properties of the entry; nothing that
    was there before is touched. *)
Lemma construct_inv k w x w' :
  definitions_frame (definitions k) →
  closed_list (cells w) (events k) →
  construct k w = (Ok x, w') →
  ∃ items ls ea c,
    cells w !! events k = Some (Arr items)
    ∧ comps w !! x = None
    ∧ comps w' !! x = Some c
    ∧ Store.events c = Some ea
    ∧ cells w' !! ea = Some (Arr (VObject <$> ls))
    ∧ NoDup (ea :: ls)
    ∧ (∀ l, l ∈ ea :: ls → cells w !! l = None)
    ∧ Forall2 (λ l e, cells w' !! l = Some (Obj (props_of (cells w) e)))
        ls (filter (λ e, kept (cells w) e = true) items)
    ∧ (∀ l c, cells w !! l = Some c → cells w' !! l = Some c)
    ∧ (∀ y cy, comps w !! y = Some cy → comps w' !! y = Some cy).
Proof.
  intros Hframe (items & Hitems & Hclosed) E. unfold construct in E.
  rewrite bind_run in E. unfold Component.new at 1 in E.
  set (x0 := fresh (dom (comps w))) in E.
  assert (Hx0 : comps w !! x0 = None) by (apply not_elem_of_dom, is_fresh).
  mrun_in E. unfold getComp at 1 in E. cbn [comps set_comps] in E.
  rewrite lookup_insert_eq in E. mrun_in E.
  set (wb := set_comps _ (set_comps _ w)) in E.
  destruct (match definitions k with
            | DefFunction body => body x0
            | DefFields ex => _
            end wb) as [[[]|err] wc] eqn:Edef; [|done].
  destruct (definitions_step _ _ _ _ _ Hframe Edef) as [Hcells_c Hcomps_c].
  assert (Hitems_c : cells wc !! events k = Some (Arr items)) by by apply Hcells_c.
  rewrite (bind_run_ok _ _ _ _ _ (items_of_run _ _ _ Hitems_c)) in E.
  rewrite bind_run in E.
  destruct (filterM well_formed items wc) as [[ks|err] wc'] eqn:Efilter; [|done].
  apply filterM_well_formed in Efilter as [-> ->].
  assert (Hsame : Forall (λ e, ∀ p, e = VObject p → cells wc !! p = cells w !! p) items).
  { eapply Forall_impl; [exact Hclosed|]. intros e He p ->.
    destruct He as [c Hc]. rewrite Hc. by apply Hcells_c. }
  rewrite (filter_kept_ext _ _ _ Hsame) in E.
  set (ks := filter (λ e, kept (cells w) e = true) items) in *.
  assert (Hks : Forall (λ e, ∀ p, e = VObject p → is_Some (cells wc !! p)) ks).
  { apply Forall_forall. intros e [He Hin]%list_elem_of_filter p ->.
    destruct (kept_object _ _ He) as (l & props & [= <-] & Hl).
    exists (Obj props). by apply Hcells_c. }
  destruct (mapM_spread ks wc Hks)
    as (ls & wd & Hrun & Hcomps_d & Hnd & Hfresh & Hcopies & Hold & Hdom).
  rewrite (bind_run_ok _ _ _ _ _ Hrun) in E.
  rewrite bind_run in E. unfold alloc at 1 in E.
  set (ea := fresh (dom (cells wd))) in E.
  assert (Hea : cells wd !! ea = None) by (apply not_elem_of_dom, is_fresh).
  rewrite bind_run in E. unfold getComp at 1 in E. cbn [comps set_cells] in E.
  destruct (comps wd !! x0) as [c|] eqn:Hc; [|done].
  mrun_in E. injection E as <- <-.
  assert (Hea_ls : ea ∉ ls).
  { intros Hin. apply list_elem_of_lookup in Hin as [i Hi].
    destruct (Forall2_lookup_l _ _ _ _ _ Hcopies Hi) as (e & _ & He). congruence. }
  assert (Hcopies' : Forall2 (λ l e, cells wd !! l = Some (Obj (props_of (cells w) e))) ls ks).
  { eapply Forall2_impl_r; [exact Hcopies| |].
    - apply Forall_forall. intros e He. exact He.
    - intros l e [He Hin]%list_elem_of_filter Hl. cbn beta in Hl. rewrite Hl.
      do 2 f_equal. apply props_of_ext. intros p ->.
      rewrite Forall_forall in Hsame. by apply (Hsame (VObject p)). }
  exists items, ls, ea, (with_events (Some ea) c). cbn.
  split; [done|]. split; [done|]. split; [by rewrite lookup_insert_eq|].
  split; [done|]. split; [by rewrite lookup_insert_eq|].
  split; [by apply NoDup_cons|].
  split; [|split; [|split]].
  - intros l Hl. destruct (cells w !! l) as [cl|] eqn:Hcl; [exfalso|done].
    assert (Hc1 : cells wc !! l = Some cl) by by apply Hcells_c.
    apply elem_of_cons in Hl as [->|Hl].
    + apply Hold in Hc1. congruence.
    + apply Hfresh in Hl. congruence.
  - eapply Forall2_impl; [exact Hcopies'|]. intros l e Hl. cbn beta.
    rewrite lookup_insert_ne; [done|]. intros <-. congruence.
  - intros l cl Hcl. rewrite lookup_insert_ne; [by apply Hold, Hcells_c|].
    intros <-. apply Hcells_c, Hold in Hcl. congruence.
  - intros y cy Hy. destruct (decide (y = x0)) as [->|Hne]; [congruence|].
    rewrite lookup_insert_ne by done. rewrite Hcomps_d. apply Hcomps_c; [done|].
    cbn. by rewrite !lookup_insert_ne.
Qed.

End construct_facts.

(** ** [putEvents] *)

Section putEvents_facts.
Implicit Types (w : world) (current : JS.value) (l a : loc) (cells : gmap loc cell).

Lemma set_cells_id w : set_cells (λ _, cells w) w = w.
Proof. by destruct w. Qed.

Lemma get_prop_ok o name w :
  o ≠ VUndefined → o ≠ VNull → get_prop o name w = (Ok (prop (cells w) o name), w).
Proof. intros H1 H2. unfold get_prop, prop. by repeat case_match. Qed.

Lemma prop_insert_listener cells l props v name o :
  cells !! l = Some (Obj props) → name ≠ "_listener" →
  prop (<[l := Obj (<["_listener" := v]> props)]> cells) o name = prop cells o name.
Proof.
  intros Hl Hname. unfold prop. destruct o as [| | | | |p|]; try done.
  destruct (decide (p = l)) as [->|Hne].
  - rewrite lookup_insert_eq, Hl. unfold JS.get. by rewrite lookup_insert_ne.
  - by rewrite lookup_insert_ne.
Qed.

Lemma prop_insert_listener_eq cells l props v :
  prop (<[l := Obj (<["_listener" := v]> props)]> cells) (VObject l) "_listener" = v.
Proof. unfold prop, JS.get. by rewrite !lookup_insert_eq. Qed.

(** Caching the wrapper [v] on the entry [current], then attaching it. *)
Lemma cache_and_attach this n current v w :
  truthy (prop (cells w) current "_listener") = false →
  wrapper (cells w) this current = v →
  truthy v = true →
  (∃ l props, current = VObject l ∧ cells w !! l = Some (Obj props)) →
  (set_prop current "_listener" v
   ≫= λ _, type ← get_prop current "type";
           cached ← get_prop current "_listener";
           emit (AddEventListener (uid n) type cached)) w
  = (Ok tt, logged [attach (cells w) this n current]
              (set_cells (λ _, cached_on this (cells w) current) w)).
Proof.
  intros Hcached Hv Htruthy (l & props & -> & Hl).
  rewrite bind_run. unfold set_prop. rewrite Hl.
  rewrite bind_run, get_prop_object, bind_run, get_prop_object, emit_run.
  cbn [cells set_cells]. rewrite prop_insert_listener_eq.
  rewrite (prop_insert_listener _ _ _ _ "type" _ Hl) by done.
  unfold attach, cached_on. by rewrite Hcached, Hl, Hv.
Qed.

(** One turn of the loop of [putEvents] either throws before it has written
    anything, or caches the wrapper, attaches it and returns. *)
Lemma putEvents_each_run this n current w :
  (putEvents_each this (Some n) current w
   = (Ok tt, logged [attach (cells w) this n current]
               (set_cells (λ _, cached_on this (cells w) current) w))
   ∧ truthy (wrapper (cells w) this current) = true)
  ∨ ∃ err, putEvents_each this (Some n) current w = (Throw err, w).
Proof.
  destruct (decide (current = VUndefined)) as [->|Hu]; [right; by eexists|].
  destruct (decide (current = VNull)) as [->|Hn]; [right; by eexists|].
  unfold putEvents_each. rewrite bind_run, (get_prop_ok _ _ _ Hu Hn).
  destruct (truthy (prop (cells w) current "_listener")) eqn:Hcached; cbn [negb].
  - left. mrun. rewrite (get_prop_ok _ _ _ Hu Hn), bind_run, (get_prop_ok _ _ _ Hu Hn).
    rewrite emit_run. unfold attach, wrapper, cached_on. rewrite Hcached.
    by rewrite set_cells_id.
  - rewrite bind_run, bind_run, (get_prop_ok _ _ _ Hu Hn).
    destruct (truthy (prop (cells w) current "selector")) eqn:Hsel.
    + left. assert (Hw : wrapper (cells w) this current
                         = VFunction (Delegated this (ref_of current))).
      { unfold wrapper. by rewrite Hcached, Hsel. }
      rewrite Hw. split; [|done]. mrun.
      apply cache_and_attach; [done..|]. by eapply prop_truthy.
    + rewrite !bind_run, (get_prop_ok _ _ _ Hu Hn).
      destruct (prop (cells w) current "listener") as [| | | | | |f] eqn:Hli;
        try (right; by eexists).
      left. assert (Hw : wrapper (cells w) this current
                         = VFunction (Bound this (ref_of current) f)).
      { unfold wrapper. by rewrite Hcached, Hsel, Hli. }
      rewrite Hw. split; [|done]. cbn [bind_this]. mrun.
      apply cache_and_attach; [done..|]. eapply prop_truthy. by rewrite Hli.
Qed.

(** Caching a wrapper changes neither the [type] of an entry nor the
    wrapper of any entry. *)
Lemma cached_on_prop this cells current o name :
  name ≠ "_listener" → prop (cached_on this cells current) o name = prop cells o name.
Proof.
  intros Hname. unfold cached_on. repeat case_match; try done.
  by eapply prop_insert_listener.
Qed.

Lemma cached_on_wrapper this cells current o :
  truthy (wrapper cells this current) = true →
  wrapper (cached_on this cells current) this o = wrapper cells this o.
Proof.
  intros Htruthy. unfold cached_on.
  destruct (truthy (prop cells current "_listener")) eqn:Hcached; [done|].
  destruct current as [| | | | |l|]; try done.
  destruct (cells !! l) as [[|props]|] eqn:Hl; try done.
  set (v := wrapper cells this (VObject l)) in *.
  unfold wrapper at 1.
  rewrite (prop_insert_listener _ _ _ _ "selector" _ Hl) by done.
  rewrite (prop_insert_listener _ _ _ _ "listener" _ Hl) by done.
  destruct (decide (o = VObject l)) as [->|Hne].
  - rewrite prop_insert_listener_eq, Htruthy. done.
  - assert (Hp : prop (<[l:=Obj (<["_listener":=v]> props)]> cells) o "_listener"
                 = prop cells o "_listener").
    { unfold prop. destruct o as [| | | | |p|]; try done.
      rewrite lookup_insert_ne; [done|]. congruence. }
    by rewrite Hp.
Qed.

Lemma attach_cached_on this cells current n o :
  truthy (wrapper cells this current) = true →
  attach (cached_on this cells current) this n o = attach cells this n o.
Proof.
  intros H. unfold attach. by rewrite cached_on_prop, cached_on_wrapper.
Qed.

(** The loop of [putEvents]: the wrappers of the first [k] entries are
    cached and attached, in the order of the list; all of them when the
    loop returns. *)
Lemma putEvents_forEach this n items w r w' :
  forEach (putEvents_each this (Some n)) items w = (r, w') →
  ∃ k, k ≤ length items
       ∧ (r = Ok tt → k = length items)
       ∧ w' = logged (attach (cells w) this n <$> take k items)
                (set_cells (λ _, foldl (cached_on this) (cells w) (take k items)) w).
Proof.
  revert w. induction items as [|current items IH]; intros w; cbn [forEach].
  - intros [= <- <-]. exists 0. split; [done|]. split; [done|].
    cbn. by rewrite set_cells_id, logged_nil.
  - rewrite bind_run.
    destruct (putEvents_each_run this n current w) as [[-> Htruthy]|[err ->]].
    + intros E. destruct (IH _ E) as (k & Hk & Hall & ->).
      exists (S k). split; [cbn; lia|]. split; [intros Hr; cbn; by rewrite Hall|].
      cbn [take fmap list_fmap foldl cells logged set_log set_cells].
      rewrite (list_fmap_ext (attach (cached_on this (cells w) current) this n)
                 (attach (cells w) this n))
        by (intros; by apply attach_cached_on).
      unfold logged, set_log, set_cells. cbn. by rewrite <-(assoc_L (++)).
    + intros [= <- <-]. exists 0. split; [cbn; lia|]. split; [done|].
      cbn. by rewrite set_cells_id, logged_nil.
Qed.

End putEvents_facts.

(** ** The cells the listener methods write *)

Section frame_facts.
Implicit Types (w : world) (current : JS.value) (l a : loc) (cells : gmap loc cell)
  (items : list JS.value).

Lemma refs_cons_object l items : refs (VObject l :: items) = l :: refs items.
Proof. done. Qed.

Lemma elem_of_refs l items : l ∈ refs items ↔ VObject l ∈ items.
Proof.
  unfold refs. rewrite list_elem_of_omap. split.
  - intros (v & Hv & Hl). destruct v; try done. by injection Hl as ->.
  - intros H. by exists (VObject l).
Qed.

Lemma refs_app items1 items2 : refs (items1 ++ items2) = refs items1 ++ refs items2.
Proof. unfold refs. apply omap_app. Qed.

Lemma refs_take k items l : l ∈ refs (take k items) → l ∈ refs items.
Proof. rewrite !elem_of_refs. apply subseteq_take. Qed.

Lemma refs_splice1 i items l : l ∈ refs (splice1 i items) → l ∈ refs items.
Proof.
  rewrite !elem_of_refs. unfold splice1. intros [H|H]%elem_of_app.
  - by eapply subseteq_take.
  - by eapply subseteq_drop.
Qed.

Lemma cached_on_frame this cells current :
  (∀ l, VObject l ≠ current → cached_on this cells current !! l = cells !! l)
  ∧ (∀ l its, cells !! l = Some (Arr its) → cached_on this cells current !! l = Some (Arr its))
  ∧ (∀ l, is_Some (cached_on this cells current !! l) ↔ is_Some (cells !! l)).
Proof.
  unfold cached_on. destruct (truthy (prop cells current "_listener")); [done|].
  destruct current as [| | | | |p|]; try done.
  destruct (cells !! p) as [[|props]|] eqn:Hp; try done.
  split; [|split].
  - intros l Hl. rewrite lookup_insert_ne; [done|]. congruence.
  - intros l its Hl. rewrite lookup_insert_ne; [done|]. congruence.
  - intros l. destruct (decide (l = p)) as [->|Hne].
    + rewrite lookup_insert_eq, Hp. split; eauto.
    + by rewrite lookup_insert_ne.
Qed.

Lemma foldl_cached_on_frame this items cells :
  (∀ l, l ∉ refs items → foldl (cached_on this) cells items !! l = cells !! l)
  ∧ (∀ l its, cells !! l = Some (Arr its) →
              foldl (cached_on this) cells items !! l = Some (Arr its))
  ∧ (∀ l, is_Some (foldl (cached_on this) cells items !! l) ↔ is_Some (cells !! l)).
Proof.
  revert cells. induction items as [|current items IH]; intros cells; [done|].
  cbn [foldl]. destruct (IH (cached_on this cells current)) as (IH1 & IH2 & IH3).
  destruct (cached_on_frame this cells current) as (H1 & H2 & H3).
  split; [|split].
  - intros l Hl. rewrite IH1, H1; [done| |].
    + intros <-. apply Hl. rewrite refs_cons_object. by left.
    + intros Hin. apply Hl. rewrite elem_of_refs in *. by right.
  - intros l its Hl. by apply IH2, H2.
  - intros l. by rewrite IH3, H3.
Qed.

(** [putEvents] on an instance that has a list of events and an element to
    attach them to. *)
Lemma putEvents_run this el n w c a items :
  comps w !! this = Some c →
  events c = Some a →
  cells w !! a = Some (Arr items) →
  match el with Some n' => Some n' | None => element c end = Some n →
  ∃ k, k ≤ length items
       ∧ ((putEvents this el w).1 = Ok tt → k = length items)
       ∧ (putEvents this el w).2
         = logged (attach (cells w) this n <$> take k items)
             (set_cells (λ _, foldl (cached_on this) (cells w) (take k items)) w).
Proof.
  intros Hc Ha Hitems Hel. unfold putEvents.
  rewrite (bind_run_ok _ _ _ _ _ (getComp_run _ _ _ Hc)). cbv zeta. rewrite Ha, Hel.
  rewrite (bind_run_ok _ _ _ _ _ (items_of_run _ _ _ Hitems)).
  destruct (forEach (putEvents_each this (Some n)) items w) as [r w'] eqn:E.
  destruct (putEvents_forEach _ _ _ _ _ _ E) as (k & Hk & Hall & ->).
  exists k. split; [done|]. split; [|done]. cbn. intros ->. by apply Hall.
Qed.

(** [addEventListener] on an instance that has its list: the instances are
    as they were; the list is still an array, whose entries are the old ones
    and a new object; the cells that were there, apart from the list and its
    entries, are as they were. *)
Lemma addEventListener_frame x type listener selector w c ex items :
  comps w !! x = Some c →
  events c = Some ex →
  cells w !! ex = Some (Arr items) →
  let w' := (addEventListener x type listener selector w).2 in
  comps w' = comps w
  ∧ (∃ items', cells w' !! ex = Some (Arr items')
               ∧ ∀ l, l ∈ refs items' →
                      l ∈ refs items ∨ (cells w !! l = None ∧ is_Some (cells w' !! l)))
  ∧ (∀ l, is_Some (cells w !! l) → l ≠ ex → l ∉ refs items →
          cells w' !! l = cells w !! l)
  ∧ (∀ l, is_Some (cells w !! l) → is_Some (cells w' !! l)).
Proof.
  intros Hc Hex Hitems w'. subst w'.
  destruct (addEventListener x type listener selector w) as [r w'] eqn:E. cbn [snd].
  unfold addEventListener in E. cbv zeta in E.
  rewrite (bind_run_ok _ _ _ _ _ (getComp_run _ _ _ Hc)), Hex in E. mrun_in E.
  unfold alloc at 1 in E.
  set (e := fresh (dom (cells w))) in E.
  assert (He : cells w !! e = None) by (apply not_elem_of_dom, is_fresh).
  assert (Hne : ex ≠ e) by congruence.
  set (w1 := set_cells _ w) in E.
  assert (Hitems1 : cells w1 !! ex = Some (Arr items)).
  { cbn. by rewrite lookup_insert_ne. }
  rewrite bind_run in E. unfold push at 1 in E.
  rewrite (bind_run_ok _ _ _ _ _ (items_of_run _ _ _ Hitems1)) in E. mrun_in E.
  set (w2 := set_cells _ w1) in E.
  assert (Hitems2 : cells w2 !! ex = Some (Arr (items ++ [VObject e]))).
  { cbn. by rewrite lookup_insert_eq. }
  assert (Hrefs2 : ∀ l, l ∈ refs (items ++ [VObject e]) → l ∈ refs items ∨ l = e).
  { intros l. rewrite refs_app, elem_of_app. intros [H|H]; [by left|right].
    by apply list_elem_of_singleton in H. }
  assert (Hw2 : ∀ l, l ≠ ex → l ≠ e → cells w2 !! l = cells w !! l).
  { intros l H1 H2. cbn. by rewrite !lookup_insert_ne. }
  assert (Hdom2 : ∀ l, is_Some (cells w !! l) → is_Some (cells w2 !! l)).
  { intros l Hl. destruct (decide (l = ex)) as [->|H1]; [by rewrite Hitems2|].
    rewrite Hw2; [done..|]. intros ->. rewrite He in Hl. by destruct Hl. }
  destruct (element c) as [n|] eqn:Hel.
  - assert (Hc2 : comps w2 !! x = Some c) by done.
    destruct (putEvents_run x None n w2 c ex _ Hc2 Hex Hitems2 Hel)
      as (k & _ & _ & Hrun).
    rewrite E in Hrun. cbn [snd] in Hrun. subst w'.
    destruct (foldl_cached_on_frame x (take k (items ++ [VObject e])) (cells w2))
      as (H1 & H2 & H3).
    cbn [comps cells logged set_log set_cells].
    split; [done|]. split; [|split].
    + exists (items ++ [VObject e]). split; [by apply H2|].
      intros l [Hl| ->]%Hrefs2; [by left|right]. split; [done|].
      apply H3. cbn. rewrite lookup_insert_ne by done. by rewrite lookup_insert_eq.
    + intros l Hl Hlex Hlrefs. rewrite H1.
      * apply Hw2; [done|]. intros ->. rewrite He in Hl. by destruct Hl.
      * intros [Hin| ->]%refs_take%Hrefs2; [done|]. rewrite He in Hl. by destruct Hl.
    + intros l Hl. apply H3. by apply Hdom2.
  - injection E as _ <-. split; [done|]. split; [|split].
    + exists (items ++ [VObject e]). split; [done|].
      intros l [Hl| ->]%Hrefs2; [by left|right]. split; [done|].
      cbn. rewrite lookup_insert_ne by done. by rewrite lookup_insert_eq.
    + intros l Hl Hlex Hlrefs. apply Hw2; [done|]. intros ->. rewrite He in Hl.
      by destruct Hl.
    + done.
Qed.

End frame_facts.

Section removeEventListener_facts.
Implicit Types (w : world) (l a : loc) (items : list JS.value).

#[local] Instance same_but_log_preorder : PreOrder same_but_log.
Proof.
  unfold same_but_log. split; [done|].
  intros w1 w2 w3 (?&?&?&?) (?&?&?&?). repeat split; congruence.
Qed.

Lemma same_but_log_emit e : respects same_but_log (emit e).
Proof. done. Qed.

(** [removeEventListener] on an instance that has its list: the instances
    are as they were; the list is still an array, with no entry that was not
    there; no other cell is written. *)
Lemma removeEventListener_frame x type listener selector w c ex items :
  comps w !! x = Some c →
  events c = Some ex →
  cells w !! ex = Some (Arr items) →
  let w' := (removeEventListener x type listener selector w).2 in
  comps w' = comps w
  ∧ (∃ items', cells w' !! ex = Some (Arr items')
               ∧ ∀ l, l ∈ refs items' → l ∈ refs items)
  ∧ (∀ l, l ≠ ex → cells w' !! l = cells w !! l).
Proof.
  intros Hc Hex Hitems w'. subst w'.
  destruct (removeEventListener x type listener selector w) as [r w'] eqn:E. cbn [snd].
  unfold removeEventListener in E. cbv zeta in E.
  rewrite (bind_run_ok _ _ _ _ _ (getComp_run _ _ _ Hc)), Hex in E.
  rewrite (bind_run_ok _ _ _ _ _ (items_of_run _ _ _ Hitems)) in E.
  rewrite bind_run in E.
  match type of E with
  | context [findIndex ?p items w] =>
      assert (Hfind : (findIndex p items w).2 = w);
      [|destruct (findIndex p items w) as [[[i|]|err] w1]; cbn [snd] in Hfind; subst w1]
  end.
  { symmetry. apply (respects_findIndex eq). intros event. respects_tac. }
  - rewrite bind_run in E.
    match type of E with
    | context [match ?m w with _ => _ end] =>
        assert (Hmid : respects same_but_log m)
          by (respects_tac; apply same_but_log_emit);
        specialize (Hmid w); destruct (m w) as [[[]|err] w1]
    end; destruct Hmid as (Hcells & Hcomps & _); cbn [snd] in Hcells, Hcomps.
    + injection E as _ <-. cbn. split; [done|]. split.
      * exists (splice1 i items). rewrite lookup_insert_eq. split; [done|].
        apply refs_splice1.
      * intros l Hl. by rewrite lookup_insert_ne, Hcells.
    + injection E as _ <-. cbn in *. split; [done|]. rewrite Hcells.
      split; [by exists items|done].
  - injection E as _ <-. split; [done|]. split; [by exists items|done].
  - injection E as _ <-. split; [done|]. split; [by exists items|done].
Qed.

End removeEventListener_facts.

(** ** Lists of events that share no cell *)

Section separation_facts.
Implicit Types (w : world) (l a x ex : loc) (items : list JS.value) (G : gset loc).

Lemma elem_of_footprint cells a l :
  l ∈ footprint cells a
  ↔ l = a ∨ ∃ items, cells !! a = Some (Arr items) ∧ l ∈ refs items.
Proof.
  unfold footprint. rewrite elem_of_union, elem_of_singleton.
  destruct (cells !! a) as [[items|props]|].
  - rewrite elem_of_list_to_set. split; intros [H|H]; auto.
    + right. by exists items.
    + destruct H as (items' & [= <-] & H). by right.
  - split; intros [H|H]; auto; [by apply not_elem_of_empty in H|by destruct H as (? & ? & _)].
  - split; intros [H|H]; auto; [by apply not_elem_of_empty in H|by destruct H as (? & ? & _)].
Qed.

Lemma listing_ext cells cells' a :
  (∀ l, l ∈ footprint cells a → cells' !! l = cells !! l) →
  listing cells' a = listing cells a.
Proof.
  intros H. unfold listing.
  rewrite (H a) by (apply elem_of_footprint; by left).
  destruct (cells !! a) as [[items|props]|] eqn:Ha; try done.
  f_equal. f_equal. apply list_fmap_ext. intros i v Hv.
  destruct v as [| | | | |l|]; try done. apply H, elem_of_footprint. right.
  exists items. split; [done|]. apply elem_of_refs. by eapply list_elem_of_lookup_2.
Qed.

Lemma footprint_ext cells cells' a :
  cells' !! a = cells !! a → footprint cells' a = footprint cells a.
Proof. unfold footprint. by intros ->. Qed.

(** A call of [addEventListener] or [removeEventListener] on [x] writes
    nothing outside the list of [x], its entries, and cells that were not
    there. *)
Lemma listener_call_frame x ex call G w :
  has_events w x ex →
  is_listener_call call →
  (∀ l, l ∈ G → is_Some (cells w !! l)) →
  footprint (cells w) ex ## G →
  comps (perform x call w) = comps w
  ∧ has_events (perform x call w) x ex
  ∧ (∀ l, l ∈ G → cells (perform x call w) !! l = cells w !! l)
  ∧ footprint (cells (perform x call w)) ex ## G.
Proof.
  intros (c & items & Hc & Hex & Hitems & Hclosed) Hcall HG Hdisj.
  assert (HexG : ex ∉ G).
  { intros Hin. apply (Hdisj ex); [|done]. apply elem_of_footprint. by left. }
  assert (HrefsG : ∀ l, l ∈ refs items → l ∉ G).
  { intros l Hl Hin. apply (Hdisj l); [|done]. apply elem_of_footprint. right.
    by exists items. }
  destruct call as [| | | | | | | |type listener selector|type listener selector];
    try done; cbn [perform].
  - destruct (addEventListener_frame x type listener selector w c ex items Hc Hex Hitems)
      as (Hcomps & (items' & Hitems' & Hrefs') & Hframe & Hdom).
    split; [done|]. split; [|split].
    + exists c, items'. rewrite Hcomps. split; [done|]. split; [done|]. split; [done|].
      intros l Hl. destruct (Hrefs' l Hl) as [Hold|[_ Hnew]]; [|done].
      by apply Hdom, Hclosed.
    + intros l Hl. apply Hframe; [by apply HG|congruence|]. intros Hin.
      by apply (HrefsG l).
    + intros l [->|(its & Hits & Hl)]%elem_of_footprint Hin; [done|].
      rewrite Hitems' in Hits. injection Hits as <-.
      destruct (Hrefs' l Hl) as [Hold|[Hnew _]]; [by apply (HrefsG l)|].
      destruct (HG l Hin) as [cl Hcl]. congruence.
  - destruct (removeEventListener_frame x type listener selector w c ex items Hc Hex Hitems)
      as (Hcomps & (items' & Hitems' & Hrefs') & Hframe).
    split; [done|]. split; [|split].
    + exists c, items'. rewrite Hcomps. split; [done|]. split; [done|]. split; [done|].
      intros l Hl. destruct (decide (l = ex)) as [->|Hne]; [by rewrite Hitems'|].
      rewrite Hframe by done. by apply Hclosed, Hrefs'.
    + intros l Hl. apply Hframe. congruence.
    + intros l [->|(its & Hits & Hl)]%elem_of_footprint Hin; [done|].
      rewrite Hitems' in Hits. injection Hits as <-.
      exact (HrefsG l (Hrefs' l Hl) Hin).
Qed.

End separation_facts.

Section two_instances.
Import CreateComponent.
Implicit Types (w : world) (l a b x ea eb : loc) (G : gset loc).

Lemma refs_fmap_VObject (ls : list loc) : refs (VObject <$> ls) = ls.
Proof.
  induction ls as [|l ls IH]; [done|].
  change (refs (VObject <$> l :: ls)) with (l :: refs (VObject <$> ls)). by rewrite IH.
Qed.

Lemma closed_list_allocated cells a l :
  closed_list cells a → l ∈ footprint cells a → is_Some (cells !! l).
Proof.
  intros (items & Ha & Hclosed) [->|(its & Hits & Hl)]%elem_of_footprint; [by rewrite Ha|].
  rewrite Ha in Hits. injection Hits as <-.
  apply elem_of_refs in Hl. rewrite Forall_forall in Hclosed. by apply (Hclosed _ Hl).
Qed.

Lemma closed_list_preserved cells cells' a :
  closed_list cells a → (∀ l c, cells !! l = Some c → cells' !! l = Some c) →
  closed_list cells' a.
Proof.
  intros (items & Ha & Hclosed) Hpres. exists items. split; [by apply Hpres|].
  eapply Forall_impl; [exact Hclosed|]. intros v Hv. destruct v; try done.
  destruct Hv as [c Hc]. exists c. by apply Hpres.
Qed.

(** The list of a new instance, as [construct_inv] describes it. *)
Lemma construct_has_events k w x w' :
  definitions_frame (definitions k) →
  closed_list (cells w) (events k) →
  construct k w = (Ok x, w') →
  ∃ ex, has_events w' x ex
        ∧ comps w !! x = None
        ∧ (∀ l, l ∈ footprint (cells w') ex → cells w !! l = None)
        ∧ (∀ l c, cells w !! l = Some c → cells w' !! l = Some c)
        ∧ (∀ y cy, comps w !! y = Some cy → comps w' !! y = Some cy).
Proof.
  intros Hframe Hclosed E.
  destruct (construct_inv k w x w' Hframe Hclosed E)
    as (items & ls & ex & c & Hitems & Hx & Hc & Hex & Harr & Hnd & Hfresh & Hcopies
        & Hcells & Hcomps).
  exists ex. split; [|split; [done|split; [|done]]].
  - exists c, (VObject <$> ls). split; [done|]. split; [done|]. split; [done|].
    intros l Hl. rewrite refs_fmap_VObject in Hl.
    apply list_elem_of_lookup in Hl as [i Hi].
    destruct (Forall2_lookup_l _ _ _ _ _ Hcopies Hi) as (e & _ & He). by rewrite He.
  - intros l [->|(its & Hits & Hl)]%elem_of_footprint.
    + apply Hfresh. by left.
    + rewrite Harr in Hits. injection Hits as <-. rewrite refs_fmap_VObject in Hl.
      apply Hfresh. by right.
Qed.

Lemma has_events_preserved w w' x ex :
  has_events w x ex →
  (∀ l c, cells w !! l = Some c → cells w' !! l = Some c) →
  (∀ y cy, comps w !! y = Some cy → comps w' !! y = Some cy) →
  has_events w' x ex ∧ footprint (cells w') ex = footprint (cells w) ex.
Proof.
  intros (c & items & Hc & Hex & Hitems & Hclosed) Hcells Hcomps. split.
  - exists c, items. split; [by apply Hcomps|]. split; [done|]. split; [by apply Hcells|].
    intros l Hl. destruct (Hclosed l Hl) as [cl Hcl]. exists cl. by apply Hcells.
  - apply footprint_ext. rewrite Hitems. by apply Hcells.
Qed.

Lemma has_events_allocated w x ex l :
  has_events w x ex → l ∈ footprint (cells w) ex → is_Some (cells w !! l).
Proof.
  intros (c & items & Hc & Hex & Hitems & Hclosed).
  intros [->|(its & Hits & Hl)]%elem_of_footprint; [by rewrite Hitems|].
  rewrite Hitems in Hits. injection Hits as <-. by apply Hclosed.
Qed.

(** Two instances made one after the other have lists that share no cell
    with each other nor with the list of the kind, which is as it was. *)
Lemma construct_twice_separate k w0 a w1 b w2 :
  definitions_frame (definitions k) →
  closed_list (cells w0) (events k) →
  construct k w0 = (Ok a, w1) →
  construct k w1 = (Ok b, w2) →
  ∃ ea eb,
    a ≠ b
    ∧ separate w2 a b ea eb (footprint (cells w0) (events k))
    ∧ ∀ l, l ∈ footprint (cells w0) (events k) → cells w2 !! l = cells w0 !! l.
Proof.
  intros Hframe Hclosed Ea Eb.
  destruct (construct_has_events k w0 a w1 Hframe Hclosed Ea)
    as (ea & Hea & Ha0 & Hfresh_a & Hcells1 & Hcomps1).
  assert (Hclosed1 : closed_list (cells w1) (events k))
    by by eapply closed_list_preserved.
  destruct (construct_has_events k w1 b w2 Hframe Hclosed1 Eb)
    as (eb & Heb & Hb1 & Hfresh_b & Hcells2 & Hcomps2).
  destruct (has_events_preserved w1 w2 a ea Hea Hcells2 Hcomps2) as [Hea2 Hfp].
  exists ea, eb. split; [|split].
  - intros ->. destruct Hea as (c & _ & Hc & _). congruence.
  - split; [done|]. split; [done|]. split; [|split; [|split]].
    + intros l Hla Hlb. rewrite Hfp in Hla.
      destruct (has_events_allocated w1 a ea l Hea Hla) as [c Hc].
      rewrite (Hfresh_b l Hlb) in Hc. done.
    + intros l Hla Hl. rewrite Hfp in Hla.
      destruct (closed_list_allocated _ _ l Hclosed Hl) as [c Hc].
      rewrite (Hfresh_a l Hla) in Hc. done.
    + intros l Hlb Hl.
      destruct (closed_list_allocated _ _ l Hclosed Hl) as [c Hc].
      apply Hcells1 in Hc. rewrite (Hfresh_b l Hlb) in Hc. done.
    + intros l Hl. destruct (closed_list_allocated _ _ l Hclosed Hl) as [c Hc].
      exists c. by apply Hcells2, Hcells1.
  - intros l Hl. destruct (closed_list_allocated _ _ l Hclosed Hl) as [c Hc].
    rewrite Hc. by apply Hcells2, Hcells1.
Qed.

Lemma separate_sym w a b ea eb G : separate w a b ea eb G → separate w b a eb ea G.
Proof. intros (?&?&?&?&?&?). by repeat split. Qed.

(** One call of [addEventListener] or [removeEventListener] on [a] keeps
    the lists apart, and leaves alone the instance [b], every cell of its
    list, and every cell of [G]. *)
Lemma separate_step w a b ea eb G call :
  a ≠ b →
  separate w a b ea eb G →
  is_listener_call call →
  separate (perform a call w) a b ea eb G
  ∧ comps (perform a call w) !! b = comps w !! b
  ∧ (∀ l, l ∈ footprint (cells w) eb ∪ G → cells (perform a call w) !! l = cells w !! l).
Proof.
  intros Hab (Ha & Hb & Hdab & HdaG & HdbG & HG) Hcall.
  destruct (listener_call_frame a ea call (footprint (cells w) eb ∪ G) w Ha Hcall)
    as (Hcomps & Ha' & Hsame & Hdisj').
  { intros l [Hl|Hl]%elem_of_union; [by eapply has_events_allocated|by apply HG]. }
  { by apply disjoint_union_r. }
  assert (Hfp : footprint (cells (perform a call w)) eb = footprint (cells w) eb).
  { apply footprint_ext, Hsame, elem_of_union. left. apply elem_of_footprint. by left. }
  apply disjoint_union_r in Hdisj' as [Hdab' HdaG'].
  split; [|split; [by rewrite Hcomps|done]].
  split; [done|]. split; [|split; [by rewrite Hfp|split; [done|split; [by rewrite Hfp|]]]].
  - destruct Hb as (c & items & Hc & Hex & Hitems & Hclosed).
    exists c, items. rewrite Hcomps. split; [done|]. split; [done|].
    assert (Hin : ∀ l, l = eb ∨ l ∈ refs items → l ∈ footprint (cells w) eb ∪ G).
    { intros l Hl. apply elem_of_union. left. apply elem_of_footprint.
      destruct Hl as [->|Hl]; [by left|right; by exists items]. }
    split; [rewrite Hsame; [done|apply Hin; by left]|].
    intros l Hl. rewrite Hsame; [by apply Hclosed|apply Hin; by right].
  - intros l Hl. rewrite Hsame; [by apply HG|]. apply elem_of_union. by right.
Qed.

(** Any sequence of such calls, on [a] or on [b]. *)
Lemma separate_perform_all calls w a b ea eb G :
  a ≠ b →
  separate w a b ea eb G →
  Forall (λ tc, (tc.1 = a ∨ tc.1 = b) ∧ is_listener_call tc.2) calls →
  separate (perform_all calls w) a b ea eb G
  ∧ ∀ l, l ∈ G → cells (perform_all calls w) !! l = cells w !! l.
Proof.
  intros Hab Hsep Hcalls. revert w Hsep.
  induction Hcalls as [|[t call] calls [Ht Hcall] _ IH]; intros w Hsep; [done|].
  cbn [perform_all foldl fst snd] in *.
  assert (Hstep : separate (perform t call w) a b ea eb G
                  ∧ ∀ l, l ∈ G → cells (perform t call w) !! l = cells w !! l).
  { destruct Ht as [->| ->].
    - destruct (separate_step w a b ea eb G call Hab Hsep Hcall) as (H1 & _ & H2).
      split; [done|]. intros l Hl. apply H2, elem_of_union. by right.
    - destruct (separate_step w b a eb ea G call (not_eq_sym Hab)
                  (separate_sym _ _ _ _ _ _ Hsep) Hcall) as (H1 & _ & H2).
      split; [by apply separate_sym|]. intros l Hl. apply H2, elem_of_union. by right. }
  destruct Hstep as [Hsep' Hsame]. destruct (IH _ Hsep') as [Hsep'' Hsame'].
  split; [done|]. intros l Hl. rewrite Hsame' by done. by apply Hsame.
Qed.

End two_instances.

(** ** What the other methods write *)

Section quiet_calls.
Implicit Types (w : world) (l a x ex : loc) (items : list JS.value) (G : gset loc)
  (L : list loc).

#[local] Instance writes_in_preorder L : PreOrder (writes_in L).
Proof.
  split.
  - intros w. by repeat split.
  - intros w1 w2 w3 (Hc1 & Hd1 & Ha1 & Hf1) (Hc2 & Hd2 & Ha2 & Hf2).
    split; [congruence|]. split; [|split].
    + intros l. by rewrite Hd2, Hd1.
    + intros l items. by rewrite Ha2, Ha1.
    + intros l Hl. by rewrite Hf2, Hf1.
Qed.

Lemma writes_in_same L w w' :
  comps w' = comps w → cells w' = cells w → writes_in L w w'.
Proof. intros Hc Hcells. unfold writes_in. rewrite Hc, Hcells. by repeat split. Qed.

Lemma writes_in_emit L e : respects (writes_in L) (emit e).
Proof. intros w. by apply writes_in_same. Qed.

Lemma writes_in_set_prop L current name v :
  (∀ l, current = VObject l → l ∈ L) →
  respects (writes_in L) (set_prop current name v).
Proof.
  intros Hin w. unfold set_prop.
  destruct current as [| | | | |p|]; try reflexivity.
  destruct (cells w !! p) as [[its|props]|] eqn:Hp; try reflexivity.
  cbn [snd]. split; [done|]. cbn [cells set_cells]. split; [|split].
  - intros l. destruct (decide (l = p)) as [->|Hne].
    + rewrite lookup_insert_eq, Hp. split; eauto.
    + by rewrite lookup_insert_ne.
  - intros l items. destruct (decide (l = p)) as [->|Hne].
    + rewrite lookup_insert_eq, Hp. split; intros [=].
    + by rewrite lookup_insert_ne.
  - intros l Hl. rewrite lookup_insert_ne; [done|]. intros <-. by apply Hl, Hin.
Qed.

Lemma writes_in_bind_this L this current listener :
  respects (writes_in L) (bind_this this current listener).
Proof. unfold bind_this. respects_tac. Qed.

Lemma writes_in_putEvents_each L this el current :
  (∀ l, current = VObject l → l ∈ L) →
  respects (writes_in L) (putEvents_each this el current).
Proof.
  intros Hin. unfold putEvents_each.
  respects_tac;
    first [apply writes_in_emit|apply writes_in_bind_this|by apply writes_in_set_prop].
Qed.

Lemma respects_forEach_in {A} (R : relation world) `{!PreOrder R} (f : A → M unit)
    (xs : list A) :
  (∀ item, item ∈ xs → respects R (f item)) → respects R (forEach f xs).
Proof.
  induction xs as [|item xs IH]; intros Hf; cbn [forEach].
  - by apply respects_ret.
  - apply respects_bind; [done|apply Hf; by left|intros _].
    apply IH. intros item' Hin. apply Hf. by right.
Qed.

#[local] Instance caches_only_preorder : PreOrder caches_only.
Proof.
  split.
  - intros w. by repeat split.
  - intros w1 w2 w3 (Hc1 & Hd1 & Ha1 & Hf1) (Hc2 & Hd2 & Ha2 & Hf2).
    split; [|split; [|split]].
    + intros y. by rewrite Hc2, Hc1.
    + intros l. by rewrite Hd2, Hd1.
    + intros l items. by rewrite Ha2, Ha1.
    + intros l Hl. rewrite Hf2, Hf1; [done..|].
      intros (y & c & ay & items & Hy & Hev & Hay & Hin). apply Hl.
      specialize (Hc1 y). rewrite Hy in Hc1.
      destruct (comps w1 !! y) as [c1|] eqn:Hy1; cbn in Hc1; [|done].
      injection Hc1 as Hc1. exists y, c1, ay, items.
      split; [done|]. split; [congruence|]. split; [by apply Ha1|done].
Qed.

Lemma caches_only_same w w' :
  comps w' = comps w → cells w' = cells w → caches_only w w'.
Proof. intros Hc Hcells. unfold caches_only. rewrite Hc, Hcells. by repeat split. Qed.

Lemma caches_only_setComp w this c :
  events <$> (comps w !! this) = Some (events c) →
  caches_only w (set_comps (insert this c) w).
Proof.
  intros Hev. split; [|by repeat split].
  intros y. cbn. destruct (decide (y = this)) as [->|Hne].
  - by rewrite lookup_insert_eq, Hev.
  - by rewrite lookup_insert_ne.
Qed.

Lemma caches_only_emit e : respects caches_only (emit e).
Proof. intros w. by apply caches_only_same. Qed.

Lemma caches_only_cloneNode n : respects caches_only (cloneNode n).
Proof.
  intros w. unfold cloneNode. destruct (Dom.cloneNode n (clones w)).
  by apply caches_only_same.
Qed.

Lemma caches_only_lift_run r : respects caches_only (lift_run r).
Proof.
  intros w. unfold lift_run. destruct r as [calls [e|]]; by apply caches_only_same.
Qed.

(** [putEvents] writes the entries of the list of [this], and nothing else. *)
Lemma caches_only_putEvents this el : respects caches_only (putEvents this el).
Proof.
  intros w. unfold putEvents. rewrite bind_run. unfold getComp at 1.
  destruct (comps w !! this) as [c|] eqn:Hc; [|reflexivity].
  cbv zeta. destruct (events c) as [a|] eqn:Ha; [|reflexivity].
  rewrite bind_run. unfold items_of at 1.
  destruct (cells w !! a) as [[items|props]|] eqn:Hitems; try reflexivity.
  match goal with
  | |- caches_only w (forEach ?f items w).2 =>
      assert (H : respects (writes_in (refs items)) (forEach f items))
  end.
  { apply respects_forEach_in; [apply _|]. intros current Hcur.
    apply writes_in_putEvents_each. intros l ->. by apply elem_of_refs. }
  destruct (H w) as (Hcomps & Hdom & Harr & Hframe).
  split; [|split; [|split]]; [|done|done|].
  - intros y. by rewrite Hcomps.
  - intros l Hl. apply Hframe. intros Hin. apply Hl. by exists this, c, a, items.
Qed.

Lemma caches_only_putEvents_of n : respects caches_only (putEvents_of n).
Proof.
  unfold putEvents_of.
  destruct (component n); [apply caches_only_putEvents|].
  apply respects_throw, _.
Qed.

Lemma caches_only_copyNode into node : respects caches_only (copyNode into node).
Proof.
  apply respects_copyNode;
    [apply _|apply caches_only_emit|apply caches_only_cloneNode
    |apply caches_only_putEvents_of].
Qed.

Lemma caches_only_render this : respects caches_only (render this).
Proof.
  intros w. unfold render. rewrite bind_run. unfold getComp at 1.
  destruct (comps w !! this) as [c|] eqn:Hc; [|reflexivity].
  destruct (template c) as [t|]; [|reflexivity].
  mrun.
  set (w1 := set_renders _ w).
  assert (H1 : caches_only w w1) by by apply caches_only_same.
  set (newTemp := set_component _ _).
  destruct (element c) as [el|].
  - destruct (isEqualNode el newTemp); cbn [negb]; [done|].
    rewrite bind_run.
    pose proof (caches_only_copyNode el newTemp w1) as H2.
    destruct (copyNode el newTemp w1) as [[node|e] w2]; cbn [snd] in H2;
      [|by etrans].
    mrun. etrans; [exact H1|]. etrans; [exact H2|].
    etrans; [|apply caches_only_putEvents].
    apply caches_only_setComp. destruct H2 as [H2 _]. rewrite H2. cbn.
    by rewrite Hc.
  - mrun. etrans; [exact H1|]. etrans; [|apply caches_only_putEvents].
    apply caches_only_setComp. cbn. by rewrite Hc.
Qed.

Lemma caches_only_setState this newState : respects caches_only (setState this newState).
Proof.
  intros w. unfold setState. rewrite bind_run. unfold getComp at 1.
  destruct (comps w !! this) as [c|] eqn:Hc; [|reflexivity].
  cbv zeta. destruct (filter_change _ _ _) as [changed s].
  rewrite bind_run. cbn [setComp modify].
  etrans; [apply (caches_only_setComp w this (with_state s c)); by rewrite Hc|].
  match goal with
  | |- caches_only ?w1 (?m ?w1).2 => assert (H : respects caches_only m); [|apply H]
  end.
  respects_tac;
    first [apply caches_only_lift_run|apply caches_only_render].
Qed.

Lemma caches_only_get this props : respects caches_only (get this props).
Proof.
  intros w. unfold get. cbv zeta. rewrite bind_run. unfold getComp at 1.
  destruct (comps w !! this) as [c|] eqn:Hc; [|reflexivity].
  rewrite bind_run. cbn [setComp modify].
  etrans; [apply (caches_only_setComp w this (with_props (default ∅ props) c));
           by rewrite Hc|].
  match goal with
  | |- caches_only ?w1 (?m ?w1).2 => assert (H : respects caches_only m); [|apply H]
  end.
  respects_tac. apply caches_only_render.
Qed.

Lemma caches_only_state this : respects caches_only (state this).
Proof. unfold state. respects_tac. Qed.

Lemma caches_only_effects this (f : Component → result EffectHandler.t) :
  respects caches_only
    (c ← getComp this;
     match f c with
     | Ok h => setComp this (with_sideEffects h c)
     | Throw e => throw e
     end).
Proof.
  intros w. rewrite bind_run. unfold getComp at 1.
  destruct (comps w !! this) as [c|] eqn:Hc; [|reflexivity].
  destruct (f c) as [h|e]; [|reflexivity].
  apply caches_only_setComp. by rewrite Hc.
Qed.

Lemma caches_only_off this (f : Component → bool * EffectHandler.t) :
  respects caches_only
    (c ← getComp this;
     let '(b, h) := f c in
     setComp this (with_sideEffects h c);; mret b).
Proof.
  intros w. rewrite bind_run. unfold getComp at 1.
  destruct (comps w !! this) as [c|] eqn:Hc; [|reflexivity].
  destruct (f c) as [b h]. mrun.
  apply caches_only_setComp. by rewrite Hc.
Qed.

(** A call of a method other than [addEventListener] and
    [removeEventListener]. *)
Lemma caches_only_perform t call w :
  ¬ is_listener_call call → caches_only w (perform t call w).
Proof.
  destruct call; cbn [perform is_listener_call]; intros Hcall; try done.
  - apply caches_only_setState.
  - apply caches_only_render.
  - apply caches_only_get.
  - apply caches_only_state.
  - apply (caches_only_effects t (λ c, EffectHandler.add key action (sideEffects c))).
  - apply (caches_only_effects t (λ c, EffectHandler.addGlobal action (sideEffects c))).
  - apply (caches_only_off t
             (λ c, EffectHandler.remove key (Some (default (VBool false) action))
                     (sideEffects c))).
  - apply (caches_only_off t
             (λ c, EffectHandler.removeGlobal (Some (default (VBool false) action))
                     (sideEffects c))).
Qed.

Lemma caches_only_footprint w w' a :
  caches_only w w' → footprint (cells w') a = footprint (cells w) a.
Proof.
  intros (_ & _ & Harr & _). unfold footprint.
  destruct (cells w !! a) as [[items|props]|] eqn:Ha.
  - by rewrite (proj2 (Harr a items) Ha).
  - destruct (cells w' !! a) as [[items'|props']|] eqn:Ha'; try done.
    apply Harr in Ha'. congruence.
  - destruct (cells w' !! a) as [[items'|props']|] eqn:Ha'; try done.
    apply Harr in Ha'. congruence.
Qed.

Lemma caches_only_has_events w w' x ex :
  caches_only w w' → has_events w x ex → has_events w' x ex.
Proof.
  intros (Hev & Hdom & Harr & _) (c & items & Hc & Hex & Hitems & Hclosed).
  specialize (Hev x). rewrite Hc in Hev.
  destruct (comps w' !! x) as [c'|] eqn:Hc'; cbn in Hev; [|done]. injection Hev as Hev.
  exists c', items. split; [done|]. split; [congruence|]. split; [by apply Harr|].
  intros l Hl. by apply Hdom, Hclosed.
Qed.

Lemma caches_only_separate w w' a b ea eb G :
  caches_only w w' → separate w a b ea eb G → separate w' a b ea eb G.
Proof.
  intros H (Ha & Hb & Hab & HaG & HbG & HG).
  unfold separate.
  rewrite (caches_only_footprint w w' ea H), (caches_only_footprint w w' eb H).
  split; [by eapply caches_only_has_events|].
  split; [by eapply caches_only_has_events|].
  do 3 (split; [done|]).
  intros l Hl. destruct H as (_ & Hdom & _). by apply Hdom, HG.
Qed.

Lemma caches_only_entry_of w w' l : caches_only w w' → entry_of w' l → entry_of w l.
Proof.
  intros (Hev & _ & Harr & _) (y & c & ay & items & Hy & Hay & Hitems & Hin).
  specialize (Hev y). rewrite Hy in Hev.
  destruct (comps w !! y) as [c0|] eqn:Hy0; cbn in Hev; [|done]. injection Hev as Hev.
  exists y, c0, ay, items. split; [done|]. split; [congruence|].
  split; [by apply Harr|done].
Qed.

Lemma caches_only_unlisted w w' G :
  caches_only w w' → unlisted G w →
  unlisted G w' ∧ ∀ l, l ∈ G → cells w' !! l = cells w !! l.
Proof.
  intros H HG. split.
  - intros l Hl. by eapply HG, caches_only_entry_of.
  - intros l Hl. destruct H as (_ & _ & _ & Hframe). apply Hframe.
    intros Hentry. by apply (HG l).
Qed.

End quiet_calls.

(** ** Arrays under the listener methods *)

Section listener_calls.
Implicit Types (w : world) (l a x ex : loc) (items : list JS.value) (G : gset loc).

#[local] Instance no_new_array_preorder ex : PreOrder (no_new_array ex).
Proof.
  split.
  - by intros w l items.
  - intros w1 w2 w3 H1 H2 l items Hl H3. by apply H1, H2.
Qed.

Lemma no_new_array_same ex w w' : cells w' = cells w → no_new_array ex w w'.
Proof. intros H l items _. by rewrite H. Qed.

Lemma no_new_array_emit ex e : respects (no_new_array ex) (emit e).
Proof. intros w. by apply no_new_array_same. Qed.

Lemma no_new_array_set_prop ex o name v : respects (no_new_array ex) (set_prop o name v).
Proof.
  intros w. unfold set_prop. destruct o as [| | | | |p|]; try reflexivity.
  destruct (cells w !! p) as [[its|props]|] eqn:Hp; try reflexivity.
  intros l items _. cbn. destruct (decide (l = p)) as [->|Hne].
  - by rewrite lookup_insert_eq.
  - by rewrite lookup_insert_ne.
Qed.

Lemma no_new_array_alloc ex props : respects (no_new_array ex) (alloc (Obj props)).
Proof.
  intros w l items _. cbn. destruct (decide (l = fresh (dom (cells w)))) as [->|Hne].
  - by rewrite lookup_insert_eq.
  - by rewrite lookup_insert_ne.
Qed.

Lemma no_new_array_push ex entry : respects (no_new_array ex) (push ex entry).
Proof.
  intros w. unfold push. rewrite bind_run. unfold items_of at 1.
  destruct (cells w !! ex) as [[its|props]|]; try reflexivity.
  intros l items Hl. cbn. by rewrite lookup_insert_ne.
Qed.

Lemma no_new_array_bind_this ex this current listener :
  respects (no_new_array ex) (bind_this this current listener).
Proof. unfold bind_this. respects_tac. Qed.

Lemma no_new_array_putEvents ex this el : respects (no_new_array ex) (putEvents this el).
Proof.
  unfold putEvents, putEvents_each.
  respects_tac;
    first [apply no_new_array_emit|apply no_new_array_bind_this
          |apply no_new_array_set_prop].
Qed.

(** A call of [addEventListener] or [removeEventListener] on an instance
    that has its list makes no array, and writes no other array than that
    list. *)
Lemma listener_call_arrays x ex call w c :
  comps w !! x = Some c → events c = Some ex →
  is_listener_call call →
  no_new_array ex w (perform x call w).
Proof.
  intros Hc Hex Hcall.
  destruct call as [| | | | | | | |type listener selector|type listener selector];
    try done; cbn [perform].
  - unfold addEventListener. cbv zeta.
    rewrite (bind_run_ok _ _ _ _ _ (getComp_run _ _ _ Hc)), Hex.
    rewrite bind_run. cbn [mret M_ret Store.ret].
    match goal with
    | |- no_new_array ex w (?m w).2 => assert (H : respects (no_new_array ex) m); [|apply H]
    end.
    respects_tac;
      first [apply no_new_array_alloc|apply no_new_array_push|apply no_new_array_putEvents].
  - destruct (cells w !! ex) as [[items|props]|] eqn:Hitems.
    + destruct (removeEventListener_frame x type listener selector w c ex items Hc Hex Hitems)
        as (_ & _ & Hframe).
      intros l its Hl. by rewrite Hframe.
    + unfold removeEventListener. cbv zeta.
      rewrite (bind_run_ok _ _ _ _ _ (getComp_run _ _ _ Hc)), Hex.
      rewrite bind_run. unfold items_of at 1. rewrite Hitems. reflexivity.
    + unfold removeEventListener. cbv zeta.
      rewrite (bind_run_ok _ _ _ _ _ (getComp_run _ _ _ Hc)), Hex.
      rewrite bind_run. unfold items_of at 1. rewrite Hitems. reflexivity.
Qed.

(** Such a call on [a] keeps the cells [G] out of every list. *)
Lemma listener_call_unlisted w a b ea eb G call :
  separate w a b ea eb G →
  unlisted G w →
  is_listener_call call →
  unlisted G (perform a call w).
Proof.
  intros (Ha & Hb & Hab & HaG & HbG & HG) Hun Hcall.
  destruct (listener_call_frame a ea call G w Ha Hcall HG HaG)
    as (Hcomps & Ha' & Hsame & Hdisj').
  destruct Ha as (c & items & Hc & Hex & Hitems & Hclosed).
  pose proof (listener_call_arrays a ea call w c Hc Hex Hcall) as Harr.
  intros l (y & cy & ay & its & Hy & Hay & Hits & Hin) Hl.
  destruct (decide (ay = ea)) as [->|Hne].
  - apply (Hdisj' l); [|done]. apply elem_of_footprint. right. by exists its.
  - apply (Hun l); [|done]. exists y, cy, ay, its. rewrite Hcomps in Hy.
    split; [done|]. split; [done|]. split; [by apply Harr|done].
Qed.

End listener_calls.

(** ** Any calls on two instances *)

Section any_calls.
Implicit Types (w : world) (l a b x ea eb : loc) (G : gset loc).

(** Any sequence of calls: of any method on [a] or on [b], and of any
    method but [addEventListener] and [removeEventListener] on any
    instance. *)
Lemma separate_perform_any calls w a b ea eb G :
  a ≠ b →
  separate w a b ea eb G →
  unlisted G w →
  Forall (λ tc, tc.1 = a ∨ tc.1 = b ∨ ¬ is_listener_call tc.2) calls →
  separate (perform_all calls w) a b ea eb G
  ∧ ∀ l, l ∈ G → cells (perform_all calls w) !! l = cells w !! l.
Proof.
  intros Hab Hsep Hun Hcalls. revert w Hsep Hun.
  induction Hcalls as [|[t call] calls Ht _ IH]; intros w Hsep Hun; [done|].
  cbn [perform_all foldl fst snd] in *.
  assert (Hstep : separate (perform t call w) a b ea eb G
                  ∧ unlisted G (perform t call w)
                  ∧ ∀ l, l ∈ G → cells (perform t call w) !! l = cells w !! l).
  { assert (Hdec : is_listener_call call ∨ ¬ is_listener_call call)
      by (destruct call; cbn; auto).
    destruct Hdec as [Hcall|Hcall].
    - destruct Ht as [->|[->|Ht]]; [| |done].
      + destruct (separate_step w a b ea eb G call Hab Hsep Hcall) as (H1 & _ & H2).
        split; [done|]. split; [by eapply listener_call_unlisted|].
        intros l Hl. apply H2, elem_of_union. by right.
      + destruct (separate_step w b a eb ea G call (not_eq_sym Hab)
                    (separate_sym _ _ _ _ _ _ Hsep) Hcall) as (H1 & _ & H2).
        split; [by apply separate_sym|].
        split; [eapply listener_call_unlisted; [by apply separate_sym|done..]|].
        intros l Hl. apply H2, elem_of_union. by right.
    - pose proof (caches_only_perform t call w Hcall) as Hq.
      split; [by eapply caches_only_separate|]. by apply caches_only_unlisted. }
  destruct Hstep as (Hsep' & Hun' & Hsame). destruct (IH _ Hsep' Hun') as [Hsep'' Hsame'].
  split; [done|]. intros l Hl. rewrite Hsame' by done. by apply Hsame.
Qed.

Import CreateComponent.

(** The lists of two instances made one after the other, in the world
    after the second was made. *)
Lemma construct_twice_copied k w0 a w1 b w2 ea eb :
  definitions_frame (definitions k) →
  closed_list (cells w0) (events k) →
  construct k w0 = (Ok a, w1) →
  construct k w1 = (Ok b, w2) →
  has_events w2 a ea → has_events w2 b eb →
  copied (cells w0) w2 (events k) a ea ∧ copied (cells w0) w2 (events k) b eb.
Proof.
  intros Hframe Hclosed Ea Eb Hea Heb.
  destruct (construct_inv k w0 a w1 Hframe Hclosed Ea)
    as (items & la & ea' & ca & Hitems & Ha0 & Hca & Hea' & Harr_a & Hnd_a & Hfresh_a
        & Hcopies_a & Hcells1 & Hcomps1).
  assert (Hclosed1 : closed_list (cells w1) (events k))
    by by eapply closed_list_preserved.
  destruct (construct_inv k w1 b w2 Hframe Hclosed1 Eb)
    as (items' & lb & eb' & cb & Hitems' & Hb1 & Hcb & Heb' & Harr_b & Hnd_b & Hfresh_b
        & Hcopies_b & Hcells2 & Hcomps2).
  rewrite (Hcells1 _ _ Hitems) in Hitems'. injection Hitems' as <-.
  assert (Hsame : Forall (λ e, ∀ p, e = VObject p → cells w1 !! p = cells w0 !! p) items).
  { destruct Hclosed as (items0 & Hitems0 & Hall). rewrite Hitems in Hitems0.
    injection Hitems0 as <-.
    eapply Forall_impl; [exact Hall|]. intros e He p ->.
    destruct He as [c Hc]. rewrite Hc. by apply Hcells1. }
  destruct Hea as (ca2 & ? & Hca2 & Hea2 & _).
  destruct Heb as (cb2 & ? & Hcb2 & Heb2 & _).
  rewrite (Hcomps2 _ _ Hca) in Hca2. injection Hca2 as <-.
  rewrite Hcb in Hcb2. injection Hcb2 as <-.
  rewrite Hea' in Hea2. injection Hea2 as <-.
  rewrite Heb' in Heb2. injection Heb2 as <-.
  split.
  - exists ca, items, la. split; [by apply Hcomps2|]. split; [done|]. split; [done|].
    split; [by apply Hcells2|]. split; [done|]. split; [done|].
    eapply Forall2_impl; [exact Hcopies_a|]. intros l e Hl. by apply Hcells2.
  - exists cb, items, lb. split; [done|]. split; [done|]. split; [done|].
    split; [done|]. split; [done|]. split.
    + intros l Hl. destruct (cells w0 !! l) as [c|] eqn:Hc; [|done].
      apply Hcells1 in Hc. rewrite (Hfresh_b l Hl) in Hc. done.
    + rewrite <-(filter_kept_ext _ _ _ Hsame).
      eapply Forall2_impl_r; [exact Hcopies_b| |].
      * apply Forall_forall. intros e He. exact He.
      * intros l e [He Hin]%list_elem_of_filter Hl. cbn beta in Hl. rewrite Hl.
        do 2 f_equal. apply props_of_ext. intros p ->.
        rewrite Forall_forall in Hsame. by apply (Hsame (VObject p)).
Qed.

End any_calls.

(** C9: two instances of a kind made by [createComponent] have each their
    own copy of the list of events of the kind: a new array of new objects,
    one for each entry of the list of the kind that has a truthy [type] and
    a truthy [listener], in the order of that list and with the properties
    of the entry.  The two lists share no cell with each other nor with the
    list of the kind, and this stays so: after any calls of
    [addEventListener] and [removeEventListener] on the two instances, and,
    when no instance has an entry of the list of the kind in its own list,
    after any calls of any methods on the two instances and of the methods
    other than these two on any instance, the list of the kind reads as it
    did when the first instance was made, and one more call of
    [addEventListener] or [removeEventListener] on either instance leaves
    the other instance, its list and the entries of its list as they
    are. *)
Theorem C9_events_per_instance k w0 a w1 b w2 :
  definitions_frame (CreateComponent.definitions k) →
  closed_list (cells w0) (CreateComponent.events k) →
  CreateComponent.construct k w0 = (Ok a, w1) →
  CreateComponent.construct k w1 = (Ok b, w2) →
  ∃ ea eb,
    a ≠ b
    ∧ copied (cells w0) w2 (CreateComponent.events k) a ea
    ∧ copied (cells w0) w2 (CreateComponent.events k) b eb
    ∧ ∀ calls,
        Forall (λ tc, (tc.1 = a ∨ tc.1 = b) ∧ is_listener_call tc.2) calls
        ∨ (unlisted (footprint (cells w0) (CreateComponent.events k)) w2
           ∧ Forall (λ tc, tc.1 = a ∨ tc.1 = b ∨ ¬ is_listener_call tc.2) calls) →
        let w3 := perform_all calls w2 in
        separate w3 a b ea eb (footprint (cells w0) (CreateComponent.events k))
        ∧ listing (cells w3) (CreateComponent.events k)
          = listing (cells w0) (CreateComponent.events k)
        ∧ ∀ call,
            is_listener_call call →
            (comps (perform a call w3) !! b = comps w3 !! b
             ∧ listing (cells (perform a call w3)) eb = listing (cells w3) eb)
            ∧ (comps (perform b call w3) !! a = comps w3 !! a
               ∧ listing (cells (perform b call w3)) ea = listing (cells w3) ea).
Proof.
  intros Hframe Hclosed Ea Eb.
  destruct (construct_twice_separate k w0 a w1 b w2 Hframe Hclosed Ea Eb)
    as (ea & eb & Hab & Hsep & Hcfg).
  exists ea, eb. split; [done|].
  destruct (construct_twice_copied k w0 a w1 b w2 ea eb Hframe Hclosed Ea Eb)
    as [Hca Hcb]; [apply Hsep..|].
  split; [done|]. split; [done|]. intros calls Hcalls w3.
  assert (Hinv : separate w3 a b ea eb (footprint (cells w0) (CreateComponent.events k))
                 ∧ ∀ l, l ∈ footprint (cells w0) (CreateComponent.events k) →
                        cells w3 !! l = cells w2 !! l).
  { destruct Hcalls as [Hcalls|[Hun Hcalls]].
    - by apply separate_perform_all.
    - by apply separate_perform_any. }
  destruct Hinv as [Hsep3 Hsame3].
  split; [done|]. split.
  { apply listing_ext. intros l Hl. by rewrite Hsame3, Hcfg. }
  intros call Hcall. split.
  - destruct (separate_step w3 a b ea eb _ call Hab Hsep3 Hcall) as (_ & Hb & Hcells).
    split; [done|]. apply listing_ext. intros l Hl. apply Hcells, elem_of_union. by left.
  - destruct (separate_step w3 b a eb ea _ call (not_eq_sym Hab)
                (separate_sym _ _ _ _ _ _ Hsep3) Hcall) as (_ & Ha & Hcells).
    split; [done|]. apply listing_ext. intros l Hl. apply Hcells, elem_of_union. by left.
Qed.

Section construct_returns.
Import CreateComponent.

Lemma entries_ok_closed cells a items :
  cells !! a = Some (Arr items) → entries_ok cells items → closed_list cells a.
Proof.
  intros Ha Hok. exists items. split; [done|].
  eapply Forall_impl; [exact Hok|]. intros e He. by destruct e.
Qed.

Lemma well_formed_run e w :
  e ≠ VUndefined → e ≠ VNull → well_formed e w = (Ok (kept (cells w) e), w).
Proof.
  intros Hu Hn. unfold well_formed, kept.
  rewrite bind_run, (get_prop_ok _ _ _ Hu Hn).
  destruct (truthy (prop (cells w) e "type")); cbn [andb]; [|done].
  by rewrite bind_run, (get_prop_ok _ _ _ Hu Hn).
Qed.

Lemma filterM_well_formed_returns items w :
  Forall (λ e, e ≠ VUndefined ∧ e ≠ VNull) items →
  ∃ ks, filterM well_formed items w = (Ok ks, w).
Proof.
  induction 1 as [|e items [Hu Hn] _ [ks IH]]; [by exists []|].
  cbn [filterM]. rewrite bind_run, (well_formed_run _ _ Hu Hn), bind_run, IH.
  by eexists.
Qed.

Lemma mapM_spread_returns ks w :
  ∃ copies w', mapM spread ks w = (Ok copies, w') ∧ comps w' = comps w.
Proof.
  revert w. induction ks as [|e ks IH]; intros w; [by exists [], w|].
  cbn [mapM]. rewrite bind_run, spread_run.
  destruct (IH (set_cells (insert (fresh (dom (cells w))) (Obj (props_of (cells w) e))) w))
    as (copies & w' & Hrun & Hcomps).
  rewrite bind_run, Hrun. by eexists _, _.
Qed.

(** [new _Comp()] returns when [definitions] does and the list of the kind
    has no [null] or [undefined] item. *)
Lemma construct_returns k w items :
  definitions_frame (definitions k) →
  definitions_return (definitions k) →
  cells w !! events k = Some (Arr items) →
  entries_ok (cells w) items →
  ∃ x w', construct k w = (Ok x, w').
Proof.
  intros Hframe Hreturn Hitems Hok. unfold construct.
  rewrite bind_run. unfold Component.new at 1.
  set (x := fresh (dom (comps w))).
  mrun. unfold getComp at 1. cbn [comps set_comps]. rewrite lookup_insert_eq. mrun.
  set (wb := set_comps _ (set_comps _ w)).
  assert (Hxb : is_Some (comps wb !! x)) by (cbn; rewrite lookup_insert_eq; eauto).
  destruct (match definitions k with
            | DefFunction body => body x
            | DefFields ex => _
            end wb) as [r wc] eqn:Edef.
  destruct (definitions_step _ _ _ _ _ Hframe Edef) as [Hcells_c Hcomps_c].
  assert (Hr : r = Ok tt ∧ is_Some (comps wc !! x)).
  { destruct (definitions k) as [body|ex]; cbn [definitions_return] in Hreturn.
    - specialize (Hreturn x wb Hxb). rewrite Edef in Hreturn. exact Hreturn.
    - rewrite bind_run in Edef. unfold getComp in Edef.
      destruct Hxb as [cb Hcb]. rewrite Hcb in Edef. injection Edef as <- <-.
      split; [done|]. cbn. rewrite lookup_insert_eq. eauto. }
  destruct Hr as [-> [cx Hcx]].
  rewrite (bind_run_ok _ _ _ _ _ (items_of_run _ _ _ (Hcells_c _ _ Hitems))).
  destruct (filterM_well_formed_returns items wc) as [ks Hks].
  { eapply Forall_impl; [exact Hok|]. intros e He. by destruct e. }
  rewrite (bind_run_ok _ _ _ _ _ Hks).
  destruct (mapM_spread_returns ks wc) as (copies & wd & Hrun & Hcomps).
  rewrite (bind_run_ok _ _ _ _ _ Hrun). rewrite bind_run. unfold alloc at 1.
  rewrite bind_run. unfold getComp at 1. cbn [comps set_cells]. rewrite Hcomps, Hcx.
  mrun. by eexists _, _.
Qed.

End construct_returns.

(** C10: when [definitions] returns and the list of events of the kind has
    no [null] or [undefined] item, [new _Comp()] returns, and the list of
    events of the new instance holds one new object for each entry of the
    list of the kind whose [type] and [listener] are both truthy, in the
    order of that list and with the properties of the entry; an entry that
    lacks one of the two, or has a falsy one, has no copy.  [putEvents]
    attaches the listeners of these copies, in that order, and nothing
    else. *)
Theorem C10_malformed_events_dropped k w items :
  definitions_frame (CreateComponent.definitions k) →
  definitions_return (CreateComponent.definitions k) →
  cells w !! CreateComponent.events k = Some (Arr items) →
  entries_ok (cells w) items →
  ∃ x w' ls ea c,
    CreateComponent.construct k w = (Ok x, w')
    ∧ comps w' !! x = Some c
    ∧ events c = Some ea
    ∧ cells w' !! ea = Some (Arr (VObject <$> ls))
    ∧ Forall2 (λ l e, cells w' !! l = Some (Obj (props_of (cells w) e)))
        ls (filter (λ e, kept (cells w) e = true) items)
    ∧ ∀ el, ∃ n,
        n ≤ length ls
        ∧ ((putEvents x (Some el) w').1 = Ok tt → n = length ls)
        ∧ log (putEvents x (Some el) w').2
          = log w' ++ ((λ l, attach (cells w') x el (VObject l)) <$> take n ls).
Proof.
  intros Hframe Hreturn Hitems Hok.
  assert (Hclosed : closed_list (cells w) (CreateComponent.events k))
    by by eapply entries_ok_closed.
  destruct (construct_returns k w items Hframe Hreturn Hitems Hok) as (x & w' & E).
  destruct (construct_inv k w x w' Hframe Hclosed E)
    as (items' & ls & ea & c & Hitems' & Hx & Hc & Hex & Harr & Hnd & Hfresh & Hcopies
        & Hcells & Hcomps).
  rewrite Hitems in Hitems'. injection Hitems' as <-.
  exists x, w', ls, ea, c. repeat (split; [done|]).
  intros el.
  destruct (putEvents_run x (Some el) el w' c ea _ Hc Hex Harr eq_refl)
    as (n & Hn & Hall & Hrun).
  rewrite length_fmap in Hn, Hall.
  exists n. split; [done|]. split; [done|].
  rewrite Hrun. cbn. by rewrite <-fmap_take, <-list_fmap_compose.
Qed.

Lemma listed_closed : closed_list (cells Scenario.listed) (CreateComponent.events Scenario.kind).
Proof.
  eexists. split; [reflexivity|].
  repeat (apply Forall_cons; split; [by eexists|]). apply Forall_nil_2.
Qed.

Lemma construct_one :
  CreateComponent.construct Scenario.kind Scenario.listed = (Ok 1%positive, Scenario.one).
Proof. vm_compute. reflexivity. Qed.

Lemma construct_two :
  CreateComponent.construct Scenario.kind Scenario.one = (Ok 2%positive, Scenario.two).
Proof. vm_compute. reflexivity. Qed.

Lemma two_lists :
  dom (comps Scenario.two) = {[1%positive; 2%positive]}
  ∧ (events <$> (comps Scenario.two !! 1%positive) = Some (Some 9%positive)
     ∧ cells Scenario.two !! 9%positive = Some (Arr [VObject 7; VObject 8]))
  ∧ (events <$> (comps Scenario.two !! 2%positive) = Some (Some 12%positive)
     ∧ cells Scenario.two !! 12%positive = Some (Arr [VObject 10; VObject 11])).
Proof. vm_compute. repeat split; reflexivity. Qed.

(** In [Scenario.two] no list of an instance has an entry of the list of
    the kind. *)
Lemma two_unlisted :
  unlisted (footprint (cells Scenario.listed) (CreateComponent.events Scenario.kind))
    Scenario.two.
Proof.
  destruct two_lists as (Hdom & [H1 H1'] & [H2 H2']).
  intros l (y & c & ay & items & Hy & Hay & Hitems & Hin).
  assert (Hy' : y ∈ dom (comps Scenario.two)) by (apply elem_of_dom; eauto).
  rewrite Hdom in Hy'.
  apply elem_of_union in Hy' as [Hy'|Hy']; apply elem_of_singleton in Hy' as ->.
  - rewrite Hy in H1. cbn in H1. assert (ay = 9%positive) as -> by congruence.
    rewrite H1' in Hitems. injection Hitems as <-. cbn in Hin.
    apply elem_of_cons in Hin as [->|Hin]; [by vm_compute|].
    apply elem_of_cons in Hin as [->|Hin]; [by vm_compute|].
    destruct (not_elem_of_nil _ Hin).
  - rewrite Hy in H2. cbn in H2. assert (ay = 12%positive) as -> by congruence.
    rewrite H2' in Hitems. injection Hitems as <-. cbn in Hin.
    apply elem_of_cons in Hin as [->|Hin]; [by vm_compute|].
    apply elem_of_cons in Hin as [->|Hin]; [by vm_compute|].
    destruct (not_elem_of_nil _ Hin).
Qed.

(** The two instances of [Scenario.kind]: each has its copy of the list;
    after both were mounted, a listener added to the first and the first
    rendered again, the list of the kind reads as before; and adding a
    listener to the first one, when the second is mounted, leaves the list
    of the second as it is. *)
Lemma C9_events_per_instance_witness :
  ∃ ea eb,
    copied (cells Scenario.listed) Scenario.two (CreateComponent.events Scenario.kind)
      1%positive ea
    ∧ copied (cells Scenario.listed) Scenario.two (CreateComponent.events Scenario.kind)
        2%positive eb
    ∧ listing
        (cells (perform_all
                  [(1%positive, Get None);
                   (1%positive, AddListener (VString "blur") (VFunction (User 11)) None);
                   (2%positive, Get None);
                   (1%positive, Render)]
                  Scenario.two))
        (CreateComponent.events Scenario.kind)
      = listing (cells Scenario.listed) (CreateComponent.events Scenario.kind)
    ∧ listing
        (cells (perform 1%positive
                  (AddListener (VString "blur") (VFunction (User 11)) None)
                  (perform_all [(2%positive, Get None)] Scenario.two))) eb
      = listing (cells (perform_all [(2%positive, Get None)] Scenario.two)) eb.
Proof.
  destruct (C9_events_per_instance Scenario.kind Scenario.listed 1%positive Scenario.one
              2%positive Scenario.two I listed_closed construct_one construct_two)
    as (ea & eb & _ & Ha & Hb & H).
  exists ea, eb. split; [exact Ha|]. split; [exact Hb|]. split.
  - refine (proj1 (proj2 (H [(1%positive, _); (1%positive, _); (2%positive, _);
                            (1%positive, _)] (or_intror (conj two_unlisted _))))).
    repeat (apply Forall_cons; split; [cbn; auto|]). apply Forall_nil_2.
  - refine (proj2 (proj1 (proj2 (proj2 (H [(2%positive, _)]
              (or_intror (conj two_unlisted _))))
              (AddListener (VString "blur") (VFunction (User 11)) None) I))).
    repeat (apply Forall_cons; split; [cbn; auto|]). apply Forall_nil_2.
Defined.

Lemma listed_entries_ok :
  entries_ok (cells Scenario.listed)
    [VObject 2; VObject 3; VObject 4; VObject 5; VObject 6].
Proof. repeat (apply Forall_cons; split; [by eexists|]). apply Forall_nil_2. Qed.

(** The instance made from the five entries of [Scenario.listed] has two:
    the copies of the handlers for [click] and for [change]. *)
Lemma C10_malformed_events_dropped_witness :
  ∃ x w' ls ea c,
    CreateComponent.construct Scenario.kind Scenario.listed = (Ok x, w')
    ∧ comps w' !! x = Some c
    ∧ events c = Some ea
    ∧ cells w' !! ea = Some (Arr (VObject <$> ls))
    ∧ Forall2 (λ l e, cells w' !! l = Some (Obj (props_of (cells Scenario.listed) e)))
        ls (filter (λ e, kept (cells Scenario.listed) e = true)
              [VObject 2; VObject 3; VObject 4; VObject 5; VObject 6])
    ∧ ∀ el, ∃ n,
        n ≤ length ls
        ∧ ((putEvents x (Some el) w').1 = Ok tt → n = length ls)
        ∧ log (putEvents x (Some el) w').2
          = log w' ++ ((λ l, attach (cells w') x el (VObject l)) <$> take n ls).
Proof.
  exact (C10_malformed_events_dropped Scenario.kind Scenario.listed
           [VObject 2; VObject 3; VObject 4; VObject 5; VObject 6]
           I I eq_refl listed_entries_ok).
Defined.

(** What the run gives on [Scenario.listed]. *)
Example one_keeps_click_and_change :
  filter (λ e, kept (cells Scenario.listed) e = true)
    [VObject 2; VObject 3; VObject 4; VObject 5; VObject 6]
  = [VObject 2; VObject 6]
  ∧ listing (cells Scenario.one) 9%positive
    = Some ([VObject 7; VObject 8],
            [cells Scenario.listed !! 2%positive; cells Scenario.listed !! 6%positive])
  ∧ log (putEvents 1%positive (Some Scenario.p1) Scenario.one).2
    = [AddEventListener (Made 5) (VString "click")
         (VFunction (Bound 1 7 (User 7)));
       AddEventListener (Made 5) (VString "change")
         (VFunction (Delegated 1 8))].
Proof. repeat split; vm_compute; reflexivity. Qed.

(* ===================================================================== *)
(** * Further properties *)
(* ===================================================================== *)

Import Shape Inv.

(** ** The effect handler: removal, order and failure of a dispatch *)

Section handler_laws.
Import EffectHandler.
Implicit Types (h : t) (key k : string) (action v : JS.value) (f : fn).

Lemma strict_eq_function_refl f : strict_eq (VFunction f) (VFunction f) = true.
Proof. rewrite strict_eq_function. by apply bool_decide_eq_true. Qed.

Lemma indexOf_app_first l1 l2 x y :
  Forall (λ z, strict_eq z x = false) l1 → strict_eq y x = true →
  indexOf (l1 ++ y :: l2) x = Some (length l1).
Proof.
  intros Hl1 Hy. induction Hl1 as [|z l1 Hz _ IH]; cbn.
  - by rewrite Hy.
  - by rewrite Hz, IH.
Qed.

Lemma remove_first key h l1 y l2 action :
  al h !! key = Some (l1 ++ y :: l2) → truthy action = true →
  Forall (λ z, strict_eq z action = false) l1 → strict_eq y action = true →
  remove key (Some action) h
  = (true, {| al := <[key := l1 ++ l2]> (al h); globals := globals h |}).
Proof.
  intros Hl Ht Hl1 Hy. unfold remove. rewrite Hl. cbn. rewrite Ht. cbn.
  by rewrite (indexOf_app_first _ _ _ _ Hl1 Hy), splice1_middle.
Qed.

Lemma forEach_call_stops mkcall pre v post :
  Forall (λ v, callable v = true) pre → callable v = false →
  forEach_call mkcall (pre ++ v :: post)
  = (mkcall <$> fns_of pre, Some (TypeError "funct is not a function")).
Proof.
  intros Hpre Hv. induction Hpre as [|u pre Hu _ IH]; cbn.
  - by destruct v.
  - destruct u; try discriminate. cbn. by rewrite IH.
Qed.

End handler_laws.

(** X1: [removeGlobal()] without an action, or with a falsy one, empties
    the global list and answers whether it held anything: [false] on an
    empty list.  With a truthy action it takes out the first global effect
    that is [===] to the action and no other, and answers whether there was
    one. *)
Theorem X1_removeGlobal h :
  (∀ action, truthy (default (VBool false) action) = false →
     EffectHandler.removeGlobal action h
     = (bool_decide (EffectHandler.globals h ≠ []),
        {| EffectHandler.al := EffectHandler.al h; EffectHandler.globals := [] |}))
  ∧ (∀ action, truthy action = true →
       (Forall (λ y, strict_eq y action = false) (EffectHandler.globals h) →
        EffectHandler.removeGlobal (Some action) h = (false, h))
       ∧ (∀ l1 y l2,
            EffectHandler.globals h = l1 ++ y :: l2 →
            Forall (λ z, strict_eq z action = false) l1 →
            strict_eq y action = true →
            EffectHandler.removeGlobal (Some action) h
            = (true, {| EffectHandler.al := EffectHandler.al h;
                        EffectHandler.globals := l1 ++ l2 |}))).
Proof.
  unfold EffectHandler.removeGlobal. split.
  - intros action ->. cbn. f_equal. apply bool_decide_ext.
    destruct (EffectHandler.globals h); cbn; split; (done || lia).
  - intros action Ht. cbn. rewrite Ht. cbn. split.
    + intros Hnone. apply indexOf_None in Hnone. by rewrite Hnone.
    + intros l1 y l2 -> Hl1 Hy.
      by rewrite (indexOf_app_first _ _ _ _ Hl1 Hy), splice1_middle.
Qed.

Lemma X1_removeGlobal_witness :
  EffectHandler.removeGlobal None EffectHandler.create = (false, EffectHandler.create)
  ∧ EffectHandler.removeGlobal (Some (VFunction (User 2)))
      {| EffectHandler.al := ∅;
         EffectHandler.globals := [VFunction (User 1); VFunction (User 2);
                                   VFunction (User 2)] |}
    = (true, {| EffectHandler.al := ∅;
                EffectHandler.globals := [VFunction (User 1); VFunction (User 2)] |}).
Proof.
  split.
  - exact (proj1 (X1_removeGlobal EffectHandler.create) None eq_refl).
  - refine (proj2 (proj2 (X1_removeGlobal
              {| EffectHandler.al := ∅;
                 EffectHandler.globals := [VFunction (User 1); VFunction (User 2);
                                           VFunction (User 2)] |})
              (VFunction (User 2)) eq_refl)
              [VFunction (User 1)] (VFunction (User 2)) [VFunction (User 2)] eq_refl _ eq_refl).
    by repeat constructor.
Defined.

(** X2: registering a function under a key and removing it again.  [add]
    returns; when the function was not registered under the key, [remove]
    answers [true] and every key dispatches as it did before (a key that was
    unknown is now known, with an empty list).  When it was registered under
    the key already, [remove] takes out the earlier registration and leaves
    the new one, at the end of the list. *)
Theorem X2_add_then_remove key f h :
  ∃ h1, EffectHandler.add key (VFunction f) h = Ok h1
  ∧ (Forall (λ y, strict_eq y (VFunction f) = false)
       (default [] (EffectHandler.al h !! key)) →
     EffectHandler.remove key (Some (VFunction f)) h1
     = (true, {| EffectHandler.al :=
                   <[key := default [] (EffectHandler.al h !! key)]> (EffectHandler.al h);
                 EffectHandler.globals := EffectHandler.globals h |})
     ∧ ∀ k, EffectHandler.dispatchIgnoreGlobals k
              (EffectHandler.remove key (Some (VFunction f)) h1).2
            = EffectHandler.dispatchIgnoreGlobals k h)
  ∧ (∀ l1 l2,
       EffectHandler.al h !! key = Some (l1 ++ VFunction f :: l2) →
       Forall (λ y, strict_eq y (VFunction f) = false) l1 →
       EffectHandler.remove key (Some (VFunction f)) h1
       = (true, {| EffectHandler.al :=
                     <[key := l1 ++ l2 ++ [VFunction f]]> (EffectHandler.al h);
                   EffectHandler.globals := EffectHandler.globals h |})).
Proof.
  eexists. split; [apply add_appends|]. split.
  - intros Hfresh.
    assert (Hrem : EffectHandler.remove key (Some (VFunction f))
      {| EffectHandler.al :=
           <[key := default [] (EffectHandler.al h !! key) ++ [VFunction f]]>
             (EffectHandler.al h);
         EffectHandler.globals := EffectHandler.globals h |}
      = (true, {| EffectHandler.al :=
                    <[key := default [] (EffectHandler.al h !! key)]> (EffectHandler.al h);
                  EffectHandler.globals := EffectHandler.globals h |})).
    { erewrite remove_first; [| cbn; apply lookup_insert_eq | done | exact Hfresh
                              | apply strict_eq_function_refl ].
      cbn. by rewrite insert_insert_eq, app_nil_r. }
    split; [exact Hrem|]. intros k. rewrite Hrem. cbn.
    unfold EffectHandler.dispatchIgnoreGlobals. cbn.
    destruct (decide (k = key)) as [->|Hne].
    + rewrite lookup_insert_eq. by destruct (EffectHandler.al h !! key).
    + by rewrite lookup_insert_ne.
  - intros l1 l2 Hl Hl1.
    erewrite remove_first; [| cbn; rewrite lookup_insert_eq, Hl; cbn;
                              by rewrite <-(assoc_L (++)) | done | exact Hl1
                            | apply strict_eq_function_refl ].
    cbn. by rewrite insert_insert_eq.
Qed.

Lemma X2_add_then_remove_witness :
  ∃ h1, EffectHandler.add "k" (VFunction (User 1)) EffectHandler.create = Ok h1
        ∧ EffectHandler.remove "k" (Some (VFunction (User 1))) h1
          = (true, {| EffectHandler.al := {["k" := []]}; EffectHandler.globals := [] |}).
Proof.
  destruct (X2_add_then_remove "k" (User 1) EffectHandler.create) as (h1 & Hadd & Hrem & _).
  exists h1. split; [exact Hadd|]. apply Hrem. constructor.
Defined.

(** X3: [add] and [remove] on a key change neither what another key
    dispatches nor the global list; [addGlobal] and [removeGlobal] change no
    list of a key. *)
Theorem X3_other_keys_untouched key k h :
  k ≠ key →
  (∀ action h1, EffectHandler.add key action h = Ok h1 →
     EffectHandler.dispatchIgnoreGlobals k h1 = EffectHandler.dispatchIgnoreGlobals k h
     ∧ EffectHandler.globals h1 = EffectHandler.globals h)
  ∧ (∀ action,
       EffectHandler.dispatchIgnoreGlobals k (EffectHandler.remove key action h).2
       = EffectHandler.dispatchIgnoreGlobals k h
       ∧ EffectHandler.globals (EffectHandler.remove key action h).2
         = EffectHandler.globals h)
  ∧ (∀ action h1, EffectHandler.addGlobal action h = Ok h1 →
       EffectHandler.al h1 = EffectHandler.al h)
  ∧ (∀ action, EffectHandler.al (EffectHandler.removeGlobal action h).2
               = EffectHandler.al h).
Proof.
  intros Hne. split; [|split; [|split]].
  - intros action h1. rewrite add_appends. intros [= <-].
    unfold EffectHandler.dispatchIgnoreGlobals. cbn. by rewrite lookup_insert_ne.
  - intros action. unfold EffectHandler.remove, EffectHandler.dispatchIgnoreGlobals.
    destruct (EffectHandler.al h !! key) as [l|]; [|done].
    destruct (negb _); cbn; [by rewrite lookup_insert_ne|].
    destruct (indexOf l _); cbn; [by rewrite lookup_insert_ne|done].
  - intros action h1. rewrite addGlobal_appends. by intros [= <-].
  - intros action. unfold EffectHandler.removeGlobal.
    destruct (negb _); [done|]. by destruct (indexOf _ _).
Qed.

Lemma X3_other_keys_untouched_witness :
  EffectHandler.dispatchIgnoreGlobals "b"
    (EffectHandler.remove "a" None (sideEffects Scenario.ab_this)).2
  = EffectHandler.dispatchIgnoreGlobals "b" (sideEffects Scenario.ab_this).
Proof.
  apply (proj1 (proj2 (X3_other_keys_untouched "a" "b" (sideEffects Scenario.ab_this)
                         ltac:(discriminate))) None).
Defined.

(** X4: when the registered effects are functions, [dispatch(key)] calls
    the effects of the key in registration order, then every global effect
    with the key, and does not throw.  [dispatch()] does the same for the
    key ["null"], and hands [null] to the global effects.  An effect added
    under the key is called after those that were there, and before the
    global ones. *)
Theorem X4_dispatch_order key h :
  all_callable h →
  EffectHandler.dispatch (Some key) h
  = ((CallEffect <$> fns_of (default [] (EffectHandler.al h !! key)))
     ++ ((λ f, CallGlobal f (OneKey key)) <$> fns_of (EffectHandler.globals h)), None)
  ∧ EffectHandler.dispatch None h
    = ((CallEffect <$> fns_of (default [] (EffectHandler.al h !! "null")))
       ++ ((λ f, CallGlobal f NullKey) <$> fns_of (EffectHandler.globals h)), None)
  ∧ ∀ f h1, EffectHandler.add key (VFunction f) h = Ok h1 →
      EffectHandler.dispatch (Some key) h1
      = ((CallEffect <$> fns_of (default [] (EffectHandler.al h !! key)))
         ++ [CallEffect f]
         ++ ((λ f, CallGlobal f (OneKey key)) <$> fns_of (EffectHandler.globals h)), None).
Proof.
  intros Hh.
  assert (Hd : ∀ k arg h', all_callable h' →
    EffectHandler.seq_run (EffectHandler.dispatchIgnoreGlobals k h')
      (EffectHandler.dispatchGlobals (Some arg) h')
    = ((CallEffect <$> fns_of (default [] (EffectHandler.al h' !! k)))
       ++ ((λ f, CallGlobal f arg) <$> fns_of (EffectHandler.globals h')), None)).
  { intros k arg h' Hh'. rewrite (dispatchIgnoreGlobals_callable _ _ Hh').
    unfold EffectHandler.dispatchGlobals. cbn [default].
    by rewrite (forEach_call_callable _ _ (proj2 Hh')). }
  split; [apply (Hd key _ _ Hh)|]. split; [apply (Hd "null" _ _ Hh)|].
  intros f h1. rewrite add_appends. intros [= <-].
  unfold EffectHandler.dispatch. cbn [default]. rewrite Hd.
  - cbn. rewrite lookup_insert_eq. cbn. unfold fns_of.
    by rewrite omap_app, fmap_app, <-(assoc_L (++)).
  - destruct Hh as [Hal Hg]. split; [|done]. cbn.
    apply map_Forall_insert_2; [|done].
    apply Forall_app. split; [|by repeat constructor].
    destruct (EffectHandler.al h !! key) as [l|] eqn:E; [by apply (Hal key)|constructor].
Qed.

Lemma X4_dispatch_order_witness :
  EffectHandler.dispatch (Some "a") (sideEffects Scenario.ab_this)
  = ([CallEffect (User 1); CallGlobal (User 3) (OneKey "a")], None).
Proof.
  exact (proj1 (X4_dispatch_order "a" (sideEffects Scenario.ab_this) ab_this_all_callable)).
Defined.

(** X5: when the list of a key holds a value that is not a function, a
    dispatch calls the effects before it, in order, and then throws a
    [TypeError]: the effects after it are not called, and neither are, in
    [dispatch], the global effects. *)
Theorem X5_dispatch_stops_at_non_function key h pre v post :
  EffectHandler.al h !! key = Some (pre ++ v :: post) →
  Forall (λ u, callable u = true) pre →
  callable v = false →
  EffectHandler.dispatchIgnoreGlobals key h
  = (CallEffect <$> fns_of pre, Some (TypeError "funct is not a function"))
  ∧ EffectHandler.dispatch (Some key) h
    = (CallEffect <$> fns_of pre, Some (TypeError "funct is not a function")).
Proof.
  intros Hl Hpre Hv.
  assert (H : EffectHandler.dispatchIgnoreGlobals key h
              = (CallEffect <$> fns_of pre, Some (TypeError "funct is not a function"))).
  { unfold EffectHandler.dispatchIgnoreGlobals. rewrite Hl.
    by apply forEach_call_stops. }
  split; [done|]. unfold EffectHandler.dispatch.
  change (default "null" (Some key)) with key. by rewrite H.
Qed.

(** ** [setState] when an effect fails, and instances side by side *)

(** X6: [setState] when the list of the first changed key holds a value
    that is not a function.  The values of all the keys supplied are stored,
    the effects before that value are called, and [setState] throws a
    [TypeError]: no other effect is called, and [render] is not. *)
Theorem X6_setState_throws_after_update this newState w c key rest pre v post :
  comps w !! this = Some c →
  NoDup newState.*1 →
  filter (λ k, differs (_state c) (list_to_map newState) k = true) newState.*1
  = key :: rest →
  EffectHandler.al (sideEffects c) !! key = Some (pre ++ v :: post) →
  Forall (λ u, callable u = true) pre →
  callable v = false →
  setState this newState w
  = (Throw (TypeError "funct is not a function"),
     logged (CallEffect <$> fns_of pre)
       (set_comps (insert this
          (with_state (merged (list_to_map newState) newState.*1 (_state c)) c)) w)).
Proof.
  intros Hc Hnd Hchanged Hl Hpre Hv. unfold setState.
  rewrite (bind_run_ok _ _ _ _ _ (getComp_run _ _ _ Hc)).
  rewrite (filter_change_spec _ _ _ Hnd), Hchanged.
  rewrite bind_run. unfold setComp at 1, modify at 1.
  rewrite bind_run. cbn [forEach]. rewrite bind_run.
  unfold EffectHandler.dispatchIgnoreGlobals at 1. rewrite Hl.
  by rewrite (forEach_call_stops _ _ _ _ Hpre Hv), lift_run_throw.
Qed.

Lemma poisoned_this :
  comps Cases.poisoned !! Scenario.this
  = Some (with_sideEffects
            {| EffectHandler.al :=
                 <["a" := [VFunction (User 1); VNumber (Int 42)]]>
                   (EffectHandler.al (sideEffects Scenario.ab_this));
               EffectHandler.globals := [VFunction (User 3)] |}
            Scenario.ab_this).
Proof.
  unfold Cases.poisoned, onChangeState.
  rewrite (bind_run_ok _ _ _ _ _ (getComp_run _ _ _ ab_this_in_ab)).
  rewrite add_appends. cbn. by rewrite lookup_insert_eq.
Qed.

Lemma X6_setState_throws_after_update_witness :
  ∃ w', setState Scenario.this [("a", VNumber (Int 1))] Cases.poisoned
        = (Throw (TypeError "funct is not a function"), w')
        ∧ log w' = log Cases.poisoned ++ [CallEffect (User 1)]
        ∧ renders w' = renders Cases.poisoned
        ∧ (_state <$> comps w' !! Scenario.this)
          = Some (<["a" := VNumber (Int 1)]> (_state Scenario.ab_this)).
Proof.
  eexists. split.
  - apply (X6_setState_throws_after_update Scenario.this [("a", VNumber (Int 1))]
             Cases.poisoned _ "a" [] [VFunction (User 1)] (VNumber (Int 42)) []
             poisoned_this).
    + apply NoDup_singleton.
    + reflexivity.
    + cbn. by rewrite lookup_insert_eq.
    + by repeat constructor.
    + reflexivity.
  - split; [reflexivity|]. split; [reflexivity|]. cbn. by rewrite lookup_insert_eq.
Defined.

Lemma set_comps_insert_id this c w :
  comps w !! this = Some c → set_comps (insert this c) w = w.
Proof. intros Hc. destruct w. unfold set_comps; cbn in *. f_equal. by apply insert_id. Qed.

Lemma with_state_id c : with_state (_state c) c = c.
Proof. by destruct c. Qed.

Lemma get_singleton key v : JS.get (list_to_map [(key, v)]) key = v.
Proof.
  change (list_to_map [(key, v)]) with (<[key := v]> (∅ : gmap string JS.value)).
  unfold JS.get. by rewrite lookup_insert_eq.
Qed.

(** X7: [NaN] is not [===] to itself, so storing [NaN] over [NaN] is a
    change.  [change] answers [true] and leaves the store as it is;
    [setState] calls the effects of the key and the global effects, and
    runs [render], on a state that is the same. *)
Theorem X7_setState_NaN_is_a_change this key w c :
  comps w !! this = Some c →
  _state c !! key = Some (VNumber NaN) →
  all_callable (sideEffects c) →
  State.change key (VNumber NaN) (_state c) = (true, _state c)
  ∧ setState this [(key, VNumber NaN)] w
    = render this
        (logged (key_calls (sideEffects c) [key] ++ global_calls (sideEffects c) [key]) w).
Proof.
  intros Hc Hkey Hh.
  assert (Hchange : State.change key (VNumber NaN) (_state c) = (true, _state c)).
  { rewrite (change_present _ _ _ _ Hkey). by rewrite insert_id. }
  split; [exact Hchange|].
  pose proof (setState_run this [(key, VNumber NaN)] w c Hc (NoDup_singleton _) Hh) as Hrun.
  cbv zeta in Hrun. cbn [fmap list_fmap fst filter] in Hrun.
  assert (Hd : differs (_state c) (list_to_map [(key, VNumber NaN)]) key = true).
  { unfold differs. by rewrite Hkey, get_singleton. }
  assert (Hf : filter (λ k, differs (_state c) (list_to_map [(key, VNumber NaN)]) k = true)
                 [key] = [key]).
  { rewrite filter_cons, filter_nil. by rewrite decide_True by exact Hd. }
  rewrite Hf in Hrun. rewrite decide_False in Hrun by done.
  rewrite Hrun, logged_app. do 2 f_equal.
  unfold merged. cbn [foldl]. rewrite get_singleton, Hchange. cbn. rewrite with_state_id. by apply set_comps_insert_id.
Qed.

Lemma nan_this_in_nan : comps Cases.nan !! Scenario.this = Some Cases.nan_this.
Proof. vm_compute. reflexivity. Qed.

Lemma nan_this_all_callable : all_callable (sideEffects Cases.nan_this).
Proof.
  split; [|constructor].
  apply map_Forall_insert_2; [by repeat constructor|apply map_Forall_empty].
Qed.

Lemma X7_setState_NaN_is_a_change_witness :
  setState Scenario.this [("n", VNumber NaN)] Cases.nan
  = render Scenario.this (logged [CallEffect (User 1)] Cases.nan).
Proof.
  exact (proj2 (X7_setState_NaN_is_a_change Scenario.this "n" Cases.nan Cases.nan_this
                  nan_this_in_nan eq_refl nan_this_all_callable)).
Defined.

Section calls_on_others.

Lemma getComp_none {A} this (k : Component → M A) w :
  comps w !! this = None → ((getComp this ≫= k) w).2 = w.
Proof. intros H. rewrite bind_run. unfold getComp. by rewrite H. Qed.

(** A call on the instance [t] writes no field of another instance. *)
Lemma perform_other t call w x :
  x ≠ t → comps (perform t call w) !! x = comps w !! x.
Proof.
  intros Hne.
  assert (Hset : ∀ c', comps (setComp t c' w).2 !! x = comps w !! x).
  { intros c'. cbn. by rewrite lookup_insert_ne. }
  destruct call as [ns| |p| |key action|action|key action|action|ty li sel|ty li sel];
    cbn [perform].
  - destruct (comps w !! t) as [c|] eqn:Hc.
    + destruct (setState_comps t ns w c Hc) as [el ->]. by rewrite lookup_insert_ne.
    + unfold setState. by rewrite getComp_none.
  - destruct (render_comps t w) as [->|(c & el & _ & ->)]; [done|].
    by rewrite lookup_insert_ne.
  - unfold get. rewrite bind_run. unfold getComp at 1.
    destruct (comps w !! t) as [c|] eqn:Hc; [|done].
    rewrite bind_run. cbn [setComp modify]. rewrite bind_run.
    set (w1 := set_comps _ w).
    assert (H1 : comps w1 !! x = comps w !! x) by (cbn; by rewrite lookup_insert_ne).
    assert (H2 : comps (render t w1).2 !! x = comps w1 !! x).
    { destruct (render_comps t w1) as [->|(c1 & el & _ & ->)]; [done|].
      by rewrite lookup_insert_ne. }
    destruct (render t w1) as [[[]|e] w2]; cbn [snd] in *; [|congruence].
    rewrite bind_run. unfold getComp. destruct (comps w2 !! t); cbn; congruence.
  - unfold state. rewrite bind_run. unfold getComp.
    destruct (comps w !! t); [|done]. rewrite bind_run. cbn [gets]. by case_match.
  - unfold onChangeState. rewrite bind_run. unfold getComp.
    destruct (comps w !! t) as [c|]; [|done].
    destruct (EffectHandler.add key action (sideEffects c)); [apply Hset|done].
  - unfold onChangeAny. rewrite bind_run. unfold getComp.
    destruct (comps w !! t) as [c|]; [|done].
    destruct (EffectHandler.addGlobal action (sideEffects c)); [apply Hset|done].
  - unfold offChangeState. rewrite bind_run. unfold getComp.
    destruct (comps w !! t) as [c|]; [|done].
    destruct (EffectHandler.remove _ _ _) as [b h]. rewrite bind_run. apply Hset.
  - unfold offChangeAny. rewrite bind_run. unfold getComp.
    destruct (comps w !! t) as [c|]; [|done].
    destruct (EffectHandler.removeGlobal _ _) as [b h]. rewrite bind_run. apply Hset.
  - destruct (addEventListener_comps t ty li sel w) as [->|(c & a & _ & _ & ->)]; [done|].
    by rewrite lookup_insert_ne.
  - by rewrite (same_comps_removeEventListener t ty li sel w).
Qed.

End calls_on_others.

Section effects_of_an_instance.
Implicit Types (h : EffectHandler.t).

(** A method called on what is no instance changes nothing. *)
Lemma perform_none t call w : comps w !! t = None → perform t call w = w.
Proof.
  intros Hc.
  destruct call; cbn [perform];
    unfold setState, render, get, state, onChangeState, onChangeAny, offChangeState,
      offChangeAny, addEventListener, removeEventListener; cbv zeta;
    by apply getComp_none.
Qed.

Lemma perform_sideEffects t call w c :
  comps w !! t = Some c →
  ∃ c', comps (perform t call w) !! t = Some c'
        ∧ sideEffects c' = effects_after call (sideEffects c).
Proof.
  intros Hc.
  assert (Hset : ∀ c', comps (setComp t c' w).2 !! t = Some c').
  { intros c'. cbn. by rewrite lookup_insert_eq. }
  destruct call as [ns| |p| |key action|action|key action|action|ty li sel|ty li sel];
    cbn [perform effects_after].
  - destruct (setState_comps t ns w c Hc) as [el ->]. rewrite lookup_insert_eq. by eexists.
  - destruct (render_comps t w) as [->|(c1 & el & Hc1 & ->)]; [by exists c|].
    rewrite lookup_insert_eq. eexists. split; [done|]. by simplify_eq/=.
  - unfold get. rewrite (bind_run_ok _ _ _ _ _ (getComp_run _ _ _ Hc)).
    rewrite bind_run. cbn [setComp modify]. rewrite bind_run.
    set (w1 := set_comps _ w).
    assert (H1 : comps w1 !! t = Some (with_props (default ∅ p) c))
      by (cbn; by rewrite lookup_insert_eq).
    assert (H2 : ∃ c2, comps (render t w1).2 !! t = Some c2
                       ∧ sideEffects c2 = sideEffects c).
    { destruct (render_comps t w1) as [->|(c1 & el & Hc1 & ->)]; [by eexists|].
      rewrite lookup_insert_eq. eexists. split; [done|]. by simplify_eq/=. }
    destruct H2 as (c2 & Hc2 & Hs2).
    destruct (render t w1) as [[[]|e] w2]; cbn [snd] in *; [|by exists c2].
    rewrite (bind_run_ok _ _ _ _ _ (getComp_run _ _ _ Hc2)). by exists c2.
  - exists c. split; [|done]. unfold state.
    rewrite (bind_run_ok _ _ _ _ _ (getComp_run _ _ _ Hc)). rewrite bind_run. cbn [gets].
    by case_match.
  - unfold onChangeState. rewrite (bind_run_ok _ _ _ _ _ (getComp_run _ _ _ Hc)).
    destruct (EffectHandler.add key action (sideEffects c)) as [h'|e]; [|by exists c].
    eexists. split; [apply Hset|done].
  - unfold onChangeAny. rewrite (bind_run_ok _ _ _ _ _ (getComp_run _ _ _ Hc)).
    destruct (EffectHandler.addGlobal action (sideEffects c)) as [h'|e]; [|by exists c].
    eexists. split; [apply Hset|done].
  - unfold offChangeState. rewrite (bind_run_ok _ _ _ _ _ (getComp_run _ _ _ Hc)).
    destruct (EffectHandler.remove _ _ _) as [b h']. rewrite bind_run.
    eexists. split; [apply Hset|done].
  - unfold offChangeAny. rewrite (bind_run_ok _ _ _ _ _ (getComp_run _ _ _ Hc)).
    destruct (EffectHandler.removeGlobal _ _) as [b h']. rewrite bind_run.
    eexists. split; [apply Hset|done].
  - destruct (addEventListener_comps t ty li sel w) as [->|(c1 & a & Hc1 & _ & ->)];
      [by exists c|].
    rewrite lookup_insert_eq. eexists. split; [done|]. by simplify_eq/=.
  - rewrite (same_comps_removeEventListener t ty li sel w). by exists c.
Qed.

Lemma Forall_splice1 {A} (P : A → Prop) i (l : list A) :
  Forall P l → Forall P (splice1 i l).
Proof.
  intros H. unfold splice1. apply Forall_app. split.
  - by apply Forall_take.
  - by apply Forall_drop.
Qed.

Lemma all_callable_effects_after call h :
  registers_function call → all_callable h → all_callable (effects_after call h).
Proof.
  intros Hcall [Hal Hg].
  destruct call as [ns| |p| |key action|action|key action|action|ty li sel|ty li sel];
    cbn [effects_after registers_function] in *; try (by split).
  - rewrite add_appends. split; [|done]. cbn.
    apply map_Forall_insert_2; [|done].
    apply Forall_app. split; [|by repeat constructor].
    destruct (EffectHandler.al h !! key) as [l|] eqn:E; [by apply (Hal key)|constructor].
  - rewrite addGlobal_appends. split; [done|]. cbn.
    apply Forall_app. split; [done|by repeat constructor].
  - unfold EffectHandler.remove.
    destruct (EffectHandler.al h !! key) as [l|] eqn:E; [|by split].
    destruct (negb _); cbn.
    + split; [|done]. cbn. by apply map_Forall_insert_2.
    + destruct (indexOf l _) as [i|]; [|by split]. split; [|done]. cbn.
      apply map_Forall_insert_2; [|done]. apply Forall_splice1. by apply (Hal key).
  - unfold EffectHandler.removeGlobal. destruct (negb _); cbn; [by split|].
    destruct (indexOf _ _) as [i|]; [|by split]. split; [done|]. cbn.
    by apply Forall_splice1.
Qed.

Lemma effects_callable_perform t call w :
  registers_function call → effects_callable w → effects_callable (perform t call w).
Proof.
  intros Hcall Hw x cx Hx. destruct (decide (x = t)) as [->|Hne].
  - destruct (comps w !! t) as [c|] eqn:Hc.
    + destruct (perform_sideEffects t call w c Hc) as (c' & Hc' & Hs).
      rewrite Hx in Hc'. injection Hc' as <-. rewrite Hs.
      apply all_callable_effects_after; [done|]. by apply (Hw t).
    + rewrite (perform_none _ _ _ Hc) in Hx. congruence.
  - rewrite (perform_other _ _ _ _ Hne) in Hx. by apply (Hw x).
Qed.

End effects_of_an_instance.

(** X9: as long as the actions handed to [onChangeState] and
    [onChangeAny] are functions, every effect of every instance is a
    function, whatever methods are called and on whatever instance. *)
Theorem X9_only_functions_are_registered calls w :
  effects_callable w →
  Forall (λ tc, registers_function tc.2) calls →
  effects_callable (perform_all calls w).
Proof.
  intros Hw Hcalls. revert w Hw.
  induction Hcalls as [|[t call] calls Hcall _ IH]; intros w Hw; [done|].
  cbn [perform_all foldl]. apply IH. by apply effects_callable_perform.
Qed.

Lemma ab_comps : comps Scenario.ab = {[Scenario.this := Scenario.ab_this]}.
Proof. vm_compute. reflexivity. Qed.

Lemma ab_effects_callable : effects_callable Scenario.ab.
Proof.
  intros x c. rewrite ab_comps. intros [_ <-]%lookup_singleton_Some.
  apply ab_this_all_callable.
Qed.

Lemma X9_only_functions_are_registered_witness :
  effects_callable
    (perform_all [(Scenario.this, OnChangeState "b" (VFunction (User 4)));
                  (Scenario.this, SetState [("b", VNumber (Int 1))]);
                  (Scenario.this, OffChangeState "a" None)] Scenario.ab).
Proof.
  apply X9_only_functions_are_registered; [exact ab_effects_callable|].
  repeat constructor.
Defined.

(** ** Snapshots of the state *)

Section snapshot_facts.
Implicit Types (s : gmap string JS.value) (cells : gmap loc cell).

Lemma roundtrip_plain fuel cells v :
  (∀ l, v ≠ VObject l) →
  Json.roundtrip fuel cells v ≠ Json.Circular
  ∧ Json.data_of (Json.roundtrip fuel cells v) = plain v.
Proof.
  intros Hv. destruct v as [| |b|[| |z]|str|l|f], fuel; cbn; try done; by destruct (Hv l).
Qed.

(** Only [undefined] and functions are left out. *)
Lemma roundtrip_omitted fuel cells v :
  Json.roundtrip fuel cells v ≠ Json.Circular →
  Json.data_of (Json.roundtrip fuel cells v) = None
  ↔ v = VUndefined ∨ ∃ f, v = VFunction f.
Proof.
  intros Hc. split.
  - destruct v as [| |b|[| |z]|str|l|f]; try (by destruct fuel).
    + intros _. by left.
    + revert Hc. destruct fuel; cbn; repeat case_match; done.
    + intros _. right. by exists f.
  - intros [->|[f ->]]; by destruct fuel.
Qed.

Lemma roundtrip_self fuel cells l props k :
  cells !! l = Some (Obj props) → props !! k = Some (VObject l) →
  Json.roundtrip fuel cells (VObject l) = Json.Circular.
Proof.
  intros Hl Hk. induction fuel as [|fuel IH]; cbn; rewrite Hl; [done|].
  rewrite decide_False; [done|]. intros Hall.
  apply (Hall k Json.Circular); [|done]. by rewrite lookup_fmap, Hk; cbn; rewrite IH.
Qed.

Lemma roundtrip_self_item fuel cells l items :
  cells !! l = Some (Arr items) → VObject l ∈ items →
  Json.roundtrip fuel cells (VObject l) = Json.Circular.
Proof.
  intros Hl Hin. induction fuel as [|fuel IH]; cbn; rewrite Hl; [done|].
  rewrite decide_False; [done|]. rewrite Forall_forall. intros Hall.
  apply (Hall Json.Circular); [|done].
  apply list_elem_of_fmap. by exists (VObject l).
Qed.

End snapshot_facts.

(** X10: what the snapshot [value()] leaves out, for a state whose values
    are of the kinds [JS.value] has: [undefined], [null], booleans, [NaN],
    the negative zero, integers, strings, functions, and the objects and
    arrays of the heap.  (An infinity, a [BigInt], a [Symbol] and an object
    with a [toJSON] method are none of these, and the statement says
    nothing of a state that holds one.)  On such a state that holds no
    object [value()] returns.  Whenever it returns, the keys missing from
    the snapshot are those the state lacks and those whose value is
    [undefined] or a function; a [NaN] is read back as [null], a negative
    zero as [0], and [null], a boolean, an integer and a string as they
    are. *)
Theorem X10_snapshot_leaves_out cells s :
  ((∀ key l, s !! key ≠ Some (VObject l)) → ∃ snapshot, State.value cells s = Ok snapshot)
  ∧ ∀ snapshot,
      State.value cells s = Ok snapshot →
      (∀ key, snapshot !! key = None
              ↔ s !! key = None ∨ s !! key = Some VUndefined
                ∨ ∃ f, s !! key = Some (VFunction f))
      ∧ (∀ key v, s !! key = Some v → (∀ l, v ≠ VObject l) →
                  snapshot !! key = plain v).
Proof.
  split.
  - intros Hs. unfold State.value. rewrite decide_True; [by eexists|].
    intros key r. rewrite lookup_fmap.
    destruct (s !! key) as [v|] eqn:E; cbn; [|done]. intros [= <-].
    apply roundtrip_plain. intros l ->. by apply (Hs key l).
  - intros snapshot. unfold State.value. case_decide as Hall; [|done]. intros [= <-].
    split.
    + intros key. rewrite lookup_omap, lookup_fmap.
      destruct (s !! key) as [v|] eqn:E; cbn; [|split; [by left|done]].
      specialize (Hall key (Json.roundtrip (size cells) cells v)).
      rewrite lookup_fmap, E in Hall. specialize (Hall eq_refl).
      rewrite (roundtrip_omitted (size cells) cells v Hall). split.
      * intros [->|[f ->]]; right; [by left|right; by exists f].
      * intros [?|[[= ->]|[f [= ->]]]]; [done|by left|right; by exists f].
    + intros key v Hv Hplain. rewrite lookup_omap, lookup_fmap, Hv. cbn.
      by apply roundtrip_plain.
Qed.

Lemma X10_snapshot_leaves_out_witness :
  ∃ snapshot,
    State.value ∅ (<["f" := VFunction (User 1)]> (<["n" := VNumber NaN]>
                     (<["z" := VNumber NegZero]> ∅))) = Ok snapshot
    ∧ snapshot !! "f" = None
    ∧ snapshot !! "n" = Some Json.JNull
    ∧ snapshot !! "z" = Some (Json.JNumber 0).
Proof.
  destruct (X10_snapshot_leaves_out ∅
              (<["f" := VFunction (User 1)]> (<["n" := VNumber NaN]>
                 (<["z" := VNumber NegZero]> ∅)))) as [Hreturns Hreads].
  destruct Hreturns as [snapshot Hv].
  - intros key l.
    destruct (decide (key = "f")) as [->|?]; [by rewrite lookup_insert_eq|].
    rewrite lookup_insert_ne by done.
    destruct (decide (key = "n")) as [->|?]; [by rewrite lookup_insert_eq|].
    rewrite lookup_insert_ne by done.
    destruct (decide (key = "z")) as [->|?]; [by rewrite lookup_insert_eq|].
    by rewrite lookup_insert_ne.
  - destruct (Hreads snapshot Hv) as [Hmissing Hplain].
    exists snapshot. split; [exact Hv|]. split; [|split].
    + apply Hmissing. right. right. by exists (User 1).
    + by apply (Hplain "n" (VNumber NaN)).
    + by apply (Hplain "z" (VNumber NegZero)).
Defined.

(** X11: a state with an object that holds itself, as a property or as an
    item: [value()] throws a [TypeError], and so does the getter [state],
    which changes nothing. *)
Theorem X11_snapshot_of_circular_state cells s key l :
  s !! key = Some (VObject l) →
  (∃ props k, cells !! l = Some (Obj props) ∧ props !! k = Some (VObject l))
  ∨ (∃ items, cells !! l = Some (Arr items) ∧ VObject l ∈ items) →
  State.value cells s = Throw (TypeError "Converting circular structure to JSON")
  ∧ ∀ this w c, comps w !! this = Some c → _state c = s → Store.cells w = cells →
      state this w = (Throw (TypeError "Converting circular structure to JSON"), w).
Proof.
  intros Hkey Hloop.
  assert (Hc : Json.roundtrip (size cells) cells (VObject l) = Json.Circular).
  { destruct Hloop as [(props & k & Hl & Hk)|(items & Hl & Hin)].
    - by eapply roundtrip_self.
    - by eapply roundtrip_self_item. }
  assert (Hv : State.value cells s
               = Throw (TypeError "Converting circular structure to JSON")).
  { unfold State.value. rewrite decide_False; [done|]. intros Hall.
    apply (Hall key Json.Circular); [|done]. by rewrite lookup_fmap, Hkey; cbn; rewrite Hc. }
  split; [exact Hv|]. intros this w c Hcomp <- <-. unfold state.
  rewrite (bind_run_ok _ _ _ _ _ (getComp_run _ _ _ Hcomp)). rewrite bind_run.
  cbn [gets]. by rewrite Hv.
Qed.

Lemma X11_snapshot_of_circular_state_witness :
  State.value (<[1%positive := Obj (<["self" := VObject 1]> ∅)]> ∅)
    (<["o" := VObject 1]> ∅)
  = Throw (TypeError "Converting circular structure to JSON").
Proof.
  refine (proj1 (X11_snapshot_of_circular_state _ _ "o" 1%positive _ _)).
  - by rewrite lookup_insert_eq.
  - left. exists (<["self" := VObject 1]> ∅), "self".
    by rewrite !lookup_insert_eq.
Defined.

(** ** What the reconciler returns *)

Section attribute_facts.
Implicit Types (a b : list (string * string)) (k name v val : string).

Lemma getAttribute_Some a k v : getAttribute a k = Some v → (k, v) ∈ a.
Proof.
  induction a as [|[k' v'] a IH]; cbn; [done|].
  destruct (String.eqb_spec k' k) as [->|Hne].
  - intros [= ->]. by left.
  - intros H. right. by apply IH.
Qed.

Lemma getAttribute_None a k : getAttribute a k = None ↔ k ∉ a.*1.
Proof.
  induction a as [|[k' v'] a IH]; cbn.
  - split; [intros _; apply not_elem_of_nil|done].
  - destruct (String.eqb_spec k' k) as [->|Hne].
    + split; [done|]. intros H. destruct H. by left.
    + rewrite IH, not_elem_of_cons. split; [by split|by intros [_ ?]].
Qed.

Lemma getAttribute_NoDup a k v : NoDup a.*1 → (k, v) ∈ a → getAttribute a k = Some v.
Proof.
  induction a as [|[k' v'] a IH]; cbn; [by intros _ ?%elem_of_nil|].
  intros [Hk' Hnd]%NoDup_cons [[= -> ->]|Hin]%elem_of_cons.
  - by rewrite String.eqb_refl.
  - destruct (String.eqb_spec k' k) as [->|Hne]; [|by apply IH].
    destruct Hk'. apply list_elem_of_fmap. by exists (k, v).
Qed.

Lemma getAttribute_setAttribute name val a k :
  getAttribute (Dom.setAttribute name val a) k
  = if decide (k = name) then Some val else getAttribute a k.
Proof.
  induction a as [|[k' v'] a IH]; cbn.
  - destruct (String.eqb_spec name k) as [->|Hne].
    + by rewrite decide_True.
    + by rewrite decide_False.
  - destruct (String.eqb_spec k' name) as [->|Hne]; cbn.
    + destruct (String.eqb_spec name k) as [->|Hne']; [by rewrite decide_True|].
      by rewrite decide_False.
    + destruct (String.eqb_spec k' k) as [->|Hne']; [by rewrite decide_False|done].
Qed.

Lemma setAttribute_names name val a :
  (Dom.setAttribute name val a).*1
  = if decide (name ∈ a.*1) then a.*1 else a.*1 ++ [name].
Proof.
  induction a as [|[k' v'] a IH]; cbn.
  - rewrite decide_False; [done|apply not_elem_of_nil].
  - destruct (String.eqb_spec k' name) as [->|Hne]; cbn.
    + rewrite decide_True; [done|by left].
    + rewrite IH. destruct (decide (name ∈ a.*1)) as [Hin|Hnin].
      * rewrite decide_True; [done|by right].
      * rewrite decide_False; [done|]. rewrite not_elem_of_cons. by split.
Qed.

Lemma setAttribute_NoDup name val a : NoDup a.*1 → NoDup (Dom.setAttribute name val a).*1.
Proof.
  intros Hnd. rewrite setAttribute_names. case_decide; [done|].
  apply NoDup_app. split; [done|]. split; [|apply NoDup_singleton].
  intros x Hx ->%list_elem_of_singleton. done.
Qed.

Lemma removeAttribute_NoDup name a : NoDup a.*1 → NoDup (Dom.removeAttribute name a).*1.
Proof.
  intros Hnd. unfold Dom.removeAttribute.
  induction a as [|[k v] a IH]; [done|].
  rewrite fmap_cons in Hnd. apply NoDup_cons in Hnd as [Hk Hnd].
  rewrite filter_cons. case_decide; [rewrite fmap_cons|].
  - apply NoDup_cons. split; [|by apply IH].
    intros ([k' v'] & [= <-] & Hin%list_elem_of_filter)%list_elem_of_fmap.
    apply Hk, list_elem_of_fmap. exists (k, v'). split; [done|]. by destruct Hin.
  - by apply IH.
Qed.

Lemma getAttribute_removeAttribute name a k :
  getAttribute (Dom.removeAttribute name a) k
  = if decide (k = name) then None else getAttribute a k.
Proof.
  unfold Dom.removeAttribute. induction a as [|[k' v'] a IH].
  - cbn. by case_decide.
  - rewrite filter_cons. destruct (decide ((k', v').1 ≠ name)) as [Hne|Heq%dec_stable];
      cbn in *.
    + destruct (String.eqb_spec k' k) as [->|Hne']; [by rewrite decide_False|exact IH].
    + subst k'. rewrite IH. destruct (decide (k = name)) as [->|Hne']; [done|].
      destruct (String.eqb_spec name k) as [->|Hne'']; done.
Qed.

(** Two lists of attributes with distinct names that answer
    [getAttribute] alike are equal to [isEqualNode]. *)
Lemma attributes_equal_intro a b :
  NoDup a.*1 → NoDup b.*1 →
  (∀ k, getAttribute a k = getAttribute b k) →
  attributes_equal a b = true.
Proof.
  intros Ha Hb Hget. unfold attributes_equal. apply andb_true_intro. split.
  - apply Nat.eqb_eq. rewrite <-(length_fmap fst a), <-(length_fmap fst b).
    apply Permutation_length, NoDup_Permutation; [done..|].
    intros k. split; intros Hk; apply dec_stable; intros Hn%getAttribute_None.
    + rewrite <-Hget in Hn. by apply getAttribute_None in Hn.
    + rewrite Hget in Hn. by apply getAttribute_None in Hn.
  - apply forallb_forall. intros [k v] Hin%list_elem_of_In. apply bool_decide_eq_true.
    cbn. rewrite <-Hget. by apply getAttribute_NoDup.
Qed.

Lemma attributes_equal_refl a : NoDup a.*1 → attributes_equal a a = true.
Proof. intros Ha. by apply attributes_equal_intro. Qed.

Lemma attributes_equal_trans a b c :
  attributes_equal a b = true → attributes_equal b c = true →
  attributes_equal a c = true.
Proof.
  unfold attributes_equal.
  intros [Hl1%Nat.eqb_eq H1]%andb_prop [Hl2%Nat.eqb_eq H2]%andb_prop.
  apply andb_true_intro. split; [apply Nat.eqb_eq; congruence|].
  rewrite forallb_forall in *. intros [k v] Hin.
  specialize (H1 _ Hin). apply bool_decide_eq_true in H1. cbn in H1.
  apply getAttribute_Some, list_elem_of_In in H1. by apply (H2 (k, v)).
Qed.

End attribute_facts.

Section node_facts.
Implicit Types (n into node : Node) (cs : list Node).

Lemma isEqualNode_Element u1 c1 t1 a1 v1 cs1 u2 c2 t2 a2 v2 cs2 :
  isEqualNode (Element u1 c1 t1 a1 v1 cs1) (Element u2 c2 t2 a2 v2 cs2)
  = String.eqb t1 t2 && attributes_equal a1 a2 && all_equal cs1 cs2.
Proof. reflexivity. Qed.

Lemma all_equal_Forall2 cs1 cs2 :
  all_equal cs1 cs2 = true ↔ Forall2 (λ x y, isEqualNode x y = true) cs1 cs2.
Proof.
  revert cs2. induction cs1 as [|x cs1 IH]; intros [|y cs2]; cbn.
  - split; [constructor|done].
  - split; [done|inversion 1].
  - split; [done|inversion 1].
  - rewrite andb_true_iff, IH. split.
    + intros [??]. by constructor.
    + inversion 1; by subst.
Qed.

Lemma distinct_attributes_Element u c t a v cs :
  distinct_attributes (Element u c t a v cs) = true
  ↔ NoDup a.*1 ∧ Forall (λ x, distinct_attributes x = true) cs.
Proof.
  cbn. rewrite andb_true_iff, bool_decide_eq_true, forallb_forall, Forall_forall.
  split; intros [H1 H2]; (split; [done|]); intros x Hx; apply H2;
    by apply list_elem_of_In.
Qed.

Lemma isEqualNode_refl n : distinct_attributes n = true → isEqualNode n n = true.
Proof.
  induction n as [u c d|u c t a v cs IH] using Node_ind'.
  - intros _. cbn. apply String.eqb_refl.
  - intros [Ha Hcs]%distinct_attributes_Element.
    rewrite isEqualNode_Element, String.eqb_refl, (attributes_equal_refl _ Ha). cbn.
    apply all_equal_Forall2. apply Forall_Forall2_diag.
    rewrite Forall_forall in *. intros x Hx. by apply IH, Hcs.
Qed.

Lemma isEqualNode_trans n1 : ∀ n2 n3,
  isEqualNode n1 n2 = true → isEqualNode n2 n3 = true → isEqualNode n1 n3 = true.
Proof.
  induction n1 as [u c d|u c t a v cs IH] using Node_ind';
    intros [u2 c2 d2|u2 c2 t2 a2 v2 cs2] [u3 c3 d3|u3 c3 t3 a3 v3 cs3]; try done.
  - cbn. intros ->%String.eqb_eq ->%String.eqb_eq. apply String.eqb_refl.
  - rewrite !isEqualNode_Element, !andb_true_iff.
    intros [[->%String.eqb_eq Ha12] Hc12] [[->%String.eqb_eq Ha23] Hc23].
    split; [split; [apply String.eqb_refl|by eapply attributes_equal_trans]|].
    apply all_equal_Forall2. apply all_equal_Forall2 in Hc12, Hc23.
    clear Ha12 Ha23. revert cs2 cs3 Hc12 Hc23.
    induction IH as [|x cs Hx _ IHcs]; intros cs2 cs3 H12 H23.
    + inversion H12; subst. inversion H23; subst. constructor.
    + inversion H12 as [|? y ? cs2' Hxy H12']; subst.
      inversion H23 as [|? z ? cs3' Hyz H23']; subst.
      constructor; [by eapply Hx|by eapply IHcs].
Qed.

Lemma cloneNode_Element u c t a v cs k :
  Dom.cloneNode (Element u c t a v cs) k
  = let '(cs', k') := clone_all cs (Pos.succ k) in
    (Element (Cloned k) None t a v cs', k').
Proof. reflexivity. Qed.

Lemma clone_all_cons x cs k :
  clone_all (x :: cs) k
  = let '(x', k1) := Dom.cloneNode x k in
    let '(cs', k2) := clone_all cs k1 in (x' :: cs', k2).
Proof. reflexivity. Qed.

(** A clone is equal to its original, and as well formed. *)
Lemma cloneNode_equal n : ∀ k,
  distinct_attributes n = true →
  isEqualNode (Dom.cloneNode n k).1 n = true
  ∧ distinct_attributes (Dom.cloneNode n k).1 = true.
Proof.
  induction n as [u c d|u c t a v cs IH] using Node_ind'; intros k.
  - intros _. cbn. split; [apply String.eqb_refl|done].
  - intros [Ha Hcs]%distinct_attributes_Element. rewrite cloneNode_Element.
    assert (Hall : ∀ k0, Forall2 (λ x y, isEqualNode x y = true) (clone_all cs k0).1 cs
                         ∧ Forall (λ x, distinct_attributes x = true) (clone_all cs k0).1).
    { clear Ha. induction IH as [|x cs Hx _ IHcs]; intros k0.
      - cbn. split; constructor.
      - apply Forall_cons in Hcs as [Hwx Hcs]. rewrite clone_all_cons.
        destruct (Hx k0 Hwx) as [Hx1 Hx2].
        destruct (Dom.cloneNode x k0) as [x' k1]. cbn [fst] in *.
        destruct (IHcs Hcs k1) as [Hcs1 Hcs2].
        destruct (clone_all cs k1) as [cs' k2]. cbn [fst] in *.
        split; by constructor. }
    destruct (Hall (Pos.succ k)) as [H1 H2].
    destruct (clone_all cs (Pos.succ k)) as [cs' k']. cbn [fst] in *. split.
    + rewrite isEqualNode_Element, String.eqb_refl, (attributes_equal_refl _ Ha). cbn.
      by apply all_equal_Forall2.
    + by apply distinct_attributes_Element.
Qed.

End node_facts.

Section patch_loops.
Implicit Types (n into node val : Node) (cs pre rest new : list Node)
  (a b : list (string * string)).

Lemma returns_impl {A} (m : M A) (P Q : A → Prop) :
  returns m P → (∀ x, P x → Q x) → returns m Q.
Proof. intros Hm HPQ w x w' E. by eapply HPQ, Hm. Qed.

(** The loop that takes away the children in excess. *)
Lemma trim_returns u c t a v pre rest :
  returns (foldM (removeChildAt (length pre)) (Element u c t a v (pre ++ rest)) rest)
          (λ n, n = Element u c t a v pre).
Proof.
  induction rest as [|x rest IH]; cbn [foldM].
  - apply returns_ret. by rewrite app_nil_r.
  - eapply (returns_bind _ _ (λ n, n = Element u c t a v (pre ++ rest))).
    + unfold removeChildAt. apply returns_emit_then. cbn. f_equal.
      apply delete_middle.
    + by intros n ->.
Qed.

Lemma trim_returns_take u c t a v cs l :
  l ≤ length cs →
  returns (foldM (removeChildAt l) (Element u c t a v cs) (drop l cs))
          (λ n, n = Element u c t a v (take l cs)).
Proof.
  intros Hl. pose proof (trim_returns u c t a v (take l cs) (drop l cs)) as H.
  rewrite take_drop in H. by rewrite length_take, Nat.min_l in H.
Qed.

(** The loop that takes away the attributes in excess. *)
Lemma removeAttributes_returns u c t v cs names : ∀ a,
  NoDup a.*1 →
  returns (foldM removeAttribute (Element u c t a v cs) names)
          (λ n, ∃ a', n = Element u c t a' v cs ∧ NoDup a'.*1
                      ∧ ∀ k, getAttribute a' k
                             = if decide (k ∈ names) then None else getAttribute a k).
Proof.
  induction names as [|name names IH]; intros a Ha; cbn [foldM].
  - apply returns_ret. exists a. split; [done|]. split; [done|]. intros k.
    rewrite decide_False; [done|apply not_elem_of_nil].
  - eapply (returns_bind _ _
              (λ n, n = Element u c t (Dom.removeAttribute name a) v cs)).
    + unfold removeAttribute. by apply returns_emit_then.
    + intros n ->. eapply returns_impl; [apply IH; by apply removeAttribute_NoDup|].
      intros n (a' & -> & Ha' & Hget). exists a'. split; [done|]. split; [done|].
      intros k. rewrite Hget, getAttribute_removeAttribute.
      destruct (decide (k = name)) as [->|Hne].
      * rewrite (decide_True (P := name ∈ name :: names)) by by left. by case_decide.
      * destruct (decide (k ∈ names)) as [Hin|Hnin].
        -- rewrite decide_True; [done|by right].
        -- rewrite decide_False; [done|]. rewrite not_elem_of_cons. by split.
Qed.

(** The loop that sets the attributes of [node]. *)
Lemma setAttributes_returns u c t cs b : ∀ a v,
  NoDup a.*1 → NoDup b.*1 →
  returns (foldM (λ into kv,
             into ← setAttribute into kv.1 kv.2;
             if String.eqb kv.1 "value" then setValue into kv.2 else mret into)
           (Element u c t a v cs) b)
          (λ n, ∃ a' v', n = Element u c t a' v' cs ∧ NoDup a'.*1
                         ∧ ∀ k, getAttribute a' k
                                = match getAttribute b k with
                                  | Some x => Some x
                                  | None => getAttribute a k
                                  end).
Proof.
  induction b as [|[k0 v0] b IH]; intros a v Ha Hb; cbn [foldM].
  - apply returns_ret. by exists a, v.
  - rewrite fmap_cons in Hb. apply NoDup_cons in Hb as [Hk0 Hb].
    eapply (returns_bind _ _
              (λ n, ∃ v', n = Element u c t (Dom.setAttribute k0 v0 a) v' cs)).
    + eapply (returns_bind _ _
                (λ n, n = Element u c t (Dom.setAttribute k0 v0 a) v cs)).
      * unfold setAttribute. by apply returns_emit_then.
      * intros n ->. cbn [fst snd]. destruct (String.eqb k0 "value").
        -- unfold setValue. apply returns_emit_then. by eexists.
        -- apply returns_ret. by eexists.
    + intros n [v' ->]. eapply returns_impl;
        [apply IH; [by apply setAttribute_NoDup|done]|].
      intros n (a' & v'' & -> & Ha' & Hget). exists a', v''.
      split; [done|]. split; [done|]. intros k.
      rewrite Hget, getAttribute_setAttribute. cbn.
      destruct (String.eqb_spec k0 k) as [->|Hne].
      * apply getAttribute_None in Hk0. cbn in Hk0. rewrite Hk0.
        by rewrite decide_True.
      * by rewrite decide_False.
Qed.

Lemma returns_cloneNode val :
  distinct_attributes val = true → returns (cloneNode val) (λ n, stands_for n val).
Proof.
  intros Hval w n w'. unfold cloneNode.
  pose proof (cloneNode_equal val (clones w) Hval) as H.
  destruct (Dom.cloneNode val (clones w)) as [n' k]. by intros [= <- _].
Qed.

(** The loop over the children of [node]: the children of [into] at
    [done] have been dealt with, those at [rest] have not. *)
Lemma forEachChild_returns rec u c t a v vals : ∀ done rest,
  Forall (λ val, distinct_attributes val = true) vals →
  (∀ val childInto, val ∈ vals → childInto ∈ rest →
     returns (rec childInto val) (λ r, stands_for r val)) →
  length rest ≤ length vals →
  returns (forEachChild rec vals (length done) (Element u c t a v (done ++ rest)))
          (λ n, ∃ new, n = Element u c t a v (done ++ new)
                       ∧ Forall2 stands_for new vals).
Proof.
  induction vals as [|val vals IH]; intros done rest Hvals Hrec Hlen;
    cbn [forEachChild].
  - destruct rest; [|cbn in Hlen; lia]. apply returns_ret. exists []. by split.
  - apply Forall_cons in Hvals as [Hval Hvals]. cbn [childNodes].
    rewrite lookup_app_r by done. rewrite Nat.sub_diag.
    destruct rest as [|childInto rest]; cbn [lookup list_lookup].
    + eapply (returns_bind _ _
                (λ n, ∃ child, n = Element u c t a v ((done ++ [child]) ++ [])
                               ∧ stands_for child val)).
      * eapply (returns_bind _ _ (λ child, stands_for child val)).
        -- case_bool_decide.
           ++ apply returns_ret. split; [by apply isEqualNode_refl|done].
           ++ by apply returns_cloneNode.
        -- intros child Hchild. unfold appendChild. apply returns_emit_then.
           exists child. split; [|done]. cbn. by rewrite !app_nil_r.
      * intros n (child & -> & Hchild).
        replace (S (length done)) with (length (done ++ [child]))
          by (rewrite length_app; cbn; lia).
        eapply returns_impl.
        { apply IH; [done| |cbn; lia]. intros ? ? _ []%elem_of_nil. }
        intros n (new & -> & Hnew). exists (child :: new).
        split; [by rewrite <-(assoc_L (++))|by constructor].
    + eapply (returns_bind _ _
                (λ n, ∃ r, n = Element u c t a v ((done ++ [r]) ++ rest)
                           ∧ stands_for r val)).
      * eapply (returns_bind _ _ (λ r, stands_for r val)).
        -- apply Hrec; by left.
        -- intros r Hr. apply returns_ret. exists r. split; [|done]. cbn. f_equal.
           rewrite insert_app_r_alt by done. rewrite Nat.sub_diag. cbn.
           by rewrite <-(assoc_L (++)).
      * intros n (r & -> & Hr).
        replace (S (length done)) with (length (done ++ [r]))
          by (rewrite length_app; cbn; lia).
        eapply returns_impl.
        { apply IH; [done| |cbn in Hlen; lia].
          intros val' childInto' Hv Hc. apply Hrec; by right. }
        intros n (new & -> & Hnew). exists (r :: new).
        split; [by rewrite <-(assoc_L (++))|by constructor].
Qed.

End patch_loops.

Section copyNode_result.
Implicit Types (n into node val : Node) (cs : list Node).

Lemma uid_in_uids n : uid n ∈ uids n.
Proof. destruct n; cbn; by left. Qed.

Lemma uids_child u c t a v cs x y :
  x ∈ cs → y ∈ uids x → y ∈ uids (Element u c t a v cs).
Proof.
  intros Hx Hy. cbn. right. apply list_elem_of_In, in_flat_map.
  exists x. split; by apply list_elem_of_In.
Qed.

Lemma apart_children u1 c1 t1 a1 v1 cs1 u2 c2 t2 a2 v2 cs2 x y :
  apart (Element u1 c1 t1 a1 v1 cs1) (Element u2 c2 t2 a2 v2 cs2) →
  x ∈ cs1 → y ∈ cs2 → apart x y.
Proof.
  intros H Hx Hy z Hzx Hzy.
  by apply (H z (uids_child _ _ _ _ _ _ _ _ Hx Hzx)), (uids_child _ _ _ _ _ cs2 y).
Qed.

(** What [copyNode] returns stands for [node]. *)
Lemma copyNode_stands_for node : ∀ into,
  distinct_attributes into = true →
  distinct_attributes node = true →
  apart into node →
  returns (copyNode into node) (λ r, stands_for r node).
Proof.
  induction node as [u c d|u c t a v cs IH] using Node_ind';
    intros into Hinto Hnode Hapart; rewrite copyNode_unfold.
  - rewrite bool_decide_false
      by (intros Heq; apply (Hapart (uid into)); [apply uid_in_uids|rewrite Heq; by left]).
    assert (H : replaced_at_once into (Text u c d) = true).
    { unfold replaced_at_once. cbn [nodeType].
      rewrite (bool_decide_true (TEXT_NODE = TEXT_NODE)) by done.
      by rewrite orb_true_r. }
    rewrite H. unfold replaceWith. apply returns_emit_then.
    split; [by apply isEqualNode_refl|done].
  - rewrite bool_decide_false
      by (intros Heq; apply (Hapart (uid into)); [apply uid_in_uids|rewrite Heq; by left]).
    assert (Hself : stands_for (Element u c t a v cs) (Element u c t a v cs))
      by (split; [by apply isEqualNode_refl|done]).
    destruct (replaced_at_once into _) eqn:H2.
    { unfold replaceWith. by apply returns_emit_then. }
    destruct (replaced_for_owner into _) eqn:H3.
    { eapply (returns_bind _ _ (λ _, True)); [done|]. intros _ _.
      eapply (returns_bind _ _ (λ _, True)); [done|]. intros _ _.
      by apply returns_ret. }
    destruct (isEqualNode into _) eqn:H4; [by apply returns_ret|].
    destruct into as [ui ci di|ui ci ti ai vi csi].
    { unfold replaced_at_once in H2. cbn [nodeType] in H2.
      rewrite (bool_decide_true (TEXT_NODE = TEXT_NODE)) in H2 by done.
      by rewrite orb_true_r in H2. }
    assert (Ht : ti = t).
    { unfold replaced_at_once in H2. cbn [tagName] in H2.
      apply orb_false_elim in H2 as [H2 _]. apply orb_false_elim in H2 as [H2 _].
      apply orb_false_elim in H2 as [H2 _]. apply bool_decide_eq_false in H2.
      apply dec_stable in H2. by injection H2. }
    subst ti. clear H2 H3 H4.
    apply distinct_attributes_Element in Hinto as [Hai Hcsi].
    pose proof Hnode as [Ha Hcs]%distinct_attributes_Element.
    cbn [childNodes attributes getAttributeNames].
    (* the children in excess *)
    eapply (returns_bind _ _
      (λ n, ∃ csi', n = Element ui ci t ai vi csi' ∧ length csi' ≤ length cs
                    ∧ ∀ x, x ∈ csi' → x ∈ csi)).
    { case_bool_decide as Hlen.
      - cbv zeta. eapply returns_impl; [apply trim_returns_take; lia|].
        intros n ->. eexists. split; [done|]. split; [rewrite length_take; lia|].
        intros x Hx. rewrite <-(take_drop (length cs) csi). apply elem_of_app. by left.
      - apply returns_ret. exists csi. split; [done|]. split; [lia|done]. }
    intros n (csi' & -> & Hlen & Hsub). cbn [attributes].
    (* the attributes in excess *)
    eapply returns_bind; [by apply removeAttributes_returns|].
    cbn beta. intros n (a1 & -> & Ha1 & Hget1).
    (* the children *)
    eapply returns_bind.
    { apply (forEachChild_returns copyNode ui ci t a1 vi cs [] csi'); [done| |done].
      intros val childInto Hval HchildInto.
      rewrite Forall_forall in IH, Hcsi, Hcs.
      apply IH; [done|by apply Hcsi, Hsub|by apply Hcs|].
      eapply apart_children; [exact Hapart|by apply Hsub|done]. }
    cbn beta. intros n (new & -> & Hnew). cbn [app].
    (* the attributes *)
    eapply returns_bind; [by apply setAttributes_returns|].
    cbn beta. intros n (a2 & v2 & -> & Ha2 & Hget2). apply returns_ret. split.
    + rewrite isEqualNode_Element, String.eqb_refl. cbn [andb].
      apply andb_true_intro. split.
      * apply attributes_equal_intro; [done..|]. intros k. rewrite Hget2, Hget1.
        destruct (getAttribute a k) as [x|] eqn:Hk; [done|].
        case_decide as Hin; [done|].
        destruct (getAttribute ai k) as [y|] eqn:Hik; [|done].
        destruct Hin. apply list_elem_of_filter. split.
        -- by apply getAttribute_None.
        -- apply getAttribute_Some in Hik. apply list_elem_of_fmap. by exists (k, y).
      * apply all_equal_Forall2. eapply Forall2_impl; [exact Hnew|]. by intros ? ? [? _].
    + apply distinct_attributes_Element. split; [done|].
      eapply Forall2_Forall_l; [exact Hnew|]. apply Forall_true. by intros ? ? [_ ?].
Qed.

End copyNode_result.

Section never_throws_facts.

Lemma never_throws_ret {A} (a : A) : never_throws (mret a).
Proof. intros w. by exists a, w. Qed.

Lemma never_throws_bind {A B} (m : M A) (k : A → M B) :
  never_throws m → (∀ a, never_throws (k a)) → never_throws (m ≫= k).
Proof.
  intros Hm Hk w. destruct (Hm w) as (a & w1 & E).
  rewrite (bind_run_ok _ _ _ _ _ E). apply Hk.
Qed.

Lemma never_throws_emit e : never_throws (emit e).
Proof. intros w. by eexists _, _. Qed.

Lemma never_throws_cloneNode n : never_throws (cloneNode n).
Proof. intros w. unfold cloneNode. destruct (Dom.cloneNode n (clones w)). by eexists _, _. Qed.

Lemma never_throws_foldM {A} (f : Node → A → M Node) items :
  (∀ n x, never_throws (f n x)) → ∀ into, never_throws (foldM f into items).
Proof.
  intros Hf. induction items as [|x items IH]; intros into; cbn [foldM].
  - apply never_throws_ret.
  - by apply never_throws_bind.
Qed.

Lemma never_throws_forEachChild rec vals :
  (∀ val childInto, val ∈ vals → never_throws (rec childInto val)) →
  ∀ index into, never_throws (forEachChild rec vals index into).
Proof.
  induction vals as [|val vals IH]; intros Hrec index into; cbn [forEachChild].
  - apply never_throws_ret.
  - apply never_throws_bind.
    + destruct (childNodes into !! index) as [childInto|].
      * apply never_throws_bind; [apply Hrec; by left|].
        intros r. apply never_throws_ret.
      * apply never_throws_bind.
        -- case_bool_decide; [apply never_throws_ret|apply never_throws_cloneNode].
        -- intros child. unfold appendChild.
           apply never_throws_bind; [apply never_throws_emit|].
           intros _. apply never_throws_ret.
    + intros n. apply IH. intros val' childInto' Hin. apply Hrec. by right.
Qed.

Lemma unowned_component n : unowned n = true → component n = None.
Proof.
  destruct n; cbn; [by intros ?%bool_decide_eq_true|].
  by intros [?%bool_decide_eq_true _]%andb_prop.
Qed.

Lemma unowned_children n :
  unowned n = true → Forall (λ val, unowned val = true) (childNodes n).
Proof.
  destruct n as [|u c t a v cs]; cbn; [constructor|].
  intros [_ H]%andb_prop. rewrite forallb_forall in H. apply Forall_forall.
  intros x Hx. by apply H, list_elem_of_In.
Qed.

(** Without a node that brings an owner, [copyNode] has no reason to
    throw. *)
Lemma copyNode_never_throws node : ∀ into,
  brings_no_owner into node → never_throws (copyNode into node).
Proof.
  induction node as [u c d|u c t a v cs IH] using Node_ind';
    intros into [Hroot Hbelow]; rewrite copyNode_unfold.
  - case_bool_decide as Hid; [apply never_throws_ret|].
    assert (H : replaced_at_once into (Text u c d) = true).
    { unfold replaced_at_once. cbn [nodeType].
      rewrite (bool_decide_true (TEXT_NODE = TEXT_NODE)) by done.
      by rewrite orb_true_r. }
    rewrite H. unfold replaceWith.
    apply never_throws_bind; [apply never_throws_emit|]. intros _. apply never_throws_ret.
  - case_bool_decide as Hid; [apply never_throws_ret|].
    destruct (replaced_at_once into _) eqn:H2.
    { unfold replaceWith.
      apply never_throws_bind; [apply never_throws_emit|]. intros _.
      apply never_throws_ret. }
    assert (H3 : replaced_for_owner into (Element u c t a v cs) = false).
    { unfold replaced_for_owner. destruct Hroot as [Hr|Hr]; cbn [component] in *.
      - subst c. rewrite (bool_decide_false (is_Some None)); [done|].
        by intros [? ?].
      - rewrite (bool_decide_false (component into ≠ c)); [apply andb_false_r|].
        intros Hne. by apply Hne. }
    rewrite H3. destruct (isEqualNode into _); [apply never_throws_ret|].
    apply never_throws_bind.
    { case_bool_decide as Hlen; [|apply never_throws_ret]. cbv zeta.
      apply never_throws_foldM. intros n x. unfold removeChildAt.
      apply never_throws_bind; [apply never_throws_emit|]. intros _.
      apply never_throws_ret. }
    intros n1. apply never_throws_bind.
    { apply never_throws_foldM. intros n x. unfold removeAttribute.
      apply never_throws_bind; [apply never_throws_emit|]. intros _.
      apply never_throws_ret. }
    intros n2. apply never_throws_bind.
    { apply never_throws_forEachChild. intros val childInto Hval.
      cbn [childNodes] in *. rewrite Forall_forall in IH, Hbelow.
      apply IH; [done|]. split.
      - left. by apply unowned_component, Hbelow.
      - by apply unowned_children, Hbelow. }
    intros n3. apply never_throws_bind; [|intros n4; apply never_throws_ret].
    apply never_throws_foldM. intros n x.
    apply never_throws_bind.
    { unfold setAttribute. apply never_throws_bind; [apply never_throws_emit|].
      intros _. apply never_throws_ret. }
    intros n'. destruct (String.eqb x.1 "value"); [|apply never_throws_ret].
    unfold setValue. apply never_throws_bind; [apply never_throws_emit|].
    intros _. apply never_throws_ret.
Qed.

End never_throws_facts.

(** X12: [copyNode(into, node)] on two trees that share no node object
    and in which no element has two attributes of the same name.  What it
    returns is equal to [node] for [isEqualNode], and has no element with
    two attributes of the same name either.  It returns whenever [node]
    brings no component of its own. *)
Theorem X12_copyNode_gives_node into node w :
  distinct_attributes into = true →
  distinct_attributes node = true →
  apart into node →
  (∀ r w', copyNode into node w = (Ok r, w') →
           isEqualNode r node = true ∧ distinct_attributes r = true)
  ∧ (brings_no_owner into node → ∃ r w', copyNode into node w = (Ok r, w')).
Proof.
  intros Hinto Hnode Hapart. split.
  - intros r w' E. by apply (copyNode_stands_for node into Hinto Hnode Hapart w r w').
  - intros Hfree. by apply copyNode_never_throws.
Qed.

Lemma div1_apart_div2 : apart Scenario.div1 Scenario.div2.
Proof.
  intros u Hu Hv. cbn in Hu, Hv.
  repeat (apply elem_of_cons in Hu as [->|Hu];
          [repeat (apply elem_of_cons in Hv as [Hv|Hv]; [discriminate|]);
           by apply elem_of_nil in Hv|]).
  by apply elem_of_nil in Hu.
Qed.

Lemma X12_copyNode_gives_node_witness :
  ∃ r w', copyNode Scenario.div1 Scenario.div2 Scenario.empty = (Ok r, w')
          ∧ isEqualNode r Scenario.div2 = true.
Proof.
  destruct (X12_copyNode_gives_node Scenario.div1 Scenario.div2 Scenario.empty
              eq_refl eq_refl div1_apart_div2) as [Hgives Hreturns].
  destruct Hreturns as (r & w' & E).
  - split; [by left|]. repeat constructor.
  - exists r, w'. split; [exact E|]. exact (proj1 (Hgives r w' E)).
Defined.

(** ** What [render] and [get] leave *)

Section render_facts.
Implicit Types (n el tree : Node) (c : Component) (w : world).

Lemma isEqualNode_set_component_l o a b :
  isEqualNode (set_component o a) b = isEqualNode a b.
Proof. by destruct a, b. Qed.

Lemma isEqualNode_set_component_r o a b :
  isEqualNode a (set_component o b) = isEqualNode a b.
Proof. by destruct a, b. Qed.

Lemma distinct_attributes_set_component o n :
  distinct_attributes (set_component o n) = distinct_attributes n.
Proof. by destruct n. Qed.

Lemma uids_set_component o n : uids (set_component o n) = uids n.
Proof. by destruct n. Qed.

Lemma component_set_component o n : component (set_component o n) = o.
Proof. by destruct n. Qed.

Lemma childNodes_set_component o n : childNodes (set_component o n) = childNodes n.
Proof. by destruct n. Qed.

Lemma set_component_idemp o n : set_component o (set_component o n) = set_component o n.
Proof. by destruct n. Qed.

Lemma putEvents_comps this target w : comps (putEvents this target w).2 = comps w.
Proof. apply same_comps_putEvents. Qed.

#[local] Instance same_renders_preorder :
  PreOrder (λ w w' : world, renders w' = renders w).
Proof. split; [done|]. intros x y z Hxy Hyz. congruence. Qed.

Lemma putEvents_renders this target w : renders (putEvents this target w).2 = renders w.
Proof.
  revert w. change (respects (λ w w' : world, renders w' = renders w)
                      (putEvents this target)).
  unfold putEvents, putEvents_each, bind_this. respects_tac; try done.
  all: intros w; unfold set_prop; by repeat case_match.
Qed.

Lemma copyNode_renders into node w : renders (copyNode into node w).2 = renders w.
Proof.
  revert w. change (respects (λ w w' : world, renders w' = renders w)
                      (copyNode into node)).
  apply respects_copyNode; [apply _|done| |].
  - intros n w. unfold cloneNode. by destruct (Dom.cloneNode n (clones w)).
  - intros n w. unfold putEvents_of. destruct (component n); [|done].
    apply putEvents_renders.
Qed.

(** What [render] leaves in [this.element] when it returns. *)
Lemma render_core this w c t w1 :
  comps w !! this = Some c →
  template c = Some t →
  distinct_attributes (t (_state c) (_props c) (renders w)) = true →
  (∀ el, element c = Some el →
         distinct_attributes el = true
         ∧ apart el (t (_state c) (_props c) (renders w))
         ∧ component el = Some this) →
  render this w = (Ok tt, w1) →
  ∃ el', comps w1 = <[this := with_element (Some el') c]> (comps w)
         ∧ renders w1 = S (renders w)
         ∧ isEqualNode el' (t (_state c) (_props c) (renders w)) = true
         ∧ distinct_attributes el' = true
         ∧ component el' = Some this.
Proof.
  intros Hc Ht Htree Hel E. unfold render in E.
  rewrite (bind_run_ok _ _ _ _ _ (getComp_run _ _ _ Hc)), Ht in E. mrun_in E.
  set (tree := t (_state c) (_props c) (renders w)) in *.
  set (w0 := set_renders _ w) in E.
  destruct (element c) as [el|] eqn:Hele.
  - destruct (Hel el eq_refl) as (Hwf & Hapart & Hown).
    rewrite isEqualNode_set_component_r in E.
    destruct (isEqualNode el tree) eqn:Heq; cbn [negb] in E.
    + injection E as <-. exists el. split; [|done]. cbn.
      rewrite insert_id; [done|]. rewrite Hc. f_equal. destruct c; cbn in *. by subst.
    + rewrite bind_run in E.
      destruct (copyNode el _ w0) as [[node|e] w2] eqn:Ecopy; [|done].
      mrun_in E.
      pose proof (copyNode_stands_for (set_component (Some this) tree) el Hwf) as Hst.
      rewrite distinct_attributes_set_component in Hst.
      specialize (Hst Htree).
      destruct (Hst (λ u Hu, eq_ind_r (λ l, u ∉ l) (Hapart u Hu) (uids_set_component _ _))
                  _ _ _ Ecopy) as [Hnode Hnodewf].
      rewrite isEqualNode_set_component_r in Hnode.
      pose proof (putEvents_comps this None
                    (set_comps (insert this (with_element
                       (Some (set_component (Some this) node)) c)) w2)) as Hput.
      rewrite E in Hput. cbn in Hput.
      pose proof (same_comps_copyNode el (set_component (Some this) tree) w0) as Hcopy.
      rewrite Ecopy in Hcopy. unfold same_comps in Hcopy. cbn in Hcopy.
      pose proof (putEvents_renders this None
                    (set_comps (insert this (with_element
                       (Some (set_component (Some this) node)) c)) w2)) as Hputr.
      rewrite E in Hputr. cbn in Hputr.
      pose proof (copyNode_renders el (set_component (Some this) tree) w0) as Hcopyr.
      rewrite Ecopy in Hcopyr. cbn in Hcopyr.
      exists (set_component (Some this) node).
      rewrite Hput, Hcopy. split; [done|].
      rewrite isEqualNode_set_component_l, distinct_attributes_set_component,
        component_set_component.
      split; [congruence|done].
  - mrun_in E. rewrite set_component_idemp in E.
    pose proof (putEvents_comps this None
                  (set_comps (insert this (with_element
                     (Some (set_component (Some this) tree)) c)) w0)) as Hput.
    rewrite E in Hput. cbn in Hput.
    exists (set_component (Some this) tree). rewrite Hput. split; [done|].
    rewrite isEqualNode_set_component_l, distinct_attributes_set_component,
      component_set_component.
    pose proof (putEvents_renders this None
                  (set_comps (insert this (with_element
                     (Some (set_component (Some this) tree)) c)) w0)) as Hputr.
    rewrite E in Hputr. cbn in Hputr.
    split; [done|]. split; [by apply isEqualNode_refl|done].
Qed.

End render_facts.

Section render_returns.

Lemma putEvents_no_events this target w c :
  comps w !! this = Some c → events c = None → putEvents this target w = (Ok tt, w).
Proof.
  intros Hc Hev. unfold putEvents.
  rewrite (bind_run_ok _ _ _ _ _ (getComp_run _ _ _ Hc)). by rewrite Hev.
Qed.

(** An instance without event listeners whose template brings no other
    component: [render] returns. *)
Lemma render_returns this w c t :
  comps w !! this = Some c →
  template c = Some t →
  events c = None →
  Forall (λ val, unowned val = true)
         (childNodes (t (_state c) (_props c) (renders w))) →
  (∀ el, element c = Some el → component el = Some this) →
  ∃ w1, render this w = (Ok tt, w1).
Proof.
  intros Hc Ht Hev Hbelow Hown. unfold render.
  rewrite (bind_run_ok _ _ _ _ _ (getComp_run _ _ _ Hc)), Ht. mrun.
  set (tree := t (_state c) (_props c) (renders w)) in *.
  set (w0 := set_renders _ w).
  destruct (element c) as [el|] eqn:Hele.
  - destruct (negb _); [|by eexists].
    destruct (copyNode_never_throws (set_component (Some this) tree) el) with (w := w0)
      as (node & w2 & Ecopy).
    { split.
      - right. by rewrite component_set_component, (Hown el eq_refl).
      - by rewrite childNodes_set_component. }
    rewrite bind_run, Ecopy. mrun.
    pose proof (same_comps_copyNode el (set_component (Some this) tree) w0) as Hcopy.
    rewrite Ecopy in Hcopy. unfold same_comps in Hcopy. cbn in Hcopy.
    erewrite putEvents_no_events;
      [by eexists|cbn; by rewrite lookup_insert_eq|done].
  - mrun. erewrite putEvents_no_events;
      [by eexists|cbn; by rewrite lookup_insert_eq|done].
Qed.

End render_returns.

(** X13: [render] on an instance with a template that builds its tree
    from new nodes: the element of the instance, if it has one, is its own,
    has no attribute twice, and shares no node object with the tree the
    template returns, which has no attribute twice either.  (A template that
    puts nodes of the live tree into the tree it returns, as one does that
    calls [get()] of child components whose elements are mounted in it, is
    not covered.)  When [render] returns, the instance has an element that
    is equal for [isEqualNode] to the tree the template returned for its
    state and props, and of which it is the owner; no other field has
    changed.  [render] returns when, moreover, the instance has no list of
    events and the template brings no other component. *)
Theorem X13_render_shows_template this w c t :
  comps w !! this = Some c →
  template c = Some t →
  distinct_attributes (t (_state c) (_props c) (renders w)) = true →
  (∀ el, element c = Some el →
         distinct_attributes el = true
         ∧ apart el (t (_state c) (_props c) (renders w))
         ∧ component el = Some this) →
  (∀ w1, render this w = (Ok tt, w1) →
     ∃ el', comps w1 !! this = Some (with_element (Some el') c)
            ∧ isEqualNode el' (t (_state c) (_props c) (renders w)) = true
            ∧ distinct_attributes el' = true
            ∧ component el' = Some this)
  ∧ (events c = None →
     Forall (λ val, unowned val = true)
            (childNodes (t (_state c) (_props c) (renders w))) →
     ∃ w1, render this w = (Ok tt, w1)).
Proof.
  intros Hc Ht Htree Hel. split.
  - intros w1 E.
    destruct (render_core this w c t w1 Hc Ht Htree Hel E)
      as (el' & Hcomps & _ & Heq & Hwf & Hown).
    exists el'. by rewrite Hcomps, lookup_insert_eq.
  - intros Hev Hbelow. apply (render_returns this w c t Hc Ht Hev Hbelow).
    intros el Hele. by destruct (Hel el Hele) as (_ & _ & ?).
Qed.

(** X14: a template that builds its tree from new nodes at each call, and
    whose tree depends on the state and the props only (two calls give
    trees that are equal for [isEqualNode]): right after a [render] that
    returned, a second [render] calls the template and nothing else: it
    calls no DOM primitive, attaches no listener and leaves the element in
    place.  Both calls of the template are asked to give a tree that shares
    no node object with the element the instance has at that time; a
    template that puts nodes of the live tree into the tree it returns is
    not covered. *)
Theorem X14_render_is_idempotent this w c t w1 :
  comps w !! this = Some c →
  template c = Some t →
  distinct_attributes (t (_state c) (_props c) (renders w)) = true →
  (∀ el, element c = Some el →
         distinct_attributes el = true
         ∧ apart el (t (_state c) (_props c) (renders w))
         ∧ component el = Some this) →
  (∀ n m, isEqualNode (t (_state c) (_props c) n) (t (_state c) (_props c) m) = true) →
  render this w = (Ok tt, w1) →
  (∀ c1 el1, comps w1 !! this = Some c1 → element c1 = Some el1 →
             apart el1 (t (_state c) (_props c) (renders w1))) →
  render this w1 = (Ok tt, set_renders (S (renders w1)) w1).
Proof.
  intros Hc Ht Htree Hel Hstable E _.
  destruct (render_core this w c t w1 Hc Ht Htree Hel E)
    as (el' & Hcomps & _ & Heq & _ & _).
  assert (Hc1 : comps w1 !! this = Some (with_element (Some el') c))
    by by rewrite Hcomps, lookup_insert_eq.
  unfold render. rewrite (bind_run_ok _ _ _ _ _ (getComp_run _ _ _ Hc1)).
  cbn [template with_element]. rewrite Ht. mrun. cbn [element with_element _state _props].
  rewrite isEqualNode_set_component_r.
  by rewrite (isEqualNode_trans _ _ _ Heq (Hstable (renders w) (renders w1))).
Qed.

Section get_facts.

(** After a [render] that returned, the instance has an element. *)
Lemma render_mounts this w c w1 :
  comps w !! this = Some c → render this w = (Ok tt, w1) →
  ∃ el, comps w1 !! this = Some (with_element (Some el) c).
Proof.
  intros Hc E. unfold render in E.
  rewrite (bind_run_ok _ _ _ _ _ (getComp_run _ _ _ Hc)) in E.
  destruct (template c) as [t|]; [|done]. mrun_in E.
  set (w0 := set_renders _ w) in E.
  set (newTemp := set_component _ _) in E.
  destruct (element c) as [el|] eqn:Hele.
  - destruct (isEqualNode el newTemp); cbn [negb] in E.
    + injection E as <-. exists el. cbn. rewrite Hc. f_equal. destruct c; cbn in *.
      by subst.
    + rewrite bind_run in E.
      pose proof (same_comps_copyNode el newTemp w0) as Hcopy.
      destruct (copyNode el newTemp w0) as [[node|e] w2]; [|done]. mrun_in E.
      pose proof (putEvents_comps this None
                    (set_comps (insert this (with_element
                       (Some (set_component (Some this) node)) c)) w2)) as Hput.
      rewrite E in Hput. cbn in Hput. eexists. by rewrite Hput, lookup_insert_eq.
  - mrun_in E.
    pose proof (putEvents_comps this None
                  (set_comps (insert this (with_element
                     (Some (set_component (Some this) newTemp)) c)) w0)) as Hput.
    rewrite E in Hput. cbn in Hput. eexists. by rewrite Hput, lookup_insert_eq.
Qed.

(** Whatever its outcome, [render] keeps the props of the instance. *)
Lemma render_props this w c r w1 :
  comps w !! this = Some c → render this w = (r, w1) →
  ∃ c1, comps w1 !! this = Some c1 ∧ _props c1 = _props c ∧ _state c1 = _state c.
Proof.
  intros Hc E.
  destruct (render_comps this w) as [H|(c' & el & Hc' & H)]; rewrite E in H; cbn in H.
  - exists c. by rewrite H.
  - rewrite Hc in Hc'. injection Hc' as <-. eexists. by rewrite H, lookup_insert_eq.
Qed.

End get_facts.

(** X15: [get(props)] stores the props before it renders.  Whether it
    returns or throws, the getter [props] then answers the props it was
    given (none when it was given none).  When it returns, it returns the
    element of the instance, which has one, and the state is the one of
    before. *)
Theorem X15_get_stores_props this p w c :
  comps w !! this = Some c →
  (∀ r w1, get this p w = (r, w1) → props this w1 = (Ok (default ∅ p), w1))
  ∧ (∀ r w1, get this p w = (Ok r, w1) →
       ∃ el, r = Some el
             ∧ comps w1 !! this
               = Some (with_element (Some el) (with_props (default ∅ p) c))).
Proof.
  intros Hc.
  assert (Hc0 : comps (set_comps (insert this (with_props (default ∅ p) c)) w) !! this
                = Some (with_props (default ∅ p) c))
    by (cbn; by rewrite lookup_insert_eq).
  split.
  - intros r w1. unfold get.
    rewrite (bind_run_ok _ _ _ _ _ (getComp_run _ _ _ Hc)). rewrite bind_run.
    cbn [setComp modify]. rewrite bind_run.
    destruct (render this _) as [rr w2] eqn:Er.
    destruct (render_props _ _ _ _ _ Hc0 Er) as (c1 & Hc1 & Hp1 & _).
    assert (Hw2 : props this w2 = (Ok (default ∅ p), w2)).
    { unfold props. by rewrite (bind_run_ok _ _ _ _ _ (getComp_run _ _ _ Hc1)), Hp1. }
    destruct rr as [[]|e].
    + rewrite (bind_run_ok _ _ _ _ _ (getComp_run _ _ _ Hc1)). by intros [= _ <-].
    + by intros [= _ <-].
  - intros r w1. unfold get.
    rewrite (bind_run_ok _ _ _ _ _ (getComp_run _ _ _ Hc)). rewrite bind_run.
    cbn [setComp modify]. rewrite bind_run.
    destruct (render this _) as [[[]|e] w2] eqn:Er; [|done].
    destruct (render_mounts _ _ _ _ Hc0 Er) as (el & Hc1).
    rewrite (bind_run_ok _ _ _ _ _ (getComp_run _ _ _ Hc1)). intros [= <- <-].
    by exists el.
Qed.

(** ** Listeners: the wrappers [putEvents] caches *)

Section putEvents_again.
Implicit Types (w : world) (current e : JS.value) (cells : gmap loc cell)
  (items : list JS.value) (n : Node).

(** A turn of the loop on an entry that has its wrapper: the wrapper is
    attached, nothing is written. *)
Lemma putEvents_each_cached this n current w :
  truthy (prop (cells w) current "_listener") = true →
  putEvents_each this (Some n) current w
  = (Ok tt, logged [reattach (cells w) n current] w).
Proof.
  intros Hcached.
  destruct (prop_truthy _ _ _ Hcached) as (l & props & -> & Hl).
  unfold putEvents_each. rewrite bind_run, get_prop_object, Hcached. cbn [negb]. mrun.
  by rewrite get_prop_object, bind_run, get_prop_object, emit_run.
Qed.

Lemma forEach_putEvents_cached this n items w :
  Forall (λ e, truthy (prop (cells w) e "_listener") = true) items →
  forEach (putEvents_each this (Some n)) items w
  = (Ok tt, logged (reattach (cells w) n <$> items) w).
Proof.
  intros H. revert w H. induction items as [|current items IH]; intros w H.
  - cbn. by rewrite logged_nil.
  - apply Forall_cons in H as [Hc H]. cbn [forEach].
    rewrite bind_run, (putEvents_each_cached _ _ _ _ Hc).
    rewrite (IH (logged [reattach (cells w) n current] w)) by done.
    by rewrite logged_app.
Qed.

(** Caching the wrapper of an entry leaves the wrappers that are cached. *)
Lemma cached_on_listener this cells current e :
  truthy (prop cells e "_listener") = true →
  prop (cached_on this cells current) e "_listener" = prop cells e "_listener".
Proof.
  intros He. unfold cached_on.
  destruct (truthy (prop cells current "_listener")) eqn:Hcached; [done|].
  destruct current as [| | | | |l|]; try done.
  destruct (cells !! l) as [[|props]|] eqn:Hl; try done.
  unfold prop. destruct e as [| | | | |p|]; try done.
  destruct (decide (p = l)) as [->|Hne]; [|by rewrite lookup_insert_ne].
  unfold prop in He, Hcached. rewrite Hl in He, Hcached. congruence.
Qed.

Lemma foldl_cached_on_listener this items cells e :
  truthy (prop cells e "_listener") = true →
  prop (foldl (cached_on this) cells items) e "_listener" = prop cells e "_listener".
Proof.
  revert cells. induction items as [|current items IH]; intros cells He; [done|].
  cbn [foldl]. rewrite IH; rewrite cached_on_listener; done.
Qed.

(** Once its wrapper is cached, an entry has it for its [_listener]. *)
Lemma cached_on_self this cells current :
  truthy (wrapper cells this current) = true →
  prop (cached_on this cells current) current "_listener" = wrapper cells this current.
Proof.
  intros Hw. unfold cached_on.
  destruct (truthy (prop cells current "_listener")) eqn:Hcached.
  { unfold wrapper. by rewrite Hcached. }
  assert (Hobj : ∃ l props, current = VObject l ∧ cells !! l = Some (Obj props)).
  { unfold wrapper in Hw. rewrite Hcached in Hw.
    destruct (truthy (prop cells current "selector")) eqn:Hsel;
      [by eapply prop_truthy|].
    destruct (prop cells current "listener") eqn:Hli; try done.
    eapply prop_truthy. by rewrite Hli. }
  destruct Hobj as (l & props & -> & Hl). rewrite Hl.
  apply prop_insert_listener_eq.
Qed.

Lemma foldl_cached_on_prop this items name o : ∀ cells,
  name ≠ "_listener" →
  prop (foldl (cached_on this) cells items) o name = prop cells o name.
Proof.
  induction items as [|current items IH]; intros cells Hname; [done|].
  cbn [foldl]. by rewrite IH, cached_on_prop.
Qed.

Lemma foldl_cached_on_wrappers this items : ∀ cells,
  Forall (λ e, truthy (wrapper cells this e) = true) items →
  Forall (λ e, prop (foldl (cached_on this) cells items) e "_listener"
               = wrapper cells this e) items.
Proof.
  induction items as [|current items IH]; intros cells H; [constructor|].
  apply Forall_cons in H as [Hc H]. cbn [foldl]. constructor.
  - rewrite foldl_cached_on_listener; rewrite (cached_on_self _ _ _ Hc); done.
  - assert (H1 : Forall (λ e, truthy (wrapper (cached_on this cells current) this e) = true)
                   items).
    { eapply Forall_impl; [exact H|]. intros e He. by rewrite cached_on_wrapper. }
    eapply Forall_impl; [apply (IH _ H1)|]. intros e He. cbn beta in He.
    by rewrite He, cached_on_wrapper.
Qed.

(** The loop of [putEvents] when it returns: every entry had or got a
    wrapper. *)
Lemma putEvents_forEach_ok this n items : ∀ w w',
  forEach (putEvents_each this (Some n)) items w = (Ok tt, w') →
  Forall (λ e, truthy (wrapper (cells w) this e) = true) items
  ∧ w' = logged (attach (cells w) this n <$> items)
           (set_cells (λ _, foldl (cached_on this) (cells w) items) w).
Proof.
  induction items as [|current items IH]; intros w w'; cbn [forEach].
  - intros [= <-]. split; [constructor|]. cbn. by rewrite set_cells_id, logged_nil.
  - rewrite bind_run.
    destruct (putEvents_each_run this n current w) as [[-> Htruthy]|[err ->]]; [|done].
    intros E. destruct (IH _ _ E) as [Hall ->]. split.
    + constructor; [done|]. eapply Forall_impl; [exact Hall|]. intros e He.
      cbn in He. by rewrite cached_on_wrapper in He.
    + cbn [take fmap list_fmap foldl cells logged set_log set_cells].
      rewrite (list_fmap_ext (attach (cached_on this (cells w) current) this n)
                 (attach (cells w) this n))
        by (intros; by apply attach_cached_on).
      unfold logged, set_log, set_cells. cbn. by rewrite <-(assoc_L (++)).
Qed.

End putEvents_again.

(** X16: after a [putEvents] that returned, every entry of the list has
    its wrapper in [_listener], and the listeners that were attached are
    these.  A later [putEvents], on the same node or on another, hands the
    same wrappers to [addEventListener], one call for each entry in the
    order of the list, and writes nothing. *)
Theorem X16_putEvents_caches_wrappers this n w c a items w1 :
  comps w !! this = Some c →
  events c = Some a →
  cells w !! a = Some (Arr items) →
  putEvents this (Some n) w = (Ok tt, w1) →
  log w1 = log w ++ (reattach (cells w1) n <$> items)
  ∧ Forall (λ e, truthy (prop (cells w1) e "_listener") = true) items
  ∧ ∀ n2, putEvents this (Some n2) w1
          = (Ok tt, logged (reattach (cells w1) n2 <$> items) w1).
Proof.
  intros Hc Ha Hitems E. unfold putEvents in E.
  rewrite (bind_run_ok _ _ _ _ _ (getComp_run _ _ _ Hc)), Ha in E.
  rewrite (bind_run_ok _ _ _ _ _ (items_of_run _ _ _ Hitems)) in E.
  destruct (putEvents_forEach_ok _ _ _ _ _ E) as [Hall ->].
  pose proof (foldl_cached_on_wrappers this items (cells w) Hall) as Hw.
  cbn [cells log logged set_log set_cells].
  assert (Hready : Forall (λ e, truthy (prop (foldl (cached_on this) (cells w) items)
                                          e "_listener") = true) items).
  { rewrite Forall_forall in *. intros e He. rewrite (Hw e He). by apply Hall. }
  split; [|split; [done|]].
  - f_equal. apply Forall_fmap_ext. rewrite Forall_forall in *. intros e He.
    unfold attach, reattach. by rewrite (Hw e He), foldl_cached_on_prop.
  - intros n2. set (w1 := logged _ _).
    assert (Hc1 : comps w1 !! this = Some c) by done.
    assert (Hitems1 : cells w1 !! a = Some (Arr items))
      by by apply (proj1 (proj2 (foldl_cached_on_frame this items (cells w)))).
    unfold putEvents.
    rewrite (bind_run_ok _ _ _ _ _ (getComp_run _ _ _ Hc1)), Ha.
    rewrite (bind_run_ok _ _ _ _ _ (items_of_run _ _ _ Hitems1)).
    by apply forEach_putEvents_cached.
Qed.

(** ** Listeners: adding and removing *)

Section listener_facts.
Implicit Types (w : world) (e event : JS.value) (cells : gmap loc cell)
  (items : list JS.value).

Lemma prop_ext cells cells' o name :
  (∀ l, o = VObject l → cells' !! l = cells !! l) → prop cells' o name = prop cells o name.
Proof. intros H. unfold prop. destruct o as [| | | | |l|]; try done. by rewrite (H l). Qed.

Lemma forEach_app {A} (f : A → M unit) l1 l2 w :
  forEach f (l1 ++ l2) w
  = match forEach f l1 w with
    | (Ok _, w') => forEach f l2 w'
    | (Throw e, w') => (Throw e, w')
    end.
Proof.
  revert w. induction l1 as [|x l1 IH]; intros w; [done|].
  cbn [app forEach]. rewrite !bind_run. destruct (f x w) as [[[]|e] w1]; [apply IH|done].
Qed.

(** [findIndex] with the test of [removeEventListener], on entries none of
    which is [null] or [undefined]. *)
Lemma findIndex_matches type listener selector items w :
  Forall (λ e, e ≠ VUndefined ∧ e ≠ VNull) items →
  findIndex (λ event,
     t ← get_prop event "type";
     l ← get_prop event "listener";
     s ← get_prop event "selector";
     mret (strict_eq t type && strict_eq l listener
           && ((negb (truthy s) && negb (truthy selector)) || strict_eq s selector)))
    items w
  = (Ok (first_index (matches (cells w) type listener selector) items), w).
Proof.
  induction 1 as [|e items [Hu Hn] _ IH]; [done|].
  cbn [findIndex first_index].
  rewrite !bind_run, (get_prop_ok _ _ _ Hu Hn).
  rewrite !bind_run, (get_prop_ok _ _ _ Hu Hn).
  rewrite !bind_run, (get_prop_ok _ _ _ Hu Hn). mrun.
  fold (matches (cells w) type listener selector e).
  destruct (matches (cells w) type listener selector e); [done|].
  by rewrite bind_run, IH.
Qed.

Lemma first_index_none {A} (p : A → bool) (xs : list A) :
  Forall (λ x, p x = false) xs → first_index p xs = None.
Proof. induction 1 as [|x xs Hx _ IH]; [done|]. cbn. by rewrite Hx, IH. Qed.

Lemma first_index_last {A} (p : A → bool) (xs : list A) x :
  Forall (λ x, p x = false) xs → p x = true →
  first_index p (xs ++ [x]) = Some (length xs).
Proof.
  intros H Hx. induction H as [|y xs Hy _ IH]; cbn; [by rewrite Hx|].
  by rewrite Hy, IH.
Qed.

Lemma cached_not_nullish cells e :
  truthy (prop cells e "_listener") = true → e ≠ VUndefined ∧ e ≠ VNull.
Proof. intros (l & props & -> & _)%prop_truthy. by split. Qed.

End listener_facts.

(** X17: [removeEventListener] on an instance without a list of events,
    or for a type, a listener and a selector that no entry of its list
    matches, returns and changes nothing: the list is as it was and no DOM
    primitive is called. *)
Theorem X17_removeEventListener_without_match x type listener selector w c :
  comps w !! x = Some c →
  (events c = None → removeEventListener x type listener selector w = (Ok tt, w))
  ∧ (∀ a items,
       events c = Some a →
       cells w !! a = Some (Arr items) →
       Forall (λ e, e ≠ VUndefined ∧ e ≠ VNull) items →
       Forall (λ e, matches (cells w) type listener (default VNull selector) e = false)
              items →
       removeEventListener x type listener selector w = (Ok tt, w)).
Proof.
  intros Hc. unfold removeEventListener. cbv zeta.
  rewrite (bind_run_ok _ _ _ _ _ (getComp_run _ _ _ Hc)). split.
  - by intros ->.
  - intros a items -> Hitems Hok Hnone.
    rewrite (bind_run_ok _ _ _ _ _ (items_of_run _ _ _ Hitems)).
    rewrite bind_run, (findIndex_matches _ _ _ _ _ Hok).
    by rewrite (first_index_none _ _ Hnone).
Qed.

Section round_trip.
Implicit Types (w : world) (e : JS.value) (cells : gmap loc cell)
  (items : list JS.value).

Lemma matches_ext cells cells' type listener selector e :
  (∀ l, e = VObject l → cells' !! l = cells !! l) →
  matches cells' type listener selector e = matches cells type listener selector e.
Proof. intros H. unfold matches. by rewrite !(prop_ext cells cells' e _ H). Qed.

Lemma reattach_ext cells cells' n e :
  (∀ l, e = VObject l → cells' !! l = cells !! l) →
  reattach cells' n e = reattach cells n e.
Proof. intros H. unfold reattach. by rewrite !(prop_ext cells cells' e _ H). Qed.

Lemma truthy_strict_eq_refl v : truthy v = true → strict_eq v v = true.
Proof.
  destruct v as [| |b|[| |[]]|str|l|g]; cbn; try done; intros _;
    by apply bool_decide_eq_true.
Qed.

(** A turn of the loop of [putEvents] on an entry without a cached
    wrapper, for which one can be built. *)
Lemma putEvents_each_fresh this n current w :
  truthy (prop (cells w) current "_listener") = false →
  truthy (wrapper (cells w) this current) = true →
  putEvents_each this (Some n) current w
  = (Ok tt, logged [attach (cells w) this n current]
              (set_cells (λ _, cached_on this (cells w) current) w)).
Proof.
  intros Hcached Hw.
  destruct (putEvents_each_run this n current w) as [[-> _]|[err Herr]]; [done|].
  exfalso. revert Herr.
  assert (Hobj : ∃ l props, current = VObject l ∧ cells w !! l = Some (Obj props)).
  { unfold wrapper in Hw. rewrite Hcached in Hw.
    destruct (truthy (prop (cells w) current "selector")) eqn:Hsel;
      [by eapply prop_truthy|].
    destruct (prop (cells w) current "listener") eqn:Hli; try done.
    eapply prop_truthy. by rewrite Hli. }
  destruct Hobj as (l & props & -> & Hl).
  unfold putEvents_each. rewrite bind_run, get_prop_object, Hcached. cbn [negb].
  rewrite bind_run, bind_run, get_prop_object.
  unfold wrapper in Hw. rewrite Hcached in Hw.
  destruct (truthy (prop (cells w) (VObject l) "selector")).
  - mrun. unfold set_prop at 1. rewrite Hl.
    repeat (mrun; rewrite ?get_prop_object, ?emit_run). done.
  - rewrite !bind_run, get_prop_object.
    destruct (prop (cells w) (VObject l) "listener"); try done.
    cbn [bind_this]. mrun. unfold set_prop at 1. rewrite Hl.
    repeat (mrun; rewrite ?get_prop_object, ?emit_run). done.
Qed.

End round_trip.

(** X18: on a mounted instance whose entries have their wrappers,
    [addEventListener] for a listener that no entry matches appends one
    entry, attaches again the wrappers of the entries that were there, and
    attaches the wrapper of the new one: delegated with a selector, bound to
    the instance without.  [removeEventListener] with the same arguments
    then detaches that very wrapper and takes the entry out: the list is
    the one of before, and no other cell that was there has changed. *)
Theorem X18_addEventListener_then_remove x type f selector w c a items el :
  comps w !! x = Some c →
  events c = Some a →
  cells w !! a = Some (Arr items) →
  element c = Some el →
  Forall (λ e, truthy (prop (cells w) e "_listener") = true) items →
  Forall (λ e, matches (cells w) type (VFunction f) (default VNull selector) e = false)
         items →
  strict_eq type type = true →
  let entry := fresh (dom (cells w)) in
  let wrapped := if truthy (default VNull selector)
                 then VFunction (Delegated x entry)
                 else VFunction (Bound x entry f) in
  ∃ w1 w2,
    addEventListener x type (VFunction f) selector w = (Ok tt, w1)
    ∧ log w1 = log w ++ (reattach (cells w) el <$> items)
                     ++ [AddEventListener (uid el) type wrapped]
    ∧ cells w1 !! a = Some (Arr (items ++ [VObject entry]))
    ∧ removeEventListener x type (VFunction f) selector w1 = (Ok tt, w2)
    ∧ log w2 = log w1 ++ [RemoveEventListener (uid el) type wrapped]
    ∧ cells w2 !! a = Some (Arr items)
    ∧ comps w2 = comps w
    ∧ ∀ l, l ≠ entry → cells w2 !! l = cells w !! l.
Proof.
  intros Hc Ha Hitems Hel Hready Hnone Htype entry wrapped.
  set (sel := default VNull selector) in *.
  set (obj := <["type" := type]> (<["listener" := VFunction f]>
                (<["selector" := sel]> (∅ : gmap string JS.value)))).
  assert (Hobj_type : JS.get obj "type" = type) by reflexivity.
  assert (Hobj_listener : JS.get obj "listener" = VFunction f) by reflexivity.
  assert (Hobj_sel : JS.get obj "selector" = sel) by reflexivity.
  assert (Hobj_cached : JS.get obj "_listener" = VUndefined) by reflexivity.
  assert (Hentry : cells w !! entry = None) by (apply not_elem_of_dom, is_fresh).
  assert (Hae : a ≠ entry) by congruence.
  assert (Hitems_ne : ∀ e, e ∈ items → ∀ l, e = VObject l → l ≠ entry ∧ l ≠ a).
  { intros e He l ->. rewrite Forall_forall in Hready. specialize (Hready _ He).
    apply prop_truthy in Hready as (l' & props & [= <-] & Hl). split; congruence. }
  (* the heap after the entry is made and pushed *)
  set (cells1 := <[a := Arr (items ++ [VObject entry])]> (<[entry := Obj obj]> (cells w))).
  assert (Hsame1 : ∀ e, e ∈ items → ∀ l, e = VObject l → cells1 !! l = cells w !! l).
  { intros e He l Hl. destruct (Hitems_ne e He l Hl). unfold cells1.
    by rewrite !lookup_insert_ne. }
  assert (Hentry1 : cells1 !! entry = Some (Obj obj)).
  { unfold cells1. rewrite lookup_insert_ne by done. by rewrite lookup_insert_eq. }
  assert (Hp1 : ∀ name, prop cells1 (VObject entry) name = JS.get obj name).
  { intros name. unfold prop. by rewrite Hentry1. }
  assert (Hwrapped : wrapper cells1 x (VObject entry) = wrapped).
  { unfold wrapper. rewrite !Hp1, Hobj_cached, Hobj_sel, Hobj_listener. cbn.
    unfold wrapped. by destruct (truthy sel). }
  assert (Hready1 : Forall (λ e, truthy (prop cells1 e "_listener") = true) items).
  { rewrite Forall_forall in *. intros e He.
    rewrite (prop_ext (cells w) cells1 e _ (Hsame1 e He)). by apply Hready. }
  (* [addEventListener] *)
  set (w1a := set_cells (insert entry (Obj obj)) w).
  set (w1b := set_cells (insert a (Arr (items ++ [VObject entry]))) w1a).
  set (w1c := logged (reattach cells1 el <$> items) w1b).
  set (w1 := logged [attach cells1 x el (VObject entry)]
               (set_cells (λ _, cached_on x cells1 (VObject entry)) w1c)).
  assert (Hadd : addEventListener x type (VFunction f) selector w = (Ok tt, w1)).
  { unfold addEventListener. cbv zeta.
    rewrite (bind_run_ok _ _ _ _ _ (getComp_run _ _ _ Hc)), Ha. mrun.
    unfold alloc at 1. fold entry sel obj w1a.
    rewrite bind_run. unfold push at 1.
    assert (Hitems1a : cells w1a !! a = Some (Arr items))
      by (cbn; by rewrite lookup_insert_ne).
    rewrite (bind_run_ok _ _ _ _ _ (items_of_run _ _ _ Hitems1a)). mrun. fold w1b.
    rewrite Hel. unfold putEvents.
    assert (Hc1b : comps w1b !! x = Some c) by done.
    assert (Hitems1b : cells w1b !! a = Some (Arr (items ++ [VObject entry])))
      by (cbn; by rewrite lookup_insert_eq).
    rewrite (bind_run_ok _ _ _ _ _ (getComp_run _ _ _ Hc1b)), Ha, Hel.
    rewrite (bind_run_ok _ _ _ _ _ (items_of_run _ _ _ Hitems1b)).
    rewrite forEach_app, (forEach_putEvents_cached x el items w1b Hready1).
    change (logged (reattach (cells w1b) el <$> items) w1b) with w1c.
    cbn [forEach]. rewrite bind_run.
    rewrite (putEvents_each_fresh x el (VObject entry) w1c).
    - done.
    - change (cells w1c) with cells1. by rewrite Hp1, Hobj_cached.
    - change (cells w1c) with cells1. rewrite Hwrapped. unfold wrapped.
      by destruct (truthy sel). }
  set (obj2 := <["_listener" := wrapped]> obj).
  assert (Hcells1 : cells w1 = <[entry := Obj obj2]> cells1).
  { cbn. unfold cached_on. by rewrite Hp1, Hobj_cached, Hentry1, Hwrapped. }
  assert (Hlog1 : log w1 = log w ++ (reattach (cells w) el <$> items)
                                 ++ [AddEventListener (uid el) type wrapped]).
  { cbn. rewrite <-(assoc_L (++)). f_equal. f_equal.
    - apply Forall_fmap_ext, Forall_forall. intros e He.
      apply reattach_ext. by apply Hsame1.
    - unfold attach. by rewrite Hp1, Hobj_type, Hwrapped. }
  assert (Hitems1 : cells w1 !! a = Some (Arr (items ++ [VObject entry]))).
  { rewrite Hcells1. rewrite lookup_insert_ne by done. unfold cells1.
    by rewrite lookup_insert_eq. }
  assert (Hsame2 : ∀ e, e ∈ items → ∀ l, e = VObject l → cells w1 !! l = cells w !! l).
  { intros e He l Hl. destruct (Hitems_ne e He l Hl). rewrite Hcells1.
    rewrite lookup_insert_ne by done. by apply (Hsame1 e He). }
  assert (Hp2 : ∀ name, prop (cells w1) (VObject entry) name = JS.get obj2 name).
  { intros name. unfold prop. by rewrite Hcells1, lookup_insert_eq. }
  assert (Hobj2_type : JS.get obj2 "type" = type) by reflexivity.
  assert (Hobj2_listener : JS.get obj2 "listener" = VFunction f) by reflexivity.
  assert (Hobj2_sel : JS.get obj2 "selector" = sel) by reflexivity.
  assert (Hobj2_cached : JS.get obj2 "_listener" = wrapped) by reflexivity.
  assert (Hwrapped_truthy : truthy wrapped = true)
    by (unfold wrapped; by destruct (truthy sel)).
  (* [removeEventListener] *)
  set (w2a := logged [RemoveEventListener (uid el) type wrapped] w1).
  set (w2 := set_cells (insert a (Arr items)) w2a).
  assert (Hrem : removeEventListener x type (VFunction f) selector w1 = (Ok tt, w2)).
  { unfold removeEventListener. cbv zeta. fold sel.
    assert (Hc1 : comps w1 !! x = Some c) by done.
    rewrite (bind_run_ok _ _ _ _ _ (getComp_run _ _ _ Hc1)), Ha.
    rewrite (bind_run_ok _ _ _ _ _ (items_of_run _ _ _ Hitems1)).
    rewrite bind_run, findIndex_matches.
    2:{ apply Forall_app. split; [|by repeat constructor].
        eapply Forall_impl; [exact Hready|]. intros e. apply cached_not_nullish. }
    rewrite (first_index_last _ items (VObject entry)).
    - rewrite list_lookup_middle by done. cbn [default id]. rewrite Hel.
      rewrite bind_run, bind_run, get_prop_object, Hp2, Hobj2_cached, Hwrapped_truthy.
      rewrite bind_run, get_prop_object, Hp2, Hobj2_type, emit_run. fold w2a.
      mrun. by rewrite splice1_middle, app_nil_r.
    - rewrite Forall_forall in *. intros e He.
      rewrite (matches_ext (cells w) (cells w1) _ _ _ e (Hsame2 e He)). by apply Hnone.
    - unfold matches. rewrite !Hp2, Hobj2_type, Hobj2_listener, Hobj2_sel, Htype.
      rewrite strict_eq_function, (bool_decide_true (f = f)) by done. cbn [andb].
      destruct (truthy sel) eqn:Hsel; cbn [negb andb orb]; [|done].
      by apply truthy_strict_eq_refl. }
  exists w1, w2. split; [exact Hadd|]. split; [exact Hlog1|]. split; [exact Hitems1|].
  split; [exact Hrem|]. split; [done|]. split; [cbn; by rewrite lookup_insert_eq|].
  split; [done|]. intros l Hl. change (cells w2) with (<[a := Arr items]> (cells w1)).
  destruct (decide (l = a)) as [->|Hla]; [by rewrite lookup_insert_eq|].
  rewrite lookup_insert_ne by done. rewrite Hcells1. rewrite lookup_insert_ne by done.
  unfold cells1. by rewrite !lookup_insert_ne.
Qed.

(** ** Instances of a kind made from an empty configuration *)

(** X19: the kind made from a configuration without [definitions] and
    without [events].  [createComponent] gives it a list of its own, empty.
    [new _Comp()] returns a new instance with the initial state of the
    configuration (none: the empty one), no props, no effect, no element,
    and a new empty list of events that is not the list of the kind.
    Without a template, [render] and [get] throw a [TypeError]. *)
Theorem X19_instance_of_bare_config cfg w :
  CreateComponent.cfg_definitions cfg = None →
  CreateComponent.cfg_events cfg = None →
  ∃ k w1 x w2 a,
    CreateComponent.createComponent cfg w = (Ok k, w1)
    ∧ CreateComponent.construct k w1 = (Ok x, w2)
    ∧ comps w !! x = None
    ∧ cells w !! CreateComponent.events k = None
    ∧ cells w2 !! CreateComponent.events k = Some (Arr [])
    ∧ a ≠ CreateComponent.events k
    ∧ cells w2 !! a = Some (Arr [])
    ∧ comps w2 !! x
      = Some {| _state := default ∅ (CreateComponent.cfg_initialState cfg);
                _props := ∅;
                template := CreateComponent.cfg_template cfg;
                sideEffects := EffectHandler.create;
                element := None;
                events := Some a;
                fields := ∅ |}
    ∧ (CreateComponent.cfg_template cfg = None →
       render x w2 = (Throw (TypeError "this.template is not a function"), w2)
       ∧ (get x None w2).1 = Throw (TypeError "this.template is not a function")).
Proof.
  intros Hdef Hev.
  set (a0 := fresh (dom (cells w))).
  set (w1 := set_cells (insert a0 (Arr [])) w).
  set (k := {| CreateComponent.template := CreateComponent.cfg_template cfg;
               CreateComponent.initialState :=
                 default ∅ (CreateComponent.cfg_initialState cfg);
               CreateComponent.definitions := CreateComponent.DefFields ∅;
               CreateComponent.events := a0 |}).
  set (x := fresh (dom (comps w))).
  set (a := fresh (dom (cells w1))).
  set (c := {| _state := default ∅ (CreateComponent.cfg_initialState cfg);
               _props := ∅;
               template := CreateComponent.cfg_template cfg;
               sideEffects := EffectHandler.create;
               element := None;
               events := Some a;
               fields := ∅ |}).
  set (w2 := set_comps (insert x c) (set_cells (insert a (Arr [])) w1)).
  assert (Ha0 : cells w !! a0 = None) by (apply not_elem_of_dom, is_fresh).
  assert (Ha : cells w1 !! a = None) by (apply not_elem_of_dom, is_fresh).
  assert (Hx : comps w !! x = None) by (apply not_elem_of_dom, is_fresh).
  assert (Haa0 : a ≠ a0).
  { intros Heq. rewrite Heq in Ha. cbn in Ha. by rewrite lookup_insert_eq in Ha. }
  assert (Hc2 : comps w2 !! x = Some c) by (cbn; by rewrite lookup_insert_eq).
  exists k, w1, x, w2, a.
  split; [|split; [|split; [done|split; [done|split; [|split; [done|split; [|split]]]]]]].
  - unfold CreateComponent.createComponent. rewrite Hev, Hdef. by mrun.
  - unfold CreateComponent.construct, Component.new.
    change (fresh (dom (comps w1))) with x. cbn [CreateComponent.definitions k].
    repeat first
      [ rewrite bind_run
      | rewrite lookup_insert_eq
      | progress cbn [mret M_ret Store.ret gets modify throw setComp filterM mapM
                      comps cells set_comps set_cells w1 CreateComponent.events
                      CreateComponent.template CreateComponent.initialState k]
      | progress unfold getComp, items_of, alloc ].
    unfold mret, M_ret, Store.ret. f_equal.
    unfold w2, w1, set_comps, set_cells. cbn. f_equal.
    rewrite !insert_insert_eq. f_equal.
  - cbn. rewrite lookup_insert_ne by done. by rewrite lookup_insert_eq.
  - cbn. by rewrite lookup_insert_eq.
  - done.
  - intros Ht.
    assert (Hr : render x w2 = (Throw (TypeError "this.template is not a function"), w2)).
    { unfold render. rewrite (bind_run_ok _ _ _ _ _ (getComp_run _ _ _ Hc2)).
      unfold c. cbn. by rewrite Ht. }
    split; [exact Hr|]. unfold get.
    rewrite (bind_run_ok _ _ _ _ _ (getComp_run _ _ _ Hc2)). rewrite bind_run.
    cbn [setComp modify default]. rewrite bind_run. unfold render.
    assert (Hc3 : comps (set_comps (insert x (with_props ∅ c)) w2) !! x
                  = Some (with_props ∅ c)) by (cbn; by rewrite lookup_insert_eq).
    rewrite (bind_run_ok _ _ _ _ _ (getComp_run _ _ _ Hc3)).
    unfold c. cbn. by rewrite Ht.
Qed.

(** ** The further properties on the worlds of [Scenario] and [Cases] *)

Lemma poisoned_effects :
  EffectHandler.al
    (EffectHandler.mk (<["a" := [VFunction (User 1); VNumber (Int 42)]]>
                         (EffectHandler.al (sideEffects Scenario.ab_this)))
                      [VFunction (User 3)]) !! "a"
  = Some ([VFunction (User 1)] ++ VNumber (Int 42) :: []).
Proof. cbn. by rewrite lookup_insert_eq. Qed.

(** In [Cases.poisoned], a dispatch of [a] calls [User 1] and stops at the
    number: the global effect [User 3] is not called. *)
Lemma X5_dispatch_stops_at_non_function_witness :
  EffectHandler.dispatch (Some "a")
    (EffectHandler.mk (<["a" := [VFunction (User 1); VNumber (Int 42)]]>
                         (EffectHandler.al (sideEffects Scenario.ab_this)))
                      [VFunction (User 3)])
  = ([CallEffect (User 1)], Some (TypeError "funct is not a function")).
Proof.
  refine (proj2 (X5_dispatch_stops_at_non_function "a" _ [VFunction (User 1)]
                   (VNumber (Int 42)) [] poisoned_effects _ eq_refl)).
  by repeat constructor.
Defined.

Lemma stale_this_in_stale : comps Cases.stale !! Scenario.this = Some Cases.stale_this.
Proof. cbn. by rewrite lookup_insert_eq. Qed.

Lemma stale_renders : renders Cases.stale = 1.
Proof. vm_compute. reflexivity. Qed.

Lemma stale_element el :
  element Cases.stale_this = Some el →
  distinct_attributes el = true
  ∧ apart el (Scenario.span (_state Cases.stale_this) (_props Cases.stale_this)
                (renders Cases.stale))
  ∧ component el = Some Scenario.this.
Proof.
  intros [= <-]. split; [reflexivity|]. split; [|reflexivity].
  rewrite stale_renders. intros u Hu Hv. cbn in Hu, Hv.
  repeat (apply elem_of_cons in Hu as [->|Hu];
          [repeat (apply elem_of_cons in Hv as [Hv|Hv]; [discriminate|]);
           by apply elem_of_nil in Hv|]).
  by apply elem_of_nil in Hu.
Qed.

Lemma stale_tree :
  distinct_attributes (Scenario.span (_state Cases.stale_this) (_props Cases.stale_this)
                         (renders Cases.stale)) = true.
Proof. reflexivity. Qed.

Lemma span_stable s p n m : isEqualNode (Scenario.span s p n) (Scenario.span s p m) = true.
Proof. cbn. by rewrite String.eqb_refl. Qed.

(** In [Cases.stale] the view follows the state: [render] returns and the
    tree shows [1]. *)
Lemma X13_render_shows_template_witness :
  ∃ w1 el',
    render Scenario.this Cases.stale = (Ok tt, w1)
    ∧ comps w1 !! Scenario.this = Some (with_element (Some el') Cases.stale_this)
    ∧ isEqualNode el' (Element (Made 3) None "SPAN" [] None [Text (Made 4) None "1"])
      = true.
Proof.
  destruct (X13_render_shows_template Scenario.this Cases.stale Cases.stale_this Scenario.span
              stale_this_in_stale eq_refl stale_tree stale_element) as [Hshows Hreturns].
  destruct (Hreturns eq_refl) as [w1 E].
  { rewrite stale_renders. by repeat constructor. }
  destruct (Hshows w1 E) as (el' & Hc1 & Heq & _).
  exists w1, el'. split; [exact E|]. split; [exact Hc1|].
  rewrite stale_renders in Heq. exact Heq.
Defined.

Lemma stale_render :
  render Scenario.this Cases.stale = (Ok tt, (render Scenario.this Cases.stale).2).
Proof.
  assert (H : (render Scenario.this Cases.stale).1 = Ok tt) by (vm_compute; reflexivity).
  destruct (render Scenario.this Cases.stale) as [r w1]. cbn in *. by subst.
Qed.

Lemma shown_element :
  element <$> (comps (render Scenario.this Cases.stale).2 !! Scenario.this)
  = Some (Some (Element (Made 1) (Some Scenario.this) "SPAN" [] None
                  [Text (Made 4) None "1"]))
  ∧ renders (render Scenario.this Cases.stale).2 = 2.
Proof. vm_compute. split; reflexivity. Qed.

(** After that [render] the tree has the root it had and the text node of
    the template; the next tree of the template is made of two new
    nodes. *)
Lemma shown_apart c1 el1 :
  comps (render Scenario.this Cases.stale).2 !! Scenario.this = Some c1 →
  element c1 = Some el1 →
  apart el1 (Scenario.span (_state Cases.stale_this) (_props Cases.stale_this)
               (renders (render Scenario.this Cases.stale).2)).
Proof.
  destruct shown_element as [Hel ->]. intros Hc1 Hel1.
  rewrite Hc1 in Hel. cbn in Hel. rewrite Hel1 in Hel. injection Hel as ->.
  intros u Hu Hv. cbn in Hu, Hv.
  repeat (apply elem_of_cons in Hu as [->|Hu];
          [repeat (apply elem_of_cons in Hv as [Hv|Hv]; [discriminate|]);
           by apply elem_of_nil in Hv|]).
  by apply elem_of_nil in Hu.
Qed.

(** And a second [render] right after it leaves everything as it is. *)
Lemma X14_render_is_idempotent_witness :
  ∃ w1, render Scenario.this Cases.stale = (Ok tt, w1)
        ∧ render Scenario.this w1 = (Ok tt, set_renders (S (renders w1)) w1).
Proof.
  exists (render Scenario.this Cases.stale).2. split; [exact stale_render|].
  apply (X14_render_is_idempotent Scenario.this Cases.stale Cases.stale_this Scenario.span
           (render Scenario.this Cases.stale).2
           stale_this_in_stale eq_refl stale_tree stale_element).
  - intros n m. apply span_stable.
  - exact stale_render.
  - exact shown_apart.
Defined.

Lemma one_this :
  ∃ c, comps Scenario.one !! 1%positive = Some c ∧ events c = Some 9%positive.
Proof. vm_compute. eexists. split; reflexivity. Qed.

Lemma one_events : cells Scenario.one !! 9%positive = Some (Arr [VObject 7; VObject 8]).
Proof. vm_compute. reflexivity. Qed.

Lemma one_putEvents :
  putEvents 1%positive (Some Scenario.p1) Scenario.one
  = (Ok tt, (putEvents 1%positive (Some Scenario.p1) Scenario.one).2).
Proof.
  assert (H : (putEvents 1%positive (Some Scenario.p1) Scenario.one).1 = Ok tt)
    by (vm_compute; reflexivity).
  destruct (putEvents 1%positive (Some Scenario.p1) Scenario.one) as [r w1].
  cbn in *. by subst.
Qed.

(** The two listeners of the first instance of [Scenario.kind], attached to
    [p1] and then to [p2]: the second time nothing is written. *)
Lemma X16_putEvents_caches_wrappers_witness :
  putEvents 1%positive (Some Scenario.p2)
    (putEvents 1%positive (Some Scenario.p1) Scenario.one).2
  = (Ok tt,
     logged (reattach (cells (putEvents 1%positive (Some Scenario.p1) Scenario.one).2)
               Scenario.p2 <$> [VObject 7; VObject 8])
       (putEvents 1%positive (Some Scenario.p1) Scenario.one).2).
Proof.
  destruct one_this as (c & Hc & Hev).
  exact (proj2 (proj2 (X16_putEvents_caches_wrappers 1%positive Scenario.p1 Scenario.one c
                         9%positive [VObject 7; VObject 8] _ Hc Hev one_events
                         one_putEvents)) Scenario.p2).
Defined.

Lemma mounted_this :
  ∃ c, comps Cases.mounted !! 1%positive = Some c
       ∧ events c = Some 9%positive
       ∧ element c = Some (Element (Made 1) (Some 1%positive) "SPAN" [] None
                             [Text (Made 2) None "?"]).
Proof. vm_compute. eexists. repeat split; reflexivity. Qed.

Lemma mounted_events :
  cells Cases.mounted !! 9%positive = Some (Arr [VObject 7; VObject 8]).
Proof. vm_compute. reflexivity. Qed.

Lemma mounted_ready :
  Forall (λ e, truthy (prop (cells Cases.mounted) e "_listener") = true)
         [VObject 7; VObject 8].
Proof. repeat constructor; vm_compute; reflexivity. Qed.

Lemma mounted_no_blur :
  Forall (λ e, matches (cells Cases.mounted) (VString "blur") (VFunction (User 11))
                 (default VNull None) e = false)
         [VObject 7; VObject 8].
Proof. repeat constructor; vm_compute; reflexivity. Qed.

(** On the mounted instance, a listener for [blur] is added and removed
    again: the list is the one of before. *)
Lemma X18_addEventListener_then_remove_witness :
  ∃ w1 w2,
    addEventListener 1%positive (VString "blur") (VFunction (User 11)) None Cases.mounted
    = (Ok tt, w1)
    ∧ removeEventListener 1%positive (VString "blur") (VFunction (User 11)) None w1
      = (Ok tt, w2)
    ∧ log w2
      = log w1 ++ [RemoveEventListener (Made 1) (VString "blur")
                     (VFunction (Bound 1 (fresh (dom (cells Cases.mounted))) (User 11)))]
    ∧ cells w2 !! 9%positive = Some (Arr [VObject 7; VObject 8]).
Proof.
  destruct mounted_this as (c & Hc & Hev & Hel).
  pose proof (X18_addEventListener_then_remove 1%positive (VString "blur") (User 11) None
                Cases.mounted c 9%positive [VObject 7; VObject 8] _
                Hc Hev mounted_events Hel mounted_ready mounted_no_blur eq_refl) as H.
  cbv zeta in H. destruct H as (w1 & w2 & Hadd & _ & _ & Hrem & Hlog & Hlist & _).
  exists w1, w2. split; [exact Hadd|]. split; [exact Hrem|]. split; [exact Hlog|].
  exact Hlist.
Defined.

(** On the mounted instance, removing a listener for [blur] that was never
    added changes nothing. *)
Lemma X17_removeEventListener_without_match_witness :
  removeEventListener 1%positive (VString "blur") (VFunction (User 11)) None Cases.mounted
  = (Ok tt, Cases.mounted).
Proof.
  destruct mounted_this as (c & Hc & Hev & _).
  apply (proj2 (X17_removeEventListener_without_match 1%positive (VString "blur")
                  (VFunction (User 11)) None Cases.mounted c Hc)
           9%positive [VObject 7; VObject 8] Hev mounted_events);
    [by repeat constructor|exact mounted_no_blur].
Defined.

(** In [ab], [get({ x: 1 })] stores the props it was given. *)
Lemma X15_get_stores_props_witness :
  props Scenario.this
    (get Scenario.this (Some (<["x" := VNumber (Int 1)]> ∅)) Scenario.ab).2
  = (Ok (<["x" := VNumber (Int 1)]> ∅),
     (get Scenario.this (Some (<["x" := VNumber (Int 1)]> ∅)) Scenario.ab).2).
Proof.
  exact (proj1 (X15_get_stores_props Scenario.this (Some (<["x" := VNumber (Int 1)]> ∅))
                  Scenario.ab Scenario.ab_this ab_this_in_ab)
           _ _ (surjective_pairing _)).
Defined.

(** An instance of the kind made from [{}] has no template to render. *)
Lemma X19_instance_of_bare_config_witness :
  ∃ k w1 x w2,
    CreateComponent.createComponent Cases.bare Scenario.empty = (Ok k, w1)
    ∧ CreateComponent.construct k w1 = (Ok x, w2)
    ∧ render x w2 = (Throw (TypeError "this.template is not a function"), w2).
Proof.
  destruct (X19_instance_of_bare_config Cases.bare Scenario.empty eq_refl eq_refl)
    as (k & w1 & x & w2 & a & Hk & Hx & _ & _ & _ & _ & _ & _ & Hrender).
  exists k, w1, x, w2. split; [exact Hk|]. split; [exact Hx|].
  exact (proj1 (Hrender eq_refl)).
Defined.
